(** * gtdBot: session registry, item store, dispatch and daily scheduler

    A shallow embedding of the Go sources (main.go: store, session registry
    and dispatch; scheduler.go: the daily trigger loop; calendar.go: the
    calendar collaborator; bot.go: the earlier single-file bot) and the
    properties of the session/scheduling engine proved about it.

    Conventions of the embedding:
    - Go [string] is a byte string ([string] of Rocq, one [ascii] per byte);
      Cyrillic literals are their UTF-8 bytes, as in the Go source.
    - [int64] is [Z]; where the source can wrap around ([parseInt64]) the
      wrap is written out.
    - [map[K]V] is stdpp's [gmap]; reading a missing key gives the zero
      value, as in Go.
    - The SQLite tables are a record [DB]; a statement that fails is drawn
      from an oracle carried by the world, so every error branch of the
      source is reachable.
    - Methods that mutate the receiver are computations in a small state
      monad over [World].
    - An instant is its Unix time in nanoseconds. The reading of
      [time.Now()] that a handler's session operations work with is a
      parameter; the reading that [AddItem] takes for itself is drawn from
      an oracle carried by the world, and is stored as the whole second
      that its RFC3339 text names. *)

From Stdlib Require Import ZArith Ascii String.
From stdpp Require Import gmap strings list sorting pretty.

(** ** Go standard library: package strings *)

Module GoStrings.

Local Open Scope N_scope.

Definition bytes_of (s : string) : list N := N_of_ascii <$> String.list_ascii_of_string s.
Definition of_bytes (bs : list N) : string := String.string_of_list_ascii (ascii_of_N <$> bs).

(** [asciiSpace] table of package strings: tab, LF, VT, FF, CR, space. *)
Definition asciiSpace (b : N) : bool :=
  match b with
  | 9 | 10 | 11 | 12 | 13 | 32 => true
  | _ => false
  end.

(** [strings.TrimLeftFunc(s, unicode.IsSpace)] on the UTF-8 bytes. A rune is
    trimmed when it is an ASCII space or the encoding of U+0085, U+00A0,
    U+1680, U+2000..U+200A, U+2028, U+2029, U+202F, U+205F or U+3000; an
    invalid byte decodes to RuneError, which is not a space. *)
Fixpoint trimLeftSpace (bs : list N) : list N :=
  match bs with
  | [] => []
  | b :: r1 =>
    if asciiSpace b then trimLeftSpace r1 else
    match b, r1 with
    | 0xC2, b2 :: r2 =>
        if (b2 =? 0x85) || (b2 =? 0xA0) then trimLeftSpace r2 else bs
    | 0xE1, 0x9A :: 0x80 :: r3 => trimLeftSpace r3
    | 0xE2, 0x80 :: b3 :: r3 =>
        if ((0x80 <=? b3) && (b3 <=? 0x8A)) || (b3 =? 0xA8) || (b3 =? 0xA9) || (b3 =? 0xAF)
        then trimLeftSpace r3 else bs
    | 0xE2, 0x81 :: 0x9F :: r3 => trimLeftSpace r3
    | 0xE3, 0x80 :: 0x80 :: r3 => trimLeftSpace r3
    | _, _ => bs
    end
  end.

(** [strings.TrimRightFunc(s, unicode.IsSpace)], run on the reversed bytes:
    [utf8.DecodeLastRuneInString] walks back to the lead byte of the last
    rune, so the same encodings are matched back to front. *)
Fixpoint trimLeftSpaceRev (bs : list N) : list N :=
  match bs with
  | [] => []
  | b :: r1 =>
    if asciiSpace b then trimLeftSpaceRev r1 else
    match r1 with
    | 0xC2 :: r2 =>
        if (b =? 0x85) || (b =? 0xA0) then trimLeftSpaceRev r2 else bs
    | 0x9A :: 0xE1 :: r3 => if b =? 0x80 then trimLeftSpaceRev r3 else bs
    | 0x80 :: 0xE2 :: r3 =>
        if ((0x80 <=? b) && (b <=? 0x8A)) || (b =? 0xA8) || (b =? 0xA9) || (b =? 0xAF)
        then trimLeftSpaceRev r3 else bs
    | 0x81 :: 0xE2 :: r3 => if b =? 0x9F then trimLeftSpaceRev r3 else bs
    | 0x80 :: 0xE3 :: r3 => if b =? 0x80 then trimLeftSpaceRev r3 else bs
    | _ => bs
    end
  end.

(** [strings.TrimSpace]: the ASCII fast path and the Unicode fallback of the
    library trim the same bytes as a left trim followed by a right trim. *)
Definition TrimSpace (s : string) : string :=
  of_bytes (rev (trimLeftSpaceRev (rev (trimLeftSpace (bytes_of s))))).

(** [strings.HasPrefix] and [strings.TrimPrefix]. *)
Definition HasPrefix (s p : string) : bool := String.prefix p s.

Definition TrimPrefix (s p : string) : string :=
  if HasPrefix s p then String.substring (String.length p) (String.length s - String.length p) s
  else s.

(** [strings.ToLower] and [strings.ToUpper]. The library maps an ASCII-only
    string byte by byte and sends every other string through
    [strings.Map(unicode.ToLower, s)] (or [unicode.ToUpper]); the Unicode
    case tables behind those calls are the one part of the library the model
    takes as given. *)
Class UnicodeCase := {
  MapToLower : string → string;
  MapToUpper : string → string }.

Definition isASCII (bs : list N) : bool := forallb (λ b, b <? 0x80) bs.

Definition lowerByte (b : N) : N := if (0x41 <=? b) && (b <=? 0x5A) then b + 0x20 else b.
Definition upperByte (b : N) : N := if (0x61 <=? b) && (b <=? 0x7A) then b - 0x20 else b.

Definition ToLower {UC : UnicodeCase} (s : string) : string :=
  if isASCII (bytes_of s) then of_bytes (lowerByte <$> bytes_of s) else MapToLower s.

Definition ToUpper {UC : UnicodeCase} (s : string) : string :=
  if isASCII (bytes_of s) then of_bytes (upperByte <$> bytes_of s) else MapToUpper s.

(** Case tables for the basic Cyrillic block (U+0410..U+042F and
    U+0430..U+044F, the letters of the bot's button labels); other runes are
    left as they are. Used to run the model on concrete inputs. *)
Fixpoint lowerCyrillic (bs : list N) : list N :=
  match bs with
  | 0xD0 :: b :: r =>
      if (0x90 <=? b) && (b <=? 0x9F) then 0xD0 :: (b + 0x20) :: lowerCyrillic r
      else if (0xA0 <=? b) && (b <=? 0xAF) then 0xD1 :: (b - 0x20) :: lowerCyrillic r
      else 0xD0 :: b :: lowerCyrillic r
  | b :: r => lowerByte b :: lowerCyrillic r
  | [] => []
  end.

Fixpoint upperCyrillic (bs : list N) : list N :=
  match bs with
  | 0xD0 :: b :: r =>
      if (0xB0 <=? b) && (b <=? 0xBF) then 0xD0 :: (b - 0x20) :: upperCyrillic r
      else 0xD0 :: b :: upperCyrillic r
  | 0xD1 :: b :: r =>
      if (0x80 <=? b) && (b <=? 0x8F) then 0xD0 :: (b + 0x20) :: upperCyrillic r
      else 0xD1 :: b :: upperCyrillic r
  | b :: r => upperByte b :: upperCyrillic r
  | [] => []
  end.

Definition basicCyrillic : UnicodeCase := {|
  MapToLower := λ s, of_bytes (lowerCyrillic (bytes_of s));
  MapToUpper := λ s, of_bytes (upperCyrillic (bytes_of s)) |}.

End GoStrings.

Import GoStrings.

(** ** Go standard library: package strconv, machine integers *)

Module GoStrconv.

Local Open Scope Z_scope.

Definition minInt64 : Z := - 2 ^ 63.
Definition maxInt64 : Z := 2 ^ 63 - 1.

(** Two's complement wrap-around of [int64] arithmetic. *)
Definition wrap64 (n : Z) : Z := (n + 2 ^ 63) mod 2 ^ 64 - 2 ^ 63.

Definition digitVal (b : N) : option Z :=
  if ((0x30 <=? b) && (b <=? 0x39))%N then Some (Z.of_N b - 0x30) else None.

Fixpoint parseDigits (acc : Z) (bs : list N) : option Z :=
  match bs with
  | [] => Some acc
  | b :: r =>
      match digitVal b with
      | Some d => parseDigits (acc * 10 + d) r
      | None => None
      end
  end.

(** [strconv.ParseInt(s, 10, 64)]; [None] stands for a non-nil error
    (syntax or range): an optional sign, then at least one decimal digit,
    and the value has to fit in [int64]. *)
Definition ParseInt (s : string) : option Z :=
  match bytes_of s with
  | [] => None
  | b :: r =>
      let '(neg, ds) :=
        if (b =? 0x2B)%N then (false, r)
        else if (b =? 0x2D)%N then (true, r)
        else (false, b :: r) in
      match ds with
      | [] => None
      | _ =>
          match parseDigits 0 ds with
          | Some un =>
              let n := if neg then - un else un in
              if (minInt64 <=? n) && (n <=? maxInt64) then Some n else None
          | None => None
          end
      end
  end.

(** [strconv.FormatInt(n, 10)] and the verb [%d] of package fmt. *)
Definition FormatInt (n : Z) : string := pretty n.

End GoStrconv.

Import GoStrconv.

(** ** Go standard library: package time *)

Module GoTime.

(** An instant ([time.Time] compared and subtracted) is its count of
    nanoseconds; [Time.Sub] saturates at the ends of [time.Duration]. *)
Definition Sub (t u : Z) : Z :=
  (if t - u <? minInt64 then minInt64
   else if maxInt64 <? t - u then maxInt64
   else t - u)%Z.

Definition Minute : Z := 60000000000.
Definition Second : Z := 1000000000.

(** The zero [time.Time] (January 1, year 1, 00:00 UTC). *)
Definition zeroTime : Z := (- 62135596800 * Second)%Z.

(** [t.UTC().Format(time.RFC3339)]: the text names the whole second of [t]
    and stands here for the Unix time of that second. *)
Definition FormatRFC3339 (t : Z) : Z := (t `div` Second)%Z.

(** [time.Parse(time.RFC3339, text)] with the error dropped: the instant of
    the second the text names; a text whose year is not one of 0000..9999
    does not parse, which leaves the zero time. *)
Definition ParseRFC3339 (sec : Z) : Z :=
  (if (-62167219200 <=? sec) && (sec <=? 253402300799) then sec * Second else zeroTime)%Z.

(** The wall clock of an instant in the scheduler's location, as
    [now.Format] reads it. *)
Record Civil := {
  year : N; month : N; day : N;
  hour : N; minute : N; second : N }.

Definition civil_date (c : Civil) : N * N * N := (year c, month c, day c).

(** What [time.Time] guarantees of its fields; years are those that
    [Format] prints with four digits. *)
Definition civil_ok (c : Civil) : Prop :=
  (year c < 10000 ∧ 1 ≤ month c ≤ 12 ∧ 1 ≤ day c ≤ 31 ∧
   hour c < 24 ∧ minute c < 60 ∧ second c < 60)%N.

Definition digit (n : N) : ascii := ascii_of_N (48 + n mod 10).

Definition pad2 (n : N) : string :=
  String (digit (n / 10)) (String (digit n) "").

Definition pad4 (n : N) : string :=
  String (digit (n / 1000)) (String (digit (n / 100)) (pad2 n)).

(** [now.Format("15:04")] *)
Definition Format_hhmm (c : Civil) : string :=
  pad2 (hour c) +:+ ":" +:+ pad2 (minute c).

(** [now.Format("2006-01-02")] *)
Definition Format_date (c : Civil) : string :=
  (if (year c <? 10000)%N then pad4 (year c) else pretty (year c))
  +:+ "-" +:+ pad2 (month c) +:+ "-" +:+ pad2 (day c).

End GoTime.

Import GoTime.

(** ** main.go: constants and records *)

Definition TopicTasks : string := "tasks".
Definition TopicReminders : string := "reminders".
Definition TopicShopping : string := "shopping".
Definition TopicBasket : string := "basket".

Definition StatusActive : string := "active".

Record ChatState := { Topic : string; LastActivity : Z }.

Record Item := {
  ID : Z; ChatID : Z; ItemTopic : string; Text : string; CreatedAt : Z }.

(** A row of table [items] and the tables of the database.
    [sqlite_sequence] is SQLite's AUTOINCREMENT counter of table [items],
    the largest id ever handed out. Column created_at holds an RFC3339
    text, kept as the Unix time of the second that it names. *)
Record Row := {
  row_id : Z; row_chat_id : Z; row_topic : string; row_text : string;
  row_status : string; row_created_at : Z }.

Record DB := { items : list Row; sqlite_sequence : Z; kv : gmap string string }.

Definition emptyDB : DB := {| items := []; sqlite_sequence := 0; kv := ∅ |}.

(** A Go [error] is its message. *)
Inductive result (A : Type) : Type :=
  | Ok (a : A)
  | Err (e : string).
Arguments Ok {A} a.
Arguments Err {A} e.

(** What the bot hands to the Telegram API, in the order of the calls. *)
Inductive Outbound : Type :=
  | MenuMessage (chat : Z) (text : string)
      (* [App.send]: text with the main menu keyboard *)
  | PlainMessage (chat : Z) (text : string)
      (* [tgbotapi.NewMessage] sent without markup *)
  | ReminderMessage (chat : Z) (text : string) (callback_data : string)
      (* one inline button "✅" carrying [callback_data] *)
  | CallbackAnswer (query : string) (text : string)
  | EditText (chat : Z) (message : Z) (text : string)
  | EditMarkup (chat : Z) (message : Z).

(** calendar.go: the interface the scheduler consumes. *)
Class CalendarClient := GetTodaySchedule : Civil → result string.

(** The state both goroutines share: the [App] fields [TTL], [ChatStates]
    and [Store], the process environment, the oracle [faults] (the error,
    if any, of each coming SQL statement; none once it is used up), the
    oracle [clock] (the readings of [time.Now()] that the store is going to
    take, in order), and what has been sent and logged so far. *)
Record World := {
  TTL : Z;
  ChatStates : gmap Z ChatState;
  Store : DB;
  faults : list (option string);
  clock : nat → Z;
  env : gmap string string;
  sent : list Outbound;
  logged : list string }.

Definition with_ChatStates (m : gmap Z ChatState) (w : World) : World :=
  {| TTL := TTL w; ChatStates := m; Store := Store w; faults := faults w;
     clock := clock w; env := env w; sent := sent w; logged := logged w |}.
Definition with_Store (d : DB) (w : World) : World :=
  {| TTL := TTL w; ChatStates := ChatStates w; Store := d; faults := faults w;
     clock := clock w; env := env w; sent := sent w; logged := logged w |}.
Definition with_faults (f : list (option string)) (w : World) : World :=
  {| TTL := TTL w; ChatStates := ChatStates w; Store := Store w; faults := f;
     clock := clock w; env := env w; sent := sent w; logged := logged w |}.
Definition with_sent (o : list Outbound) (w : World) : World :=
  {| TTL := TTL w; ChatStates := ChatStates w; Store := Store w; faults := faults w;
     clock := clock w; env := env w; sent := o; logged := logged w |}.
Definition with_logged (l : list string) (w : World) : World :=
  {| TTL := TTL w; ChatStates := ChatStates w; Store := Store w; faults := faults w;
     clock := clock w; env := env w; sent := sent w; logged := l |}.
Definition with_clock (c : nat → Z) (w : World) : World :=
  {| TTL := TTL w; ChatStates := ChatStates w; Store := Store w; faults := faults w;
     clock := c; env := env w; sent := sent w; logged := logged w |}.

(** ** The state monad of the receivers *)

Definition M (A : Type) : Type := World → A * World.

Definition ret {A} (a : A) : M A := λ w, (a, w).
Definition bind {A B} (c : M A) (k : A → M B) : M B :=
  λ w, let '(a, w') := c w in k a w'.
Definition get : M World := λ w, (w, w).
Definition modify (f : World → World) : M unit := λ w, (tt, f w).
Definition exec {A} (c : M A) (w : World) : World := snd (c w).
Definition eval {A} (c : M A) (w : World) : A := fst (c w).

Declare Scope go_scope.
Delimit Scope go_scope with go.
Notation "x <- c ;; k" := (bind c (λ x, k))
  (at level 100, c at next level, right associativity) : go_scope.
Notation "c ;;; k" := (bind c (λ _, k))
  (at level 100, right associativity) : go_scope.
Local Open Scope go_scope.

Definition Getenv (key : string) : M string :=
  w <- get ;; ret (default "" (env w !! key)).

(** [time.Now()] as the store reads it: the next reading of the clock. *)
Definition Now : M Z := λ w, (clock w 0%nat, with_clock (λ n, clock w (S n)) w).

Definition Send (o : Outbound) : M unit := modify (λ w, with_sent (sent w ++ [o]) w).
Definition Printf (line : string) : M unit := modify (λ w, with_logged (logged w ++ [line]) w).

(** ** main.go: the store *)

(** One SQL statement reaches the database: the oracle says whether it
    fails. *)
Definition statement : M (option string) :=
  λ w, match faults w with
       | [] => (None, w)
       | f :: fs => (f, with_faults fs w)
       end.

Definition modifyDB (f : DB → DB) : M unit := modify (λ w, with_Store (f (Store w)) w).

Definition set_kv (key value : string) (d : DB) : DB :=
  {| items := items d; sqlite_sequence := sqlite_sequence d;
     kv := <[key := value]> (kv d) |}.

(** [INSERT INTO kv(k, v) VALUES(?, ?) ON CONFLICT(k) DO UPDATE SET v=excluded.v] *)
Definition SetKV (key value : string) : M (result unit) :=
  f <- statement ;;
  match f with
  | Some e => ret (Err e)
  | None =>
      modifyDB (set_kv key value) ;;;
      ret (Ok tt)
  end.

(** [SELECT v FROM kv WHERE k=?]; a failed query and a missing row both
    give [("", false)]. *)
Definition GetKV (key : string) : M (string * bool) :=
  f <- statement ;;
  match f with
  | Some _ => ret ("", false)
  | None =>
      w <- get ;;
      match kv (Store w) !! key with
      | Some v => ret (v, true)
      | None => ret ("", false)
      end
  end.

(** A row added at the end of table [items] under a new id. *)
Definition insert_row (r : Row) (d : DB) : DB :=
  {| items := items d ++ [r]; sqlite_sequence := row_id r; kv := kv d |}.

(** [INSERT INTO items(chat_id, topic, text, status, created_at)]: the new
    id is one more than the largest ever used (rows enter the table through
    this statement only, so that is the counter), and SQLite refuses the
    insert once that is the largest [int64]. [now] is the reading of
    [time.Now()] that [AddItem] takes for itself; column created_at gets its
    RFC3339 text. *)
Definition AddItem (now : Z) (chatID : Z) (topic text : string) : M (result Z) :=
  f <- statement ;;
  match f with
  | Some e => ret (Err e)
  | None =>
      w <- get ;;
      let d := Store w in
      if (maxInt64 <=? sqlite_sequence d)%Z then ret (Err "database or disk is full")
      else
        let id := (sqlite_sequence d + 1)%Z in
        let r := {| row_id := id; row_chat_id := chatID; row_topic := topic;
                    row_text := text; row_status := StatusActive;
                    row_created_at := FormatRFC3339 now |} in
        modifyDB (insert_row r) ;;;
        ret (Ok id)
  end.

(** [ORDER BY id ASC] *)
Fixpoint insert_by_id (r : Row) (l : list Row) : list Row :=
  match l with
  | [] => [r]
  | r' :: l' => if (row_id r <=? row_id r')%Z then r :: l else r' :: insert_by_id r l'
  end.

Definition order_by_id (l : list Row) : list Row := foldr insert_by_id [] l.

Definition scan (r : Row) : Item :=
  {| ID := row_id r; ChatID := row_chat_id r; ItemTopic := row_topic r;
     Text := row_text r; CreatedAt := ParseRFC3339 (row_created_at r) |}.

(** The WHERE clause of [ListActive]: the topic is tested only when it is
    not the empty string. *)
Definition selected (chatID : Z) (topic : string) (r : Row) : bool :=
  bool_decide (row_chat_id r = chatID) && bool_decide (row_status r = StatusActive)
  && (bool_decide (topic = "") || bool_decide (row_topic r = topic)).

(** [SELECT id, chat_id, topic, text, created_at FROM items WHERE ...
    ORDER BY id ASC] *)
Definition select_active (chatID : Z) (topic : string) (d : DB) : list Item :=
  scan <$> order_by_id (filter (λ r, selected chatID topic r) (items d)).

Definition ListActive (chatID : Z) (topic : string) : M (result (list Item)) :=
  f <- statement ;;
  match f with
  | Some e => ret (Err e)
  | None => w <- get ;; ret (Ok (select_active chatID topic (Store w)))
  end.

Definition delete_where (p : Row → bool) (d : DB) : DB :=
  {| items := filter (λ r, negb (p r)) (items d);
     sqlite_sequence := sqlite_sequence d; kv := kv d |}.

(** [DELETE FROM items WHERE chat_id=? AND id=?] *)
Definition DeleteItem (chatID id : Z) : M (result unit) :=
  f <- statement ;;
  match f with
  | Some e => ret (Err e)
  | None =>
      modifyDB (delete_where (λ r, bool_decide (row_chat_id r = chatID)
                                   && bool_decide (row_id r = id))) ;;;
      ret (Ok tt)
  end.

(** [DELETE FROM items WHERE chat_id=? AND topic=?] with [TopicReminders] *)
Definition DeleteAllReminders (chatID : Z) : M (result unit) :=
  f <- statement ;;
  match f with
  | Some e => ret (Err e)
  | None =>
      modifyDB (delete_where (λ r, bool_decide (row_chat_id r = chatID)
                                   && bool_decide (row_topic r = TopicReminders))) ;;;
      ret (Ok tt)
  end.

Section Dispatch.

Context {UC : UnicodeCase}.

Definition nl : string := String (ascii_of_N 10) "".

Definition topicLabel (topic : string) : string :=
  if bool_decide (topic = TopicTasks) then "ЗАДАЧИ"
  else if bool_decide (topic = TopicReminders) then "НАПОМИНАНИЯ"
  else if bool_decide (topic = TopicShopping) then "ПОКУПКИ"
  else if bool_decide (topic = TopicBasket) then "КОРЗИНУ"
  else ToUpper topic.

Definition isTopicButtonText (t : string) : string * bool :=
  let l := TrimSpace (ToLower t) in
  if bool_decide (l = "задачи") then (TopicTasks, true)
  else if bool_decide (l = "напоминания") then (TopicReminders, true)
  else if bool_decide (l = "покупки") then (TopicShopping, true)
  else if bool_decide (l = "корзина") then (TopicBasket, true)
  else if bool_decide (l = "menu") then (TopicBasket, true)
  else ("", false).

(** *** The session registry. [now] is the reading of [time.Now()]. *)

Definition getState (now : Z) (chatID : Z) : M ChatState :=
  w <- get ;;
  match ChatStates w !! chatID with
  | None =>
      let st := {| Topic := TopicBasket; LastActivity := now |} in
      modify (with_ChatStates (<[chatID := st]> (ChatStates w))) ;;;
      ret st
  | Some st => ret st
  end.

Definition touchState (now : Z) (chatID : Z) : M ChatState :=
  w <- get ;;
  match ChatStates w !! chatID with
  | None =>
      let st := {| Topic := TopicBasket; LastActivity := now |} in
      modify (with_ChatStates (<[chatID := st]> (ChatStates w))) ;;;
      ret st
  | Some st =>
      (* TTL: if inactive too long -> basket *)
      let st1 := if (TTL w <? Sub now (LastActivity st))%Z
                 then {| Topic := TopicBasket; LastActivity := LastActivity st |}
                 else st in
      let st2 := {| Topic := Topic st1; LastActivity := now |} in
      modify (with_ChatStates (<[chatID := st2]> (ChatStates w))) ;;;
      ret st2
  end.

Definition setTopic (now : Z) (chatID : Z) (topic : string) : M unit :=
  w <- get ;;
  modify (with_ChatStates
            (<[chatID := {| Topic := topic; LastActivity := now |}]> (ChatStates w))).

Definition resetToMenu (now : Z) (chatID : Z) : M unit :=
  w <- get ;;
  modify (with_ChatStates
            (<[chatID := {| Topic := TopicBasket; LastActivity := now |}]> (ChatStates w))).

(** If CHAT_ID is not set, the chat id seen last is persisted for the
    scheduler; the error of [SetKV] is dropped. *)
Definition ensureChatID (chatID : Z) : M unit :=
  v <- Getenv "CHAT_ID" ;;
  if bool_decide (TrimSpace v = "") then (SetKV "chat_id" (FormatInt chatID) ;;; ret tt)
  else ret tt.

Definition send (chatID : Z) (text : string) : M unit := Send (MenuMessage chatID text).

(** *** Formatting *)

Definition formatSingleReminder (it : Item) : string :=
  "НАПОМИНАНИЕ #" +:+ FormatInt (ID it) +:+ ": " +:+ Text it.

(** The callback data of [singleReminderKeyboard(id)]. *)
Definition singleReminderKeyboard (id : Z) : string := "done:" +:+ FormatInt id.

Fixpoint numbered (i : Z) (its : list Item) : string :=
  match its with
  | [] => ""
  | it :: r => FormatInt (i + 1) +:+ ") " +:+ Text it +:+ nl +:+ numbered (i + 1) r
  end.

Definition formatItems (topic : string) (its : list Item) : string :=
  match its with
  | [] => topicLabel topic +:+ ": пусто."
  | _ => TrimSpace (topicLabel topic +:+ ":" +:+ nl +:+ numbered 0 its)
  end.

Fixpoint forM_ {A} (l : list A) (f : A → M unit) : M unit :=
  match l with
  | [] => ret tt
  | a :: r => f a ;;; forM_ r f
  end.

Definition reminderMessage (chatID : Z) (it : Item) : Outbound :=
  ReminderMessage chatID (formatSingleReminder it) (singleReminderKeyboard (ID it)).

Definition sendRemindersOneByOne (chatID : Z) (its : list Item) : M unit :=
  match its with
  | [] => send chatID "Пусто."
  | _ => forM_ its (λ it, Send (reminderMessage chatID it))
  end.

(** *** Inbound events, as tgbotapi delivers them. [msg_command] is
    [Some c] when [m.IsCommand()] holds and [m.Command()] is [c]. *)

Record Message := { msg_chat : Z; msg_text : string; msg_command : option string }.

Record CallbackQuery := {
  cq_id : string; cq_chat : Z; cq_message : Z; cq_data : string }.

Definition handleCommand (now : Z) (chatID : Z) (c : string) : M unit :=
  if bool_decide (c = "start") || bool_decide (c = "menu") then
    resetToMenu now chatID ;;;
    send chatID "Меню открыто. Режим по умолчанию: КОРЗИНА."
  else if bool_decide (c = "list") then
    st <- getState now chatID ;;
    r <- ListActive chatID (Topic st) ;;
    match r with
    | Err _ => send chatID "Ошибка чтения списка."
    | Ok its =>
        if bool_decide (Topic st = TopicReminders) then
          send chatID "НАПОМИНАНИЯ:" ;;;
          sendRemindersOneByOne chatID its
        else send chatID (formatItems (Topic st) its)
    end
  else send chatID "Неизвестная команда. Используй /start или /menu.".

Definition handleButton (now : Z) (chatID : Z) (text topic : string) : M unit :=
  let btn := ToLower (TrimSpace text) in
  if bool_decide (btn = "menu") then
    (* "menu" forces basket *)
    resetToMenu now chatID ;;;
    r <- ListActive chatID TopicBasket ;;
    match r with
    | Err _ => send chatID "Меню открыто. Режим: КОРЗИНА. Ошибка чтения корзины."
    | Ok its =>
        send chatID "Меню открыто. Режим: КОРЗИНА." ;;;
        send chatID (formatItems TopicBasket its)
    end
  else
    setTopic now chatID topic ;;;
    r <- ListActive chatID topic ;;
    match r with
    | Err _ => send chatID ("Режим: " +:+ topicLabel topic +:+ ". Ошибка чтения списка.")
    | Ok its =>
        if bool_decide (topic = TopicReminders) then
          send chatID ("Режим: " +:+ topicLabel topic +:+ ".") ;;;
          sendRemindersOneByOne chatID its
        else
          send chatID ("Режим: " +:+ topicLabel topic +:+ ".") ;;;
          send chatID (formatItems topic its)
    end.

(** Normal text -> add to current topic (with TTL check) *)
Definition captureText (now : Z) (chatID : Z) (text0 : string) : M unit :=
  st <- touchState now chatID ;;
  let text := TrimSpace text0 in
  if bool_decide (text = "") then ret tt
  else
    created <- Now ;;
    r <- AddItem created chatID (Topic st) text ;;
    match r with
    | Err _ => send chatID "Ошибка записи в БД."
    | Ok _ => send chatID ("ДОБАВИЛ СООБЩЕНИЕ В " +:+ topicLabel (Topic st) +:+ ".")
    end.

Definition handleMessage (now : Z) (m : Message) : M unit :=
  let chatID := msg_chat m in
  ensureChatID chatID ;;;
  match msg_command m with
  | Some c => handleCommand now chatID c
  | None =>
      if bool_decide (msg_text m = "") then send chatID "Понимаю только текстовые сообщения."
      else
        match isTopicButtonText (msg_text m) with
        | (topic, true) => handleButton now chatID (msg_text m) topic
        | (_, false) => captureText now chatID (msg_text m)
        end
  end.

Definition handleCallback (cq : CallbackQuery) : M unit :=
  let chatID := cq_chat cq in
  ensureChatID chatID ;;;
  let data := TrimSpace (cq_data cq) in
  (* callback format: done:<id> *)
  if HasPrefix data "done:" then
    (match ParseInt (TrimPrefix data "done:") with
     | Some id => DeleteItem chatID id ;;; ret tt
     | None => ret tt
     end) ;;;
    Send (CallbackAnswer (cq_id cq) "Удалено") ;;;
    Send (EditText chatID (cq_message cq) "✅ Удалено") ;;;
    Send (EditMarkup chatID (cq_message cq))
  else Send (CallbackAnswer (cq_id cq) "").

End Dispatch.

(** The labels of [mainMenuKeyboard()], row by row. *)
Definition mainMenuKeyboard : list (list string) :=
  [["Задачи"; "Напоминания"]; ["Покупки"; "Корзина"]; ["menu"]].

(** ** calendar.go *)

Definition googleCalendarClient (enabled : bool) (calendarID : string) : CalendarClient :=
  λ now,
    if enabled then
      Ok ("Расписание на сегодня (" +:+ Format_date now +:+ "):" +:+ nl
          +:+ "(заглушка) календарь=" +:+ calendarID)
    else Ok "Расписание из Google Calendar не настроено (GCAL_CALENDAR_ID не задан).".

(** [strings.EqualFold(s, "true")]. No rune outside ASCII folds to one of
    the letters t, r, u, e, so the comparison is that of the bytes with the
    ASCII upper case letters lowered. *)
Definition equalFoldTrue (s : string) : bool :=
  bool_decide (lowerByte <$> bytes_of s = bytes_of "true").

(** If GCAL_DISABLED=true or missing config -> return disabled client *)
Definition NewGoogleCalendarClientFromEnv : M CalendarClient :=
  d <- Getenv "GCAL_DISABLED" ;;
  if equalFoldTrue (TrimSpace d) then ret (googleCalendarClient false "")
  else
    c <- Getenv "GCAL_CALENDAR_ID" ;;
    let calID := TrimSpace c in
    if bool_decide (calID = "") then ret (googleCalendarClient false "")
    else ret (googleCalendarClient true calID).

(** ** scheduler.go *)

Record Scheduler := {
  calendar : CalendarClient;
  reminderTimes : list string;  (* HH:MM in tz *)
  wipeTime : string;            (* HH:MM *)
  morningTime : string          (* HH:MM *) }.

Definition envOr (key def : string) : M string :=
  v <- Getenv key ;;
  let v := TrimSpace v in
  ret (if bool_decide (v = "") then def else v).

Definition NewScheduler (cal : CalendarClient) : M Scheduler :=
  mt <- envOr "MORNING_TIME" "08:00" ;;
  ret {| calendar := cal;
         reminderTimes := ["08:00"; "10:00"; "14:00"; "19:00"; "23:00"];
         wipeTime := "03:00";
         morningTime := mt |}.

(** The loop over the runes of [s]: a byte of a multi-byte or invalid rune
    is above '9' like the rune itself, so the loop can run over the bytes.
    [n*10 + d] is [int64] arithmetic. *)
Fixpoint parseInt64_loop (n : Z) (bs : list N) : Z * bool :=
  match bs with
  | [] => (n, true)
  | ch :: r =>
      if ((ch <? 0x30) || (0x39 <? ch))%N then (0%Z, false)
      else parseInt64_loop (wrap64 (n * 10 + (Z.of_N ch - 0x30))) r
  end.

Definition parseInt64 (s : string) : Z * bool :=
  if bool_decide (s = "") then (0%Z, false)
  else
    let neg := HasPrefix s "-" in
    let s := if neg then TrimPrefix s "-" else s in
    match parseInt64_loop 0 (bytes_of s) with
    | (n, true) => (if neg then wrap64 (- n) else n, true)
    | (_, false) => (0%Z, false)
    end.

(** Priority: env CHAT_ID; otherwise read persisted kv chat_id. *)
Definition targetChatID : M (Z * bool) :=
  v <- Getenv "CHAT_ID" ;;
  match parseInt64 (TrimSpace v) with
  | (chatID, true) => ret (chatID, true)
  | (_, false) =>
      r <- GetKV "chat_id" ;;
      match r with
      | (v, true) => ret (parseInt64 (TrimSpace v))
      | (_, false) => ret (0%Z, false)
      end
  end.

Definition sendMorningDigest (s : Scheduler) (now : Civil) : M unit :=
  r <- targetChatID ;;
  match r with
  | (_, false) => Printf "scheduler: CHAT_ID not set; skipping morning digest"
  | (chatID, true) =>
      let text := match calendar s now with
                  | Ok text => text
                  | Err e => "Ошибка чтения календаря: " +:+ e
                  end in
      Send (PlainMessage chatID ("РАСПИСАНИЕ НА СЕГОДНЯ:" +:+ nl +:+ text))
  end.

Definition sendReminders (now : Civil) : M unit :=
  r <- targetChatID ;;
  match r with
  | (_, false) =>
      Printf "scheduler: CHAT_ID not set and kv.chat_id missing; skipping reminders"
  | (chatID, true) =>
      l <- ListActive chatID TopicReminders ;;
      match l with
      | Err e => Printf ("scheduler: list reminders error: " +:+ e)
      | Ok [] => ret tt
      | Ok its => forM_ its (λ it, Send (reminderMessage chatID it))
      end
  end.

Definition wipeReminders (now : Civil) : M unit :=
  r <- targetChatID ;;
  match r with
  | (_, false) => Printf "scheduler: CHAT_ID not set; skipping wipe"
  | (chatID, true) =>
      d <- DeleteAllReminders chatID ;;
      match d with
      | Err e => Printf ("scheduler: wipe reminders error: " +:+ e)
      | Ok _ => Send (PlainMessage chatID "НАПОМИНАНИЯ ОЧИЩЕНЫ (ночной вайп).")
      end
  end.

(** *** The loop. Its local map [lastFired] (key=kind:time -> date) and the
    shared world; [trace] records, in program order, each store into
    [lastFired] and each call of a trigger action. *)

Inductive Kind : Type := Morning | Reminders | Wipe.

Global Instance Kind_eq_dec : EqDecision Kind.
Proof. solve_decision. Defined.

Definition kind_prefix (k : Kind) : string :=
  match k with
  | Morning => "morning:"
  | Reminders => "reminders:"
  | Wipe => "wipe:"
  end.

Definition trigger_key (k : Kind) (hhmm : string) : string := kind_prefix k +:+ hhmm.

Inductive Event : Type :=
  | Committed (key date : string)
  | Invoked (k : Kind) (hhmm : string).

Global Instance Event_eq_dec : EqDecision Event.
Proof. solve_decision. Defined.

Record Loop := {
  lastFired : gmap string string;
  trace : list Event;
  world : World }.

(** [lastFired[key] != today], a missing key reading as the empty string. *)
Definition not_fired (l : Loop) (key today : string) : bool :=
  negb (bool_decide (default "" (lastFired l !! key) = today)).

(** [lastFired[key] = today] *)
Definition commit (key today : string) (l : Loop) : Loop :=
  {| lastFired := <[key := today]> (lastFired l);
     trace := trace l ++ [Committed key today];
     world := world l |}.

(** The call of the action of trigger [(k, hhmm)]. *)
Definition invoke (k : Kind) (hhmm : string) (action : M unit) (l : Loop) : Loop :=
  {| lastFired := lastFired l;
     trace := trace l ++ [Invoked k hhmm];
     world := exec action (world l) |}.

Definition action_of (s : Scheduler) (k : Kind) (now : Civil) : M unit :=
  match k with
  | Morning => sendMorningDigest s now
  | Reminders => sendReminders now
  | Wipe => wipeReminders now
  end.

(** One [if hhmm == t && lastFired[kind:t] != today { ... }]. Where the
    source builds the key from [hhmm], it does so after [hhmm == t]. *)
Definition check (s : Scheduler) (k : Kind) (t : string) (now : Civil) (l : Loop) : Loop :=
  let hhmm := Format_hhmm now in
  let today := Format_date now in
  if bool_decide (hhmm = t) && not_fired l (trigger_key k t) today
  then invoke k t (action_of s k now) (commit (trigger_key k t) today l)
  else l.

(** The body of [case <-ticker.C]. *)
Definition tick (s : Scheduler) (now : Civil) (l : Loop) : Loop :=
  (* Morning digest (calendar) *)
  let l := check s Morning (morningTime s) now l in
  (* Reminders digest at fixed times *)
  let l := foldl (λ l t, check s Reminders t now l) l (reminderTimes s) in
  (* Night wipe *)
  check s Wipe (wipeTime s) now l.

(** A run of the loop until [ctx.Done()]: the ticks it served, and between
    them whatever the dispatch goroutine did to the shared world. *)
Inductive Step : Type :=
  | Poll (now : Civil)
  | Elsewhere (f : World → World).

Definition step (s : Scheduler) (l : Loop) (e : Step) : Loop :=
  match e with
  | Poll now => tick s now l
  | Elsewhere f => {| lastFired := lastFired l; trace := trace l; world := f (world l) |}
  end.

Definition loop (s : Scheduler) (steps : list Step) (l : Loop) : Loop :=
  foldl (step s) l steps.

Definition start (w : World) : Loop := {| lastFired := ∅; trace := []; world := w |}.

(** Number of calls of the action of trigger [(k, t)] in a trace. *)
Definition calls (k : Kind) (t : string) (tr : list Event) : nat :=
  length (filter (λ e, e = Invoked k t) tr).

(** The triggers a scheduler is configured with. *)
Definition is_trigger (s : Scheduler) (k : Kind) (t : string) : Prop :=
  match k with
  | Morning => t = morningTime s
  | Reminders => t ∈ reminderTimes s
  | Wipe => t = wipeTime s
  end.

Global Instance is_trigger_dec s k t : Decision (is_trigger s k t).
Proof. destruct k; simpl; apply _. Defined.

Definition on_date (d : N * N * N) (e : Step) : Prop :=
  match e with
  | Poll now => civil_date now = d
  | Elsewhere _ => True
  end.

(** The actions that a stretch of the trace stands for, run in its order
    at the poll that appended it. *)
Definition replay (s : Scheduler) (now : Civil) (evs : list Event) : M unit :=
  forM_ evs (λ e, match e with
                  | Invoked k _ => action_of s k now
                  | Committed _ _ => ret tt
                  end).

(** ** main.go: [App.run] *)

Section Run.

Context {UC : UnicodeCase}.

(** [tgbotapi.Update], with the two fields [run] looks at. *)
Record Update := {
  upd_message : option Message;
  upd_callback_query : option CallbackQuery }.

(** The body of [case upd := <-updates]; [now] is the reading of the clock
    while the update is handled. *)
Definition handleUpdate (now : Z) (upd : Update) : M unit :=
  (match upd_message upd with
   | Some m => handleMessage now m
   | None => ret tt
   end) ;;;
  match upd_callback_query upd with
  | Some cq => handleCallback cq
  | None => ret tt
  end.

(** The dispatch goroutine serving one update between two ticks of the
    scheduler. *)
Definition served (now : Z) (upd : Update) : Step :=
  Elsewhere (exec (handleUpdate now upd)).

(** The steps of a run of the two goroutines of [main]: ticks of the
    scheduler and updates served by [run], in any order. *)
Inductive interleaved : Step → Prop :=
  | interleaved_poll now : interleaved (Poll now)
  | interleaved_update now upd : interleaved (served now upd).

End Run.

(** ** bot.go: the single-file bot

    The earlier bot keeps its sessions in the package variable [states],
    marks handled items as deleted instead of removing them, and broadcasts
    to every chat it knows. Functions are state passing over [World]; [now]
    and [now'] are the readings of [time.Now()] in program order. *)

Module Legacy.

Local Open Scope Z_scope.

Definition TTLMinutes : Z := 10.

(** An item as table items stores it; [status] is 0 (active) or 1
    (deleted), [created_at] is in Unix seconds. *)
Record Row := {
  id : Z; chat_id : Z; topic : string; text : string; created_at : Z; status : Z }.

Record Item := {
  ID : Z; ChatID : Z; ItemTopic : string; Text : string; CreatedAt : Z; Status : Z }.

Inductive Outbound : Type :=
  | Reply (chat : Z) (text : string)
      (* [tgbotapi.NewMessage] with [defaultKeyboard()] *)
  | Plain (chat : Z) (text : string)
  | RemindersMessage (chat : Z) (text : string) (buttons : list (string * string))
      (* one row of inline buttons, each a label and its callback data *)
  | CallbackAck (query : string).

(** The package variable [states], the database, the oracle of failing
    statements, and what has been sent and logged. *)
Record World := {
  states : gmap Z ChatState;
  table : list Row;
  sqlite_sequence : Z;
  faults : list (option string);
  sent : list Outbound;
  logged : list string }.

Definition with_states (m : gmap Z ChatState) (w : World) : World :=
  {| states := m; table := table w; sqlite_sequence := sqlite_sequence w;
     faults := faults w; sent := sent w; logged := logged w |}.
Definition with_table (t : list Row) (n : Z) (w : World) : World :=
  {| states := states w; table := t; sqlite_sequence := n;
     faults := faults w; sent := sent w; logged := logged w |}.
Definition with_faults (f : list (option string)) (w : World) : World :=
  {| states := states w; table := table w; sqlite_sequence := sqlite_sequence w;
     faults := f; sent := sent w; logged := logged w |}.

Definition Send (o : Outbound) (w : World) : World :=
  {| states := states w; table := table w; sqlite_sequence := sqlite_sequence w;
     faults := faults w; sent := sent w ++ [o]; logged := logged w |}.
Definition Printf (line : string) (w : World) : World :=
  {| states := states w; table := table w; sqlite_sequence := sqlite_sequence w;
     faults := faults w; sent := sent w; logged := logged w ++ [line] |}.

(** One SQL statement reaches the database. *)
Definition statement (w : World) : option string * World :=
  match faults w with
  | [] => (None, w)
  | f :: fs => (f, with_faults fs w)
  end.

(** The zero [time.Time] (January 1, year 1, 00:00 UTC), as an instant in
    nanoseconds from the Unix epoch. *)
Definition zeroTime : Z := (- 62135596800 * 1000000000)%Z.

(** [getState]: the state of the chat, created with the default topic and
    the zero time when there is none. *)
Definition getState (chatID : Z) (w : World) : ChatState * World :=
  match states w !! chatID with
  | Some s => (s, w)
  | None =>
      let s := {| Topic := TopicBasket; LastActivity := zeroTime |} in
      (s, with_states (<[chatID := s]> (states w)) w)
  end.

(** [resetTopicIfExpired], on the state that [states] holds for the chat. *)
Definition resetTopicIfExpired (s : ChatState) (now : Z) : ChatState :=
  {| Topic := if (TTLMinutes * Minute <? Sub now (LastActivity s))%Z
              then TopicBasket else Topic s;
     LastActivity := now |}.

Definition store_state (chatID : Z) (s : ChatState) (w : World) : World :=
  with_states (<[chatID := s]> (states w)) w.

Definition humanTopic (tp : string) : string :=
  if bool_decide (tp = TopicTasks) then "задачи"
  else if bool_decide (tp = TopicReminders) then "напоминания"
  else if bool_decide (tp = TopicShopping) then "покупки"
  else if bool_decide (tp = TopicBasket) then "корзину"
  else tp.

(** [insertItem]; [at] is stored as [at.Unix()]. *)
Definition insertItem (chatID : Z) (tp txt : string) (at_ : Z) (w : World)
    : option string * World :=
  if bool_decide (tp = "") then (Some "topic is empty", w)
  else
    match statement w with
    | (Some e, w) => (Some e, w)
    | (None, w) =>
        if (maxInt64 <=? sqlite_sequence w)%Z then (Some "database or disk is full", w)
        else
          let r := {| id := (sqlite_sequence w + 1)%Z; chat_id := chatID; topic := tp;
                      text := txt; created_at := (at_ `div` 1000000000)%Z; status := 0 |} in
          (None, with_table (table w ++ [r]) (id r) w)
    end.

(** [ORDER BY id] *)
Fixpoint insert_by_id (r : Row) (l : list Row) : list Row :=
  match l with
  | [] => [r]
  | r' :: l' => if (id r <=? id r')%Z then r :: l else r' :: insert_by_id r l'
  end.

Definition order_by_id (l : list Row) : list Row := foldr insert_by_id [] l.

(** The WHERE clause [chat_id = ? AND topic = ? AND status = 0]. *)
Definition active (chatID : Z) (tp : string) (r : Row) : bool :=
  bool_decide (chat_id r = chatID) && bool_decide (topic r = tp) && bool_decide (status r = 0).

(** [loadActiveItems]: chat and topic of an item are the arguments, its
    time is [time.Unix(ts, 0)]. *)
Definition loadActiveItems (chatID : Z) (tp : string) (w : World)
    : result (list Item) * World :=
  match statement w with
  | (Some e, w) => (Err e, w)
  | (None, w) =>
      (Ok ((λ r, {| ID := id r; ChatID := chatID; ItemTopic := tp; Text := text r;
                    CreatedAt := (created_at r * 1000000000)%Z; Status := 0 |})
           <$> order_by_id (filter (λ r, active chatID tp r) (table w))), w)
  end.

(** [UPDATE items SET status = 1 WHERE chat_id = ? AND id = ?] *)
Definition mark_deleted (chatID i : Z) (r : Row) : Row :=
  if bool_decide (chat_id r = chatID) && bool_decide (id r = i)
  then {| id := id r; chat_id := chat_id r; topic := topic r; text := text r;
          created_at := created_at r; status := 1 |}
  else r.

Definition deleteItem (chatID i : Z) (w : World) : option string * World :=
  match statement w with
  | (Some e, w) => (Some e, w)
  | (None, w) => (None, with_table (mark_deleted chatID i <$> table w) (sqlite_sequence w) w)
  end.

(** [strings.SplitN(s, ":", 2)] when it has two parts: what is before and
    what is after the first colon. *)
Fixpoint cut_colon (s : string) : option (string * string) :=
  match s with
  | EmptyString => None
  | String c r =>
      if bool_decide (c = ":"%char) then Some (EmptyString, r)
      else match cut_colon r with
           | Some (a, b) => Some (String c a, b)
           | None => None
           end
  end.

Definition handleCallback (cq : CallbackQuery) (w : World) : World :=
  (* Acknowledge the callback to remove the loading animation. *)
  let w := Send (CallbackAck (cq_id cq)) w in
  match cut_colon (cq_data cq) with
  | None => w
  | Some (p0, p1) =>
      if negb (bool_decide (p0 = "done")) then w
      else
        match ParseInt p1 with
        | None => w
        | Some i =>
            match deleteItem (cq_chat cq) i w with
            | (Some e, w) =>
                Printf ("failed to delete reminder item " +:+ FormatInt i +:+ ": " +:+ e) w
            | (None, w) => w
            end
        end
  end.

(** The body and the buttons of the reminders message; [i] counts the
    items written so far. *)
Fixpoint reminder_lines (i : Z) (its : list Item) : string :=
  match its with
  | [] => ""
  | it :: r => FormatInt (i + 1)%Z +:+ ") " +:+ Text it +:+ nl +:+ reminder_lines (i + 1)%Z r
  end.

Fixpoint reminder_buttons (i : Z) (its : list Item) : list (string * string) :=
  match its with
  | [] => []
  | it :: r => ("✅ " +:+ FormatInt (i + 1)%Z, "done:" +:+ FormatInt (ID it))
               :: reminder_buttons (i + 1)%Z r
  end.

Definition sendReminders (chatID : Z) (w : World) : World :=
  match loadActiveItems chatID TopicReminders w with
  | (Err e, w) => Printf ("failed to load reminders: " +:+ e) w
  | (Ok [], w) => w
  | (Ok its, w) =>
      Send (RemindersMessage chatID ("Напоминания:" +:+ nl +:+ reminder_lines 0 its)
              (reminder_buttons 0 its)) w
  end.

(** [DELETE FROM items WHERE topic = ?] with [TopicReminders] *)
Definition cleanupReminders (w : World) : World :=
  match statement w with
  | (Some e, w) => Printf ("failed to delete reminders: " +:+ e) w
  | (None, w) =>
      with_table (filter (λ r, topic r ≠ TopicReminders) (table w)) (sqlite_sequence w) w
  end.

Definition sendCalendarDigest (chatID : Z) (w : World) : World :=
  Send (Plain chatID "Ваше расписание на сегодня из Google Calendar (placeholder)") w.

(** The labels of [defaultKeyboard()]. *)
Definition defaultKeyboard : list (list string) :=
  [["Tasks"; "Reminders"; "Shopping"; "Basket"; "Menu"]].

Section Handlers.

Context {UC : UnicodeCase}.

Definition handleStart (now' : Z) (chatID : Z) (w : World) : World :=
  let '(_, w) := getState chatID w in
  let w := store_state chatID {| Topic := TopicBasket; LastActivity := now' |} w in
  Send (Reply chatID ("Привет! Это GTD бот. Вы можете добавлять задачи, напоминания и покупки. "
                      +:+ "Используйте кнопки для выбора раздела.")) w.

Definition handleMenu (now' : Z) (chatID : Z) (w : World) : World :=
  let '(_, w) := getState chatID w in
  let w := store_state chatID {| Topic := TopicBasket; LastActivity := now' |} w in
  Send (Reply chatID "Главное меню") w.

(** The topic and the reply of a reply keyboard label. *)
Definition label (l : string) : option (string * string) :=
  if bool_decide (l = "tasks") then Some (TopicTasks, "Текущий раздел: задачи")
  else if bool_decide (l = "reminders") || bool_decide (l = "напоминания")
  then Some (TopicReminders, "Текущий раздел: напоминания")
  else if bool_decide (l = "shopping") || bool_decide (l = "покупки")
  then Some (TopicShopping, "Текущий раздел: покупки")
  else if bool_decide (l = "basket") || bool_decide (l = "корзина")
  then Some (TopicBasket, "Текущий раздел: корзина")
  else if bool_decide (l = "menu") || bool_decide (l = "меню")
  then Some (TopicBasket, "Главное меню")
  else None.

Definition handleMessage (now now' : Z) (msg : Message) (w : World) : World :=
  let chatID := msg_chat msg in
  let '(s, w) := getState chatID w in
  (* Reset topic on inactivity. *)
  let s := resetTopicIfExpired s now in
  let w := store_state chatID s w in
  match msg_command msg with
  | Some c =>
      if bool_decide (c = "start") then handleStart now' chatID w
      else if bool_decide (c = "menu") then handleMenu now' chatID w
      else w  (* Unknown commands are ignored gracefully. *)
  | None =>
      match label (ToLower (msg_text msg)) with
      | Some (tp, reply) =>
          let w := store_state chatID {| Topic := tp; LastActivity := now |} w in
          Send (Reply chatID reply) w
      | None =>
          if bool_decide (TrimSpace (msg_text msg) = "") then w
          else
            match insertItem chatID (Topic s) (msg_text msg) now w with
            | (Some e, w) => Printf ("failed to store item: " +:+ e) w
            | (None, w) => Send (Reply chatID ("Добавил сообщение в " +:+ humanTopic (Topic s))) w
            end
      end
  end.

End Handlers.

End Legacy.

(** ** Vocabulary of the properties *)

(** [keeps f c]: running [c] leaves the component [f] of the world as it
    was. [preserves P c]: running [c] maintains the invariant [P]. *)
Definition keeps {A X} (f : World → X) (c : M A) : Prop :=
  ∀ w, f (c w).2 = f w.

Definition preserves {A} (P : World → Prop) (c : M A) : Prop :=
  ∀ w, P w → P (c w).2.

(** The four topics, and the invariant of the session table. *)
Definition valid_topic (t : string) : Prop :=
  t = TopicBasket ∨ t = TopicTasks ∨ t = TopicReminders ∨ t = TopicShopping.

Definition sessions_ok (w : World) : Prop :=
  map_Forall (λ _ st, valid_topic (Topic st)) (ChatStates w).

(** Table [items] as SQLite keeps it: ids handed out in increasing order,
    none above the AUTOINCREMENT counter. *)
Definition db_wf (d : DB) : Prop :=
  StronglySorted (λ r1 r2, row_id r1 < row_id r2)%Z (items d) ∧
  Forall (λ r, row_id r ≤ sqlite_sequence d)%Z (items d).

Definition store_wf (w : World) : Prop := db_wf (Store w).

(** A world to run the model on: TTL of ten minutes, nothing stored, no
    environment variable set, no failing statement. *)
Definition blank : World :=
  {| TTL := 10 * Minute; ChatStates := ∅; Store := emptyDB; faults := [];
     clock := λ _, 0%Z; env := ∅; sent := []; logged := [] |}.

(** The date a trigger was last fired on, as the loop records it. *)
Definition recorded (l : Loop) (k : Kind) (t : string) : string :=
  default "" (lastFired l !! trigger_key k t).

(** [fires_when b k t now l]: a pass over the triggers that looks at
    trigger [(k, t)] exactly when [b] holds calls its action at [now]. *)
Definition fires_when (b : bool) (k : Kind) (t : string) (now : Civil) (l : Loop) : bool :=
  b && bool_decide (Format_hhmm now = t)
    && negb (bool_decide (recorded l k t = Format_date now)).

Definition acts (k : Kind) (t : string) (now : Civil) (b : bool) (F : Loop → Loop) : Prop :=
  ∀ l,
    calls k t (trace (F l)) = calls k t (trace l) + (if fires_when b k t now l then 1 else 0) ∧
    recorded (F l) k t = (if fires_when b k t now l then Format_date now else recorded l k t).

(** A step that cannot store the date of [now] for a trigger at time [t]:
    a poll on another calendar date, or a poll whose wall clock does not
    read [t], or a step of the other goroutine. *)
Definition leaves_open (t : string) (now : Civil) (e : Step) : Prop :=
  match e with
  | Poll p => (civil_ok p ∧ civil_date p ≠ civil_date now) ∨ Format_hhmm p ≠ t
  | Elsewhere _ => True
  end.

(** [grows s now l l']: the trace of [l'] is that of [l] and a stretch
    whose actions, run at [now], take the world of [l] to that of [l']. *)
Definition grows (s : Scheduler) (now : Civil) (l l' : Loop) : Prop :=
  ∃ evs, trace l' = trace l ++ evs ∧ world l' = exec (replay s now evs) (world l).

(** Traces in which every call of an action comes right after the store of
    its trigger's date. *)
Inductive paired : list Event → Prop :=
  | paired_nil : paired []
  | paired_snoc tr k t d :
      paired tr → paired (tr ++ [Committed (trigger_key k t) d; Invoked k t]).

(** Two morning polls fifteen seconds apart, and the same on the next day. *)
Definition mar9_0800 : Civil :=
  {| year := 2025; month := 3; day := 9; hour := 8; minute := 0; second := 0 |}.
Definition mar9_0800' : Civil :=
  {| year := 2025; month := 3; day := 9; hour := 8; minute := 0; second := 15 |}.
Definition mar10_0800 : Civil :=
  {| year := 2025; month := 3; day := 10; hour := 8; minute := 0; second := 0 |}.
Definition mar10_0800' : Civil :=
  {| year := 2025; month := 3; day := 10; hour := 8; minute := 0; second := 15 |}.

(** The scheduler that [NewScheduler] builds when MORNING_TIME is not set
    and no calendar is configured. *)
Definition defaultScheduler : Scheduler :=
  eval (NewScheduler (googleCalendarClient false "")) blank.

Definition mar9_0300 : Civil :=
  {| year := 2025; month := 3; day := 9; hour := 3; minute := 0; second := 0 |}.
Definition mar10_0300 : Civil :=
  {| year := 2025; month := 3; day := 10; hour := 3; minute := 0; second := 0 |}.

Definition reminder_row (id chat : Z) (text : string) : Row :=
  {| row_id := id; row_chat_id := chat; row_topic := TopicReminders; row_text := text;
     row_status := StatusActive; row_created_at := 0 |}.

(** Chat 7 is the persisted target chat and has three reminders and a task;
    chat 8 has a reminder of its own. *)
Definition busy : World :=
  {| TTL := 10 * Minute; ChatStates := ∅;
     Store := {| items := [reminder_row 1 7 "water the plants";
                           {| row_id := 2; row_chat_id := 7; row_topic := TopicTasks;
                              row_text := "file taxes"; row_status := StatusActive;
                              row_created_at := 0 |};
                           reminder_row 3 8 "call the bank";
                           reminder_row 4 7 "buy milk";
                           reminder_row 5 7 "stretch"];
                sqlite_sequence := 5;
                kv := {["chat_id" := "7"]} |};
     faults := []; clock := λ _, 0%Z; env := ∅; sent := []; logged := [] |}.

(** What [ensureChatID] leaves in the store when its statement succeeds. *)
Definition persist_chat (chat : Z) (e : gmap string string) (d : DB) : DB :=
  if bool_decide (TrimSpace (default "" (e !! "CHAT_ID")) = "")
  then set_kv "chat_id" (FormatInt chat) d
  else d.

Definition new_row (now chat : Z) (topic text : string) (d : DB) : Row :=
  {| row_id := sqlite_sequence d + 1; row_chat_id := chat; row_topic := topic;
     row_text := text; row_status := StatusActive;
     row_created_at := FormatRFC3339 now |}.

(** Everything a callback for an unknown item has to leave alone: the
    rows, the id counter, table [kv] apart from key chat_id, and the log. *)
Definition apart_from_chat_id (w : World) :=
  (items (Store w), sqlite_sequence (Store w), delete "chat_id" (kv (Store w)), logged w).

(** The row that [DeleteItem chat id] would delete. *)
Definition resolves (chat id : Z) (r : Row) : Prop := row_chat_id r = chat ∧ row_id r = id.

(** The store after [handleCallback] when no statement fails. *)
Definition callback_store (cq : CallbackQuery) (e : gmap string string) (d : DB) : DB :=
  let d1 := persist_chat (cq_chat cq) e d in
  let data := TrimSpace (cq_data cq) in
  if HasPrefix data "done:" then
    match ParseInt (TrimPrefix data "done:") with
    | Some id => delete_where (λ r, bool_decide (row_chat_id r = cq_chat cq)
                                    && bool_decide (row_id r = id)) d1
    | None => d1
    end
  else d1.

(** Printable ASCII other than the space, and the decimal digits. *)
Definition plain (b : N) : Prop := (0x21 ≤ b < 0x80)%N.

Definition isDigit (b : N) : Prop := (0x30 ≤ b ≤ 0x39)%N.

(** The chat id [v] is what table [kv] holds for the scheduler, no
    statement is going to fail, and the environment is [e]. *)
Definition target_persisted (v : string) (e : gmap string string) (w : World) : Prop :=
  kv (Store w) !! "chat_id" = Some v ∧ faults w = [] ∧ env w = e.

(** The AUTOINCREMENT counter has reached [n]. *)
Definition counter_at_least (n : Z) (w : World) : Prop := (n ≤ sqlite_sequence (Store w))%Z.

(** Table [items] and its counter. *)
Definition rows (w : World) : list Row * Z := (items (Store w), sqlite_sequence (Store w)).

(** A message that is a plain text, not a command. *)
Definition text_message (chat : Z) (text : string) : Message :=
  {| msg_chat := chat; msg_text := text; msg_command := None |}.

(** The chat an outbound call is addressed to; the answer to a callback
    query names the query, not a chat. *)
Definition recipient (o : Outbound) : option Z :=
  match o with
  | MenuMessage chat _ | PlainMessage chat _ | ReminderMessage chat _ _
  | EditText chat _ _ | EditMarkup chat _ => Some chat
  | CallbackAnswer _ _ => None
  end.

(** [emits P c]: what [c] hands to the Telegram API comes after what was
    sent before and satisfies [P]. [answers c]: [c] sends at least one
    thing. *)
Definition emits {A} (P : Outbound → Prop) (c : M A) : Prop :=
  ∀ w, ∃ out, sent (c w).2 = sent w ++ out ∧ Forall P out.

Definition answers {A} (c : M A) : Prop :=
  ∀ w, ∃ o out, sent (c w).2 = sent w ++ o :: out.

(** A text message that is not empty, is no topic label and trims to
    nothing. *)
Definition blank_text `{UnicodeCase} (m : Message) : Prop :=
  msg_command m = None ∧ msg_text m ≠ "" ∧
  (isTopicButtonText (msg_text m)).2 = false ∧ TrimSpace (msg_text m) = "".

(** The environment is [e] and table kv is [k]. *)
Definition chat_configured (e : gmap string string) (k : gmap string string) (w : World) : Prop :=
  env w = e ∧ kv (Store w) = k.

Definition mar9_0930 : Civil :=
  {| year := 2025; month := 3; day := 9; hour := 9; minute := 30; second := 0 |}.

(** The world [busy] of a process started with CHAT_ID=42. *)
Definition configured : World :=
  {| TTL := TTL busy; ChatStates := ∅; Store := Store busy; faults := [];
     clock := λ _, 0%Z;
     env := {["CHAT_ID" := " 42 "]}; sent := []; logged := [] |}.

(** The test of one trigger in the loop: the clock reads its time and its
    record does not hold today's date. *)
Definition due (l : Loop) (k : Kind) (t : string) (now : Civil) : bool :=
  bool_decide (Format_hhmm now = t) && not_fired l (trigger_key k t) (Format_date now).

Definition run_if (b : bool) (c : M unit) : M unit := if b then c else ret tt.

(** A scheduler whose MORNING_TIME lacks the leading zero. *)
Definition earlyScheduler : Scheduler :=
  eval (NewScheduler (googleCalendarClient false ""))
    {| TTL := 0; ChatStates := ∅; Store := emptyDB; faults := [];
       clock := λ _, 0%Z;
       env := {["MORNING_TIME" := "8:00"]}; sent := []; logged := [] |}.

(** The item that [loadActiveItems chat tp] makes of a row. *)
Definition legacy_item (chat : Z) (tp : string) (r : Legacy.Row) : Legacy.Item :=
  {| Legacy.ID := Legacy.id r; Legacy.ChatID := chat; Legacy.ItemTopic := tp;
     Legacy.Text := Legacy.text r; Legacy.CreatedAt := Legacy.created_at r * 1000000000;
     Legacy.Status := 0 |}.

(** What [loadActiveItems chat tp] answers when its query succeeds. *)
Definition legacy_active (chat : Z) (tp : string) (t : list Legacy.Row) : list Legacy.Item :=
  legacy_item chat tp <$> Legacy.order_by_id (filter (λ r, Legacy.active chat tp r) t).

(** A world of the single-file bot: chat 7 has two active reminders and one
    already marked deleted, chat 8 has one reminder and one task. *)
Definition legacy_row (i chat : Z) (tp txt : string) (st : Z) : Legacy.Row :=
  {| Legacy.id := i; Legacy.chat_id := chat; Legacy.topic := tp; Legacy.text := txt;
     Legacy.created_at := 0; Legacy.status := st |}.

Definition legacy_busy : Legacy.World :=
  {| Legacy.states := ∅;
     Legacy.table := [legacy_row 1 7 TopicReminders "water the plants" 0;
                      legacy_row 2 7 TopicReminders "old" 1;
                      legacy_row 3 8 TopicReminders "call the bank" 0;
                      legacy_row 4 7 TopicReminders "buy milk" 0;
                      legacy_row 5 8 TopicTasks "file taxes" 0];
     Legacy.sqlite_sequence := 5;
     Legacy.faults := []; Legacy.sent := []; Legacy.logged := [] |}.

(** The invariant of the single-file bot: every session and every stored
    row has one of the four topics. *)
Definition legacy_ok (w : Legacy.World) : Prop :=
  map_Forall (λ _ st, valid_topic (Topic st)) (Legacy.states w) ∧
  Forall (λ r, valid_topic (Legacy.topic r)) (Legacy.table w).

(** * Properties *)

(** ** Reasoning about computations in [M] *)

Create HintDb go discriminated.

Section Rules.

Context {X : Type} (f : World → X) (P : World → Prop).

Lemma keeps_ret {A} (a : A) : keeps f (ret a).
Proof. by intros w. Qed.

Lemma keeps_bind {A B} (c : M A) (k : A → M B) :
  keeps f c → (∀ a, keeps f (k a)) → keeps f (bind c k).
Proof.
  intros Hc Hk w. unfold bind. specialize (Hc w).
  destruct (c w) as [a w']. rewrite Hk. exact Hc.
Qed.

Lemma keeps_get : keeps f get.
Proof. by intros w. Qed.

Lemma keeps_modify (g : World → World) :
  (∀ w, f (g w) = f w) → keeps f (modify g).
Proof. intros Hg w. apply Hg. Qed.

Lemma preserves_ret {A} (a : A) : preserves P (ret a).
Proof. by intros w. Qed.

Lemma preserves_bind {A B} (c : M A) (k : A → M B) :
  preserves P c → (∀ a, preserves P (k a)) → preserves P (bind c k).
Proof.
  intros Hc Hk w Hw. unfold bind. specialize (Hc w Hw).
  destruct (c w) as [a w']. by apply Hk.
Qed.

Lemma keeps_forM_ {A} (l : list A) (g : A → M unit) :
  (∀ a, keeps f (g a)) → keeps f (forM_ l g).
Proof.
  intros Hg. induction l as [|a l IH]; simpl.
  - apply keeps_ret.
  - apply keeps_bind; [apply Hg | intros _; exact IH].
Qed.

End Rules.

(** Case analysis on the scrutinee of the computation in the goal. *)
Ltac split_match :=
  match goal with
  | |- context [match ?x with _ => _ end] => destruct x eqn:?
  end.

(** *** What each primitive touches *)

Lemma keeps_statement {X} (f : World → X) :
  (∀ fs w, f (with_faults fs w) = f w) → keeps f statement.
Proof. intros Hf w. unfold statement. destruct (faults w); simpl; auto. Qed.

Lemma keeps_Send {X} (f : World → X) o :
  (∀ s w, f (with_sent s w) = f w) → keeps f (Send o).
Proof. intros Hf w. apply Hf. Qed.

Lemma keeps_Printf {X} (f : World → X) line :
  (∀ s w, f (with_logged s w) = f w) → keeps f (Printf line).
Proof. intros Hf w. apply Hf. Qed.

Lemma keeps_modifyDB {X} (f : World → X) g :
  (∀ d w, f (with_Store d w) = f w) → keeps f (modifyDB g).
Proof. intros Hf w. apply Hf. Qed.

Lemma keeps_Getenv {X} (f : World → X) key : keeps f (Getenv key).
Proof. by intros w. Qed.

Lemma keeps_Now {X} (f : World → X) :
  (∀ c w, f (with_clock c w) = f w) → keeps f Now.
Proof. intros Hf w. apply Hf. Qed.

(** Walks through a computation to show that it keeps [f]; the primitives
    that write [f] are left as goals. *)
Ltac walk_frame :=
  repeat first
    [ apply keeps_ret
    | apply keeps_get
    | apply keeps_Getenv
    | by apply keeps_statement
    | by apply keeps_Now
    | by apply keeps_Send
    | by apply keeps_Printf
    | by apply keeps_modifyDB
    | by apply keeps_modify
    | apply keeps_forM_; intros ?
    | apply keeps_bind; [| intros ?]
    | progress cbv zeta
    | split_match ].

(** ** The topic invariant of the session registry *)

Lemma sessions_keeps {A} (c : M A) : keeps ChatStates c → preserves sessions_ok c.
Proof. intros Hc w Hw. unfold sessions_ok. by rewrite Hc. Qed.

(** The session table is written by the registry alone: everything else
    is walked through, the registry operations are hints. *)
Ltac walk_sessions :=
  repeat first
    [ apply preserves_ret
    | solve [eauto 3 with go]
    | solve [apply sessions_keeps; walk_frame]
    | apply preserves_bind; [| intros ?]
    | progress cbv zeta
    | split_match ].

Lemma valid_basket : valid_topic TopicBasket.
Proof. by left. Qed.

Lemma sessions_insert w chat st :
  sessions_ok w → valid_topic (Topic st) →
  sessions_ok (with_ChatStates (<[chat := st]> (ChatStates w)) w).
Proof. intros Hw Hst. by apply map_Forall_insert_2. Qed.

Section TopicInvariant.

Context {UC : UnicodeCase}.

Lemma isTopicButtonText_valid t topic :
  isTopicButtonText t = (topic, true) → valid_topic topic.
Proof.
  unfold isTopicButtonText, valid_topic. intros Ht.
  repeat case_bool_decide; simplify_eq; auto.
Qed.

Lemma sessions_getState now chat : preserves sessions_ok (getState now chat).
Proof.
  intros w Hw. unfold getState, bind, get. simpl.
  destruct (ChatStates w !! chat) eqn:E; simpl; [done|].
  apply sessions_insert; [done | apply valid_basket].
Qed.

Lemma sessions_touchState now chat : preserves sessions_ok (touchState now chat).
Proof.
  intros w Hw. unfold touchState, bind, get. simpl.
  destruct (ChatStates w !! chat) as [st|] eqn:E; simpl.
  - apply sessions_insert; [done|]. simpl.
    destruct (TTL w <? Sub now (LastActivity st))%Z; simpl; [apply valid_basket|].
    exact (Hw chat st E).
  - apply sessions_insert; [done | apply valid_basket].
Qed.

Lemma sessions_setTopic now chat topic :
  valid_topic topic → preserves sessions_ok (setTopic now chat topic).
Proof. intros Ht w Hw. by apply sessions_insert. Qed.

Lemma sessions_resetToMenu now chat : preserves sessions_ok (resetToMenu now chat).
Proof. intros w Hw. apply sessions_insert; [done | apply valid_basket]. Qed.

Local Hint Resolve sessions_getState sessions_touchState sessions_setTopic
  sessions_resetToMenu : go.

Lemma sessions_handleCommand now chat c :
  preserves sessions_ok (handleCommand now chat c).
Proof. unfold handleCommand, sendRemindersOneByOne, send. walk_sessions. Qed.

Lemma sessions_handleButton now chat text topic :
  valid_topic topic → preserves sessions_ok (handleButton now chat text topic).
Proof. intros Ht. unfold handleButton, sendRemindersOneByOne, send. walk_sessions. Qed.

Lemma sessions_captureText now chat text :
  preserves sessions_ok (captureText now chat text).
Proof. unfold captureText, send. walk_sessions. Qed.

Lemma sessions_handleMessage now m : preserves sessions_ok (handleMessage now m).
Proof.
  unfold handleMessage.
  apply preserves_bind; [apply sessions_keeps; unfold ensureChatID; walk_frame | intros _].
  destruct (msg_command m); [apply sessions_handleCommand|].
  case_bool_decide; [apply sessions_keeps; unfold send; walk_frame|].
  destruct (isTopicButtonText (msg_text m)) as [topic []] eqn:E.
  - apply sessions_handleButton. by eapply isTopicButtonText_valid.
  - apply sessions_captureText.
Qed.

Lemma sessions_handleCallback cq : preserves sessions_ok (handleCallback cq).
Proof. unfold handleCallback, ensureChatID. walk_sessions. Qed.

(** C10. Every operation of the session registry, as the dispatch path
    invokes it, keeps each session's topic among basket, tasks, reminders
    and shopping: the label recognizer returns only these four, [setTopic]
    is called with its result, and every other write stores the basket. *)
Theorem topic_invariant (w : World) :
  sessions_ok w →
  (∀ t topic, isTopicButtonText t = (topic, true) → valid_topic topic) ∧
  (∀ now chat,
     sessions_ok (exec (getState now chat) w) ∧
     sessions_ok (exec (touchState now chat) w) ∧
     sessions_ok (exec (resetToMenu now chat) w)) ∧
  (∀ now chat t topic,
     isTopicButtonText t = (topic, true) →
     sessions_ok (exec (setTopic now chat topic) w)) ∧
  (∀ now m, sessions_ok (exec (handleMessage now m) w)) ∧
  (∀ cq, sessions_ok (exec (handleCallback cq) w)).
Proof.
  intros Hw. split; [apply isTopicButtonText_valid|].
  split; [intros now chat; repeat split|].
  - by apply sessions_getState.
  - by apply sessions_touchState.
  - by apply sessions_resetToMenu.
  - split; [|split].
    + intros now chat t topic Ht.
      apply sessions_setTopic; [by eapply isTopicButtonText_valid | done].
    + intros now m. by apply sessions_handleMessage.
    + intros cq. by apply sessions_handleCallback.
Qed.

End TopicInvariant.

Lemma sessions_blank : sessions_ok blank.
Proof. apply map_Forall_empty. Qed.

Lemma topic_invariant_witness :
  sessions_ok blank ∧
  sessions_ok (exec (handleMessage (UC := basicCyrillic) 0
                       {| msg_chat := 7; msg_text := "Задачи"; msg_command := None |})
                    blank).
Proof.
  split; [apply sessions_blank|].
  destruct (topic_invariant (UC := basicCyrillic) blank sessions_blank)
    as (_ & _ & _ & Hmsg & _).
  apply Hmsg.
Defined.

(** ** Expiry of the topic (TTL) *)

Section Expiry.

Context {UC : UnicodeCase}.

Lemma touchState_known now chat w st :
  ChatStates w !! chat = Some st →
  touchState now chat w =
    (let st' := {| Topic := if (TTL w <? Sub now (LastActivity st))%Z
                            then TopicBasket else Topic st;
                   LastActivity := now |} in
     (st', with_ChatStates (<[chat := st']> (ChatStates w)) w)).
Proof.
  intros E. unfold touchState, bind, get. simpl. rewrite E. simpl.
  by destruct (TTL w <? Sub now (LastActivity st))%Z.
Qed.

Lemma touchState_new now chat w :
  ChatStates w !! chat = None →
  touchState now chat w =
    (let st' := {| Topic := TopicBasket; LastActivity := now |} in
     (st', with_ChatStates (<[chat := st']> (ChatStates w)) w)).
Proof. intros E. unfold touchState, bind, get. simpl. by rewrite E. Qed.

(** A touch stores what it returns, stamped with the current time. *)
Lemma touchState_stored now chat w :
  ChatStates (touchState now chat w).2 !! chat = Some (touchState now chat w).1 ∧
  LastActivity (touchState now chat w).1 = now ∧
  TTL (touchState now chat w).2 = TTL w.
Proof.
  destruct (ChatStates w !! chat) as [st|] eqn:E.
  - rewrite (touchState_known _ _ _ _ E). simpl. by rewrite lookup_insert_eq.
  - rewrite (touchState_new _ _ _ E). simpl. by rewrite lookup_insert_eq.
Qed.

(** [getState] on a known chat is a pure read: no expiry, no refresh. *)
Lemma getState_known now chat w st :
  ChatStates w !! chat = Some st → getState now chat w = (st, w).
Proof. intros E. unfold getState, bind, get. simpl. by rewrite E. Qed.

(** [/list] leaves the session of a known chat as it finds it, however
    long the chat has been inactive. *)
Lemma list_keeps_session now chat text w st :
  ChatStates w !! chat = Some st →
  ChatStates (exec (handleMessage now {| msg_chat := chat; msg_text := text;
                                         msg_command := Some "list" |}) w) !! chat
  = Some st.
Proof.
  intros E.
  assert (keeps ChatStates (ensureChatID chat)) as H1
    by (unfold ensureChatID; walk_frame).
  unfold exec, handleMessage. simpl. unfold bind at 1.
  specialize (H1 w). destruct (ensureChatID chat w) as [[] w1]. simpl in H1.
  unfold handleCommand. simpl. unfold bind at 1.
  rewrite (getState_known now chat w1 st) by (by rewrite H1).
  set (rest := bind _ _).
  assert (keeps ChatStates rest) as H2
    by (subst rest; unfold sendRemindersOneByOne, send; walk_frame).
  by rewrite H2, H1.
Qed.

(** C3, as the code has it. Of two consecutive touches of a chat at [t1]
    and [t2], the second resolves the topic to the basket when
    [t2 - t1 > TTL] (strictly) and keeps the topic of the first otherwise,
    in particular when exactly TTL has elapsed; the same holds for a touch
    that follows an explicit [setTopic]; and every touch stores the current
    time as [LastActivity]. *)
Theorem touch_expiry (w : World) (chat t1 t2 : Z) (topic : string) :
  (let '(st1, w1) := touchState t1 chat w in
   let '(st2, w2) := touchState t2 chat w1 in
   LastActivity st1 = t1 ∧ LastActivity st2 = t2 ∧
   ChatStates w2 !! chat = Some st2 ∧
   Topic st2 = if (TTL w <? Sub t2 t1)%Z then TopicBasket else Topic st1) ∧
  (let w1 := exec (setTopic t1 chat topic) w in
   let '(st2, w2) := touchState t2 chat w1 in
   LastActivity st2 = t2 ∧
   ChatStates w2 !! chat = Some st2 ∧
   Topic st2 = if (TTL w <? Sub t2 t1)%Z then TopicBasket else topic).
Proof.
  split.
  - pose proof (touchState_stored t1 chat w) as (E1 & L1 & T1).
    destruct (touchState t1 chat w) as [st1 w1]. simpl in *.
    rewrite (touchState_known _ _ _ _ E1). simpl.
    rewrite lookup_insert_eq, L1, T1. done.
  - simpl.
    rewrite (touchState_known t2 chat _ {| Topic := topic; LastActivity := t1 |}).
    + simpl. by rewrite lookup_insert_eq.
    + unfold setTopic, exec, bind, get, modify. simpl. by rewrite lookup_insert_eq.
Qed.

End Expiry.

(** C3, as the claim words it, fails when exactly TTL has elapsed: a chat
    sets the topic to tasks and is touched at time 0, then touched again ten
    minutes (the TTL) later; the topic is still tasks. *)
Lemma touch_at_ttl_counterexample :
  let w1 := exec (setTopic 0 7 TopicTasks) blank in
  let w2 := exec (touchState 0 7) w1 in
  let t2 := (10 * Minute)%Z in
  (TTL w2 ≤ Sub t2 0)%Z ∧
  Topic (eval (touchState t2 7) w2) = TopicTasks ∧
  Topic (eval (touchState t2 7) w2) ≠ TopicBasket.
Proof. vm_compute. repeat split; congruence. Qed.

(** C4 fails on the code: [/list] reads the session through [getState],
    which applies no expiry. Chat 7 picks the tasks topic at time 0; at
    eleven minutes, past the TTL of ten, [/list] still answers with the
    tasks list and leaves [LastActivity] at 0, while a plain text arriving
    at that moment instead is filed under the basket. *)
Theorem list_ignores_expiry :
  let pick := {| msg_chat := 7; msg_text := "задачи"; msg_command := None |} in
  let list := {| msg_chat := 7; msg_text := "/list"; msg_command := Some "list" |} in
  let text := {| msg_chat := 7; msg_text := "milk"; msg_command := None |} in
  let t := (11 * Minute)%Z in
  let w1 := exec (handleMessage (UC := basicCyrillic) 0 pick) blank in
  let w2 := exec (handleMessage (UC := basicCyrillic) t list) w1 in
  ChatStates w1 !! 7%Z = Some {| Topic := TopicTasks; LastActivity := 0 |} ∧
  (TTL w1 < Sub t 0)%Z ∧
  sent w2 = sent w1 ++ [MenuMessage 7 "ЗАДАЧИ: пусто."] ∧
  ChatStates w2 !! 7%Z = Some {| Topic := TopicTasks; LastActivity := 0 |} ∧
  row_topic <$> items (Store (exec (handleMessage (UC := basicCyrillic) t text) w1))
    = [TopicBasket].
Proof. vm_compute. repeat split. Qed.

(** ** The daily trigger scheduler *)

(** *** Formatting of dates and trigger keys *)

Lemma digit_inj a b : digit a = digit b → (a mod 10 = b mod 10)%N.
Proof.
  unfold digit. intros E.
  apply (f_equal N_of_ascii) in E.
  rewrite !N_ascii_embedding in E.
  - lia.
  - pose proof (N.mod_lt b 10). lia.
  - pose proof (N.mod_lt a 10). lia.
Qed.

Local Ltac Zify.zify_post_hook ::= Z.to_euclidean_division_equations.

Lemma pad2_inj a b : (a < 100)%N → (b < 100)%N → pad2 a = pad2 b → a = b.
Proof.
  unfold pad2. intros Ha Hb E. injection E as E1 E2.
  apply digit_inj in E1, E2. lia.
Qed.

Lemma decimal4 a :
  (a < 10000)%N →
  (a = 1000 * ((a / 1000) mod 10) + 100 * ((a / 100) mod 10)
       + 10 * ((a / 10) mod 10) + a mod 10)%N.
Proof.
  intros Ha.
  assert (a / 1000 < 10)%N by (apply N.Div0.div_lt_upper_bound; lia).
  rewrite (N.mod_small (a / 1000)) by done.
  replace (a / 100)%N with ((a / 10) / 10)%N by (rewrite N.Div0.div_div; done).
  replace (a / 1000)%N with (((a / 10) / 10) / 10)%N by (rewrite !N.Div0.div_div; done).
  pose proof (N.div_mod' a 10). pose proof (N.div_mod' (a / 10) 10).
  pose proof (N.div_mod' (a / 10 / 10) 10).
  lia.
Qed.

Lemma pad4_inj a b : (a < 10000)%N → (b < 10000)%N → pad4 a = pad4 b → a = b.
Proof.
  unfold pad4, pad2. intros Ha Hb E. injection E as E1 E2 E3 E4.
  pose proof (digit_inj _ _ E1) as D1. pose proof (digit_inj _ _ E2) as D2.
  pose proof (digit_inj _ _ E3) as D3. pose proof (digit_inj _ _ E4) as D4.
  rewrite (decimal4 a Ha), (decimal4 b Hb). congruence.
Qed.

Lemma Format_date_inj a b :
  civil_ok a → civil_ok b → Format_date a = Format_date b → civil_date a = civil_date b.
Proof.
  unfold civil_ok, Format_date, civil_date. intros Ha Hb.
  destruct (N.ltb_spec (year a) 10000), (N.ltb_spec (year b) 10000); try lia.
  intros E.
  assert (pad4 (year a) = pad4 (year b) ∧ pad2 (month a) = pad2 (month b)
          ∧ pad2 (day a) = pad2 (day b)) as (Ey & Em & Ed).
  { unfold pad4, pad2 in *. cbn [String.append] in E.
    injection E as -> -> -> -> -> -> -> ->. done. }
  apply pad4_inj in Ey; [|lia..]. apply pad2_inj in Em, Ed; [|lia..].
  congruence.
Qed.

Lemma append_empty s1 s2 : s1 +:+ s2 = "" → s2 = "".
Proof. destruct s1; cbn [String.append]; [done | discriminate]. Qed.

Lemma Format_date_nonempty c : Format_date c ≠ "".
Proof.
  unfold Format_date. intros E. apply append_empty in E. discriminate E.
Qed.

Lemma trigger_key_inj k t k' t' :
  trigger_key k t = trigger_key k' t' → k = k' ∧ t = t'.
Proof.
  unfold trigger_key. destruct k, k'; cbn [kind_prefix String.append]; intros E;
    try discriminate; split; try done; by simplify_eq.
Qed.

(** *** What one tick does to one trigger

    [acts k t now b F] describes a pass [F] over the triggers from the side
    of trigger [(k, t)]: the passes of a tick are composed with
    [acts_comp]. *)

Lemma calls_app k t tr1 tr2 : calls k t (tr1 ++ tr2) = calls k t tr1 + calls k t tr2.
Proof. unfold calls. by rewrite filter_app, length_app. Qed.

Lemma calls_snoc_commit k t tr key d : calls k t (tr ++ [Committed key d]) = calls k t tr.
Proof.
  rewrite calls_app. unfold calls at 2.
  rewrite filter_cons_False by discriminate. simpl. lia.
Qed.

Lemma calls_snoc_invoke k t tr k' t' :
  calls k t (tr ++ [Invoked k' t']) =
  calls k t tr + (if bool_decide (k' = k ∧ t' = t) then 1 else 0).
Proof.
  rewrite calls_app. unfold calls at 2. case_bool_decide as E.
  - destruct E as [-> ->]. by rewrite filter_cons_True.
  - rewrite filter_cons_False; [done|]. intros [= -> ->]. by apply E.
Qed.

Lemma acts_id k t now : acts k t now false (λ l, l).
Proof. intros l. unfold fires_when. simpl. split; [lia | done]. Qed.

Lemma acts_check s k t k' t' now :
  acts k t now (bool_decide (k' = k ∧ t' = t)) (check s k' t' now).
Proof.
  intros l. unfold check, fires_when, not_fired.
  destruct (decide (k' = k ∧ t' = t)) as [[-> ->]|Hne].
  - rewrite (bool_decide_eq_true_2 (k = k ∧ t = t)) by done.
    fold (recorded l k t). simpl.
    destruct (bool_decide (Format_hhmm now = t)); simpl; [|split; [lia | done]].
    case_bool_decide; simpl; [split; [lia | done]|].
    split.
    + rewrite calls_snoc_invoke, calls_snoc_commit.
      by rewrite bool_decide_eq_true_2.
    + unfold recorded. simpl. by rewrite lookup_insert_eq.
  - rewrite (bool_decide_eq_false_2 (k' = k ∧ t' = t)) by done. simpl.
    destruct (_ && _) eqn:E; [|split; [lia | done]].
    split.
    + unfold invoke, commit. simpl. rewrite calls_snoc_invoke, calls_snoc_commit.
      by rewrite bool_decide_eq_false_2.
    + unfold recorded. simpl. rewrite lookup_insert_ne; [done|].
      intros E'. apply trigger_key_inj in E'. by destruct Hne.
Qed.

Lemma acts_comp k t now b1 b2 F1 F2 :
  acts k t now b1 F1 → acts k t now b2 F2 → acts k t now (b1 || b2) (λ l, F2 (F1 l)).
Proof.
  intros H1 H2 l. destruct (H1 l) as [C1 R1], (H2 (F1 l)) as [C2 R2].
  rewrite C2, R2, C1. unfold fires_when in *. rewrite R1.
  destruct b1, b2, (bool_decide (Format_hhmm now = t)); simpl;
    repeat (case_bool_decide; simpl); split; try lia; try done.
Qed.

Lemma acts_ext k t now b b' F : b = b' → acts k t now b F → acts k t now b' F.
Proof. by intros ->. Qed.

Lemma acts_reminders s k t now ts :
  acts k t now (bool_decide (k = Reminders ∧ t ∈ ts))
    (λ l, foldl (λ l t', check s Reminders t' now l) l ts).
Proof.
  induction ts as [|t' ts IH]; simpl.
  - eapply acts_ext; [|apply acts_id].
    symmetry. apply bool_decide_eq_false. intros [_ Hin]. by apply not_elem_of_nil in Hin.
  - eapply acts_ext; [|exact (acts_comp _ _ _ _ _ _ _ (acts_check s k t Reminders t' now) IH)].
    apply eq_true_iff_eq.
    rewrite orb_true_iff, !bool_decide_eq_true, elem_of_cons.
    intuition congruence.
Qed.

Lemma acts_tick s k t now :
  acts k t now (bool_decide (is_trigger s k t)) (tick s now).
Proof.
  unfold tick.
  eapply acts_ext;
    [|exact (acts_comp _ _ _ _ _ _ _
               (acts_comp _ _ _ _ _ _ _ (acts_check s k t Morning (morningTime s) now)
                                        (acts_reminders s k t now (reminderTimes s)))
               (acts_check s k t Wipe (wipeTime s) now))].
  apply eq_true_iff_eq.
  rewrite !orb_true_iff, !bool_decide_eq_true.
  destruct k; simpl; intuition congruence.
Qed.

(** *** Runs of the loop *)

Lemma Format_date_of_date a b : civil_date a = civil_date b → Format_date a = Format_date b.
Proof. unfold civil_date, Format_date. intros [= -> -> ->]. done. Qed.

Lemma loop_snoc s steps e l : loop s (steps ++ [e]) l = step s (loop s steps l) e.
Proof. unfold loop. by rewrite foldl_app. Qed.

Lemma loop_cons s steps e l : loop s (e :: steps) l = loop s steps (step s l e).
Proof. done. Qed.

(** Once the record of a trigger holds today's date, polls of that date no
    longer call its action. *)
Lemma loop_settled s k t now steps l :
  Forall (on_date (civil_date now)) steps →
  recorded l k t = Format_date now →
  calls k t (trace (loop s steps l)) = calls k t (trace l) ∧
  recorded (loop s steps l) k t = Format_date now.
Proof.
  intros Hd. revert l. induction Hd as [|e steps He _ IH]; intros l Hl; [by split|].
  rewrite loop_cons. destruct e as [p|f]; simpl in *.
  - destruct (acts_tick s k t p l) as [C R].
    assert (fires_when (bool_decide (is_trigger s k t)) k t p l = false) as Hf.
    { unfold fires_when. rewrite Hl, (Format_date_of_date _ _ He).
      rewrite (bool_decide_eq_true_2 (Format_date now = _)) by done.
      by rewrite andb_false_r. }
    rewrite Hf in C, R. destruct (IH (tick s p l)) as [C' R']; [congruence|].
    split; [lia | done].
  - apply (IH {| lastFired := lastFired l; trace := trace l; world := f (world l) |}).
    exact Hl.
Qed.

Lemma loop_at_most_once s k t d steps l :
  Forall (on_date d) steps →
  calls k t (trace (loop s steps l)) ≤ calls k t (trace l) + 1.
Proof.
  intros Hd. revert l. induction Hd as [|e steps He Hd IH]; intros l; [simpl; lia|].
  rewrite loop_cons. destruct e as [p|f]; simpl in *.
  - destruct (acts_tick s k t p l) as [C R].
    destruct (fires_when _ k t p l).
    + subst d. destruct (loop_settled s k t p steps (tick s p l) Hd R) as [C' _]. lia.
    + specialize (IH (tick s p l)). lia.
  - apply (IH {| lastFired := lastFired l; trace := trace l; world := f (world l) |}).
Qed.

(** The record of a trigger keeps clear of the date of [now] over steps
    that cannot store it. *)
Lemma loop_leaves_open s k t now history l :
  civil_ok now → Forall (leaves_open t now) history →
  recorded l k t ≠ Format_date now →
  recorded (loop s history l) k t ≠ Format_date now.
Proof.
  intros Hnow Hh. revert l. induction Hh as [|e history He _ IH]; intros l Hl; [done|].
  rewrite loop_cons. apply IH. destruct e as [p|f]; simpl in *; [|done].
  destruct (acts_tick s k t p l) as [_ R]. rewrite R.
  destruct (fires_when _ k t p l) eqn:Hf; [|done].
  unfold fires_when in Hf. apply andb_true_iff in Hf as [Hf _].
  apply andb_true_iff in Hf as [_ Hf]. apply bool_decide_eq_true in Hf.
  destruct He as [[Hp Hd]|Hne]; [|done].
  intros E. by apply Format_date_inj in E.
Qed.

(** *** The calls of the trace are the runs of the actions *)

Lemma exec_forM_app {A} (l1 l2 : list A) (g : A → M unit) w :
  exec (forM_ (l1 ++ l2) g) w = exec (forM_ l2 g) (exec (forM_ l1 g) w).
Proof.
  revert w. induction l1 as [|a l1 IH]; intros w; [done|].
  cbn [app forM_]. unfold exec, bind in *. destruct (g a w) as [[] w1]. apply IH.
Qed.

Lemma grows_refl s now l : grows s now l l.
Proof. exists []. by rewrite app_nil_r. Qed.

Lemma grows_trans s now l1 l2 l3 :
  grows s now l1 l2 → grows s now l2 l3 → grows s now l1 l3.
Proof.
  intros (e1 & T1 & W1) (e2 & T2 & W2). exists (e1 ++ e2).
  split; [by rewrite T2, T1, app_assoc|].
  unfold replay. rewrite exec_forM_app. fold (replay s now e1) (replay s now e2).
  by rewrite <- W1.
Qed.

Lemma grows_check s k t now l : grows s now l (check s k t now l).
Proof.
  unfold check. destruct (_ && _); [|apply grows_refl].
  exists [Committed (trigger_key k t) (Format_date now); Invoked k t].
  split; [cbn [invoke commit trace]; by rewrite <- app_assoc|].
  cbn [invoke commit world replay forM_]. unfold exec, bind, ret.
  by destruct (action_of s k now (world l)) as [[] w1].
Qed.

Lemma grows_tick s now l : grows s now l (tick s now l).
Proof.
  unfold tick. eapply grows_trans; [|apply grows_check].
  eapply grows_trans; [apply (grows_check s Morning (morningTime s))|].
  generalize (check s Morning (morningTime s) now l).
  induction (reminderTimes s) as [|t ts IH]; intros l'; [apply grows_refl|].
  cbn [foldl]. eapply grows_trans; [apply (grows_check s Reminders t)|]. apply IH.
Qed.

(** C1. For every trigger key [(k, t)]: over any run of the loop whose polls
    all fall on one calendar date, from any state of the loop and whatever
    the dispatch goroutine does in between, the action of the trigger is
    called at most once, however many polls observe the time [t]. From any
    state of the loop whose record for the key is not the date of [now]
    (as it is once the date has advanced), and after any further polls on
    other dates or at other times of that date, a poll that observes [t]
    calls the action exactly once more, however often the loop polls again
    that day. The calls counted are runs of the actions on the shared
    world: what a poll appends to the trace, replayed in order, is what it
    does to the world. *)
Theorem firing_once_per_date (s : Scheduler) (k : Kind) (t : string) :
  (∀ d steps l,
     Forall (on_date d) steps →
     calls k t (trace (loop s steps l)) ≤ calls k t (trace l) + 1) ∧
  (∀ l0 history now steps,
     is_trigger s k t → civil_ok now → Format_hhmm now = t →
     recorded l0 k t ≠ Format_date now →
     Forall (leaves_open t now) history →
     Forall (on_date (civil_date now)) steps →
     let l := loop s history l0 in
     calls k t (trace (loop s (Poll now :: steps) l)) = calls k t (trace l) + 1) ∧
  (∀ now l,
     let evs := drop (length (trace l)) (trace (tick s now l)) in
     trace (tick s now l) = trace l ++ evs ∧
     world (tick s now l) = exec (replay s now evs) (world l)).
Proof.
  split; [apply loop_at_most_once|]. split.
  - intros l0 history now steps Htr Hnow Ht Hl0 Hopen Hon l.
    rewrite loop_cons. simpl.
    destruct (acts_tick s k t now l) as [C R].
    assert (fires_when (bool_decide (is_trigger s k t)) k t now l = true) as Hf.
    { unfold fires_when. rewrite !bool_decide_eq_true_2 by done. simpl.
      apply negb_true_iff, bool_decide_eq_false_2. subst l.
      by apply loop_leaves_open. }
    rewrite Hf in C, R.
    destruct (loop_settled s k t now steps (tick s now l) Hon R) as [C' _]. lia.
  - intros now l evs. subst evs.
    destruct (grows_tick s now l) as (evs & T & W).
    rewrite T, drop_app_length. done.
Qed.

Lemma firing_once_per_date_witness :
  let l := loop defaultScheduler [Poll mar9_0800; Poll mar9_0800'; Poll mar10_0300]
             (start busy) in
  calls Reminders "08:00"
    (trace (loop defaultScheduler [Poll mar9_0800; Poll mar9_0800'] (start busy))) ≤ 1 ∧
  calls Reminders "08:00"
    (trace (loop defaultScheduler [Poll mar10_0800; Poll mar10_0800'] l))
  = calls Reminders "08:00" (trace l) + 1 ∧
  world (tick defaultScheduler mar10_0800 l)
  = exec (sendMorningDigest defaultScheduler mar10_0800 ;;; sendReminders mar10_0800)
      (world l).
Proof.
  intros l.
  destruct (firing_once_per_date defaultScheduler Reminders "08:00")
    as (Hmost & Hnext & Hworld).
  split; [|split].
  - apply (Hmost (civil_date mar9_0800) [Poll mar9_0800; Poll mar9_0800'] (start busy)).
    repeat constructor.
  - apply (Hnext (start busy) [Poll mar9_0800; Poll mar9_0800'; Poll mar10_0300]
             mar10_0800 [Poll mar10_0800']).
    + simpl. apply list_elem_of_here.
    + unfold civil_ok; cbn -[N.lt N.le]; lia.
    + reflexivity.
    + by vm_compute.
    + constructor; [|constructor; [|constructor; [|constructor]]].
      * left. split; [unfold civil_ok; cbn -[N.lt N.le]; lia | by vm_compute].
      * left. split; [unfold civil_ok; cbn -[N.lt N.le]; lia | by vm_compute].
      * right. by vm_compute.
    + repeat constructor.
  - destruct (Hworld mar10_0800 l) as [_ Hw]. rewrite Hw. by vm_compute.
Defined.

(** When a trigger fires, the world moves by its action and by nothing
    else; when it does not, the world stays. *)
Lemma check_runs_action s k t now l :
  Format_hhmm now = t → recorded l k t ≠ Format_date now →
  world (check s k t now l) = exec (action_of s k now) (world l).
Proof.
  intros Ht Hr. unfold check, not_fired. fold (recorded l k t).
  rewrite bool_decide_eq_true_2 by done.
  by rewrite (bool_decide_eq_false_2 (recorded l k t = Format_date now)).
Qed.

Lemma check_idle s k t now l :
  Format_hhmm now ≠ t ∨ recorded l k t = Format_date now →
  check s k t now l = l.
Proof.
  intros Hno. unfold check, not_fired. fold (recorded l k t).
  destruct Hno as [Ht|Hr].
  - by rewrite (bool_decide_eq_false_2 (Format_hhmm now = t)).
  - rewrite (bool_decide_eq_true_2 (recorded l k t = Format_date now)) by done.
    by rewrite andb_false_r.
Qed.

(** *** The firing record is stored before the action runs *)

Lemma paired_invoked tr :
  paired tr →
  ∀ pre post k t, tr = pre ++ Invoked k t :: post →
  ∃ pre' d, pre = pre' ++ [Committed (trigger_key k t) d].
Proof.
  induction 1 as [|tr k0 t0 d0 Htr IH]; intros pre post k t E.
  - by destruct pre.
  - replace (tr ++ [Committed (trigger_key k0 t0) d0; Invoked k0 t0])
      with ((tr ++ [Committed (trigger_key k0 t0) d0]) ++ [Invoked k0 t0]) in E
      by (by rewrite <- app_assoc).
    destruct post as [|x post _] using rev_ind.
    + apply app_inj_tail in E as [<- [= <- <-]]. eauto.
    + replace (pre ++ Invoked k t :: post ++ [x])
        with ((pre ++ Invoked k t :: post) ++ [x]) in E
        by (by rewrite <- app_assoc).
      apply app_inj_tail in E as [E _].
      destruct post as [|y post _] using rev_ind.
      * apply app_inj_tail in E as [_ [=]].
      * replace (pre ++ Invoked k t :: post ++ [y])
          with ((pre ++ Invoked k t :: post) ++ [y]) in E
          by (by rewrite <- app_assoc).
        apply app_inj_tail in E as [E _]. eapply IH. exact E.
Qed.

Lemma paired_check s k t now l : paired (trace l) → paired (trace (check s k t now l)).
Proof.
  intros Hl. unfold check. destruct (_ && _); [|done].
  simpl. rewrite <- app_assoc. by apply paired_snoc.
Qed.

Lemma paired_tick s now l : paired (trace l) → paired (trace (tick s now l)).
Proof.
  intros Hl. unfold tick. apply paired_check.
  generalize (check s Morning (morningTime s) now l)
    (paired_check s Morning (morningTime s) now l Hl).
  induction (reminderTimes s) as [|t ts IH]; intros l' Hl'; simpl; [done|].
  apply IH. by apply paired_check.
Qed.

Lemma paired_loop s steps w : paired (trace (loop s steps (start w))).
Proof.
  induction steps as [|e steps IH] using rev_ind; [constructor|].
  rewrite loop_snoc. destruct e; simpl; [by apply paired_tick | done].
Qed.

(** What the loop records and calls does not depend on the shared world:
    not on whether a target chat is known, nor on the store failing. *)
Lemma check_schedule s k t now l l' :
  lastFired l = lastFired l' → trace l = trace l' →
  lastFired (check s k t now l) = lastFired (check s k t now l') ∧
  trace (check s k t now l) = trace (check s k t now l').
Proof.
  intros E1 E2. unfold check, not_fired. rewrite E1.
  destruct (_ && _); simpl; by rewrite ?E1, ?E2.
Qed.

Lemma tick_schedule s now l l' :
  lastFired l = lastFired l' → trace l = trace l' →
  lastFired (tick s now l) = lastFired (tick s now l') ∧
  trace (tick s now l) = trace (tick s now l').
Proof.
  intros E1 E2. unfold tick.
  destruct (check_schedule s Morning (morningTime s) now l l' E1 E2) as [F1 F2].
  revert F1 F2.
  generalize (check s Morning (morningTime s) now l) (check s Morning (morningTime s) now l').
  induction (reminderTimes s) as [|t ts IH]; intros m m' F1 F2; simpl.
  - by apply check_schedule.
  - destruct (check_schedule s Reminders t now m m' F1 F2) as [G1 G2]. by apply IH.
Qed.

Lemma loop_schedule s steps w w' :
  lastFired (loop s steps (start w)) = lastFired (loop s steps (start w')) ∧
  trace (loop s steps (start w)) = trace (loop s steps (start w')).
Proof.
  induction steps as [|e steps [IH1 IH2]] using rev_ind; [done|].
  rewrite !loop_snoc. destruct e; simpl; [by apply tick_schedule | done].
Qed.

(** C2. The loop stores today's date for a trigger key before it runs the
    trigger's action: in every run each call of an action comes right after
    the store for its key; what is stored and called does not depend on the
    world the actions run in; and so, whatever the action did (sent
    nothing for want of a target chat, or failed on the store), after a poll
    that observed the time of a trigger the record holds today's date and no
    later poll of that date calls the action again. *)
Theorem commit_before_action (s : Scheduler) :
  (∀ w steps pre post k t,
     trace (loop s steps (start w)) = pre ++ Invoked k t :: post →
     ∃ pre' d, pre = pre' ++ [Committed (trigger_key k t) d]) ∧
  (∀ steps w w',
     lastFired (loop s steps (start w)) = lastFired (loop s steps (start w')) ∧
     trace (loop s steps (start w)) = trace (loop s steps (start w'))) ∧
  (∀ k t now l steps,
     is_trigger s k t → Format_hhmm now = t →
     Forall (on_date (civil_date now)) steps →
     recorded (tick s now l) k t = Format_date now ∧
     calls k t (trace (loop s steps (tick s now l))) = calls k t (trace (tick s now l))).
Proof.
  split; [|split].
  - intros w steps pre post k t E. eapply paired_invoked; [apply paired_loop | exact E].
  - intros steps w w'. apply loop_schedule.
  - intros k t now l steps Htr Ht Hon.
    assert (recorded (tick s now l) k t = Format_date now) as R.
    { destruct (acts_tick s k t now l) as [_ ->].
      unfold fires_when.
      rewrite (bool_decide_eq_true_2 (is_trigger s k t)) by done.
      rewrite (bool_decide_eq_true_2 (Format_hhmm now = t)) by done.
      case_bool_decide; simpl; done. }
    split; [done|]. by destruct (loop_settled s k t now steps (tick s now l) Hon R).
Qed.

Lemma commit_before_action_witness :
  let l := tick defaultScheduler mar9_0300 (start blank) in
  trace l = [Committed "wipe:03:00" "2025-03-09"; Invoked Wipe "03:00"] ∧
  sent (world l) = [] ∧
  recorded l Wipe "03:00" = "2025-03-09" ∧
  calls Wipe "03:00" (trace (loop defaultScheduler [Poll mar9_0300; Poll mar9_0300] l))
  = calls Wipe "03:00" (trace l).
Proof.
  split; [reflexivity|]. split; [reflexivity|].
  destruct (commit_before_action defaultScheduler) as (_ & _ & Hretry).
  apply (Hretry Wipe "03:00" mar9_0300 (start blank) [Poll mar9_0300; Poll mar9_0300]).
  - reflexivity.
  - reflexivity.
  - repeat constructor.
Defined.

(** *** The trigger actions *)

Lemma targetChatID_sent : keeps sent targetChatID.
Proof. unfold targetChatID, GetKV. walk_frame. Qed.
Lemma targetChatID_Store : keeps Store targetChatID.
Proof. unfold targetChatID, GetKV. walk_frame. Qed.

Lemma forM__Send {A} (g : A → Outbound) (l : list A) w :
  sent (exec (forM_ l (λ a, Send (g a))) w) = sent w ++ (g <$> l).
Proof.
  revert w. induction l as [|a l IH]; intros w; simpl.
  - by rewrite app_nil_r.
  - unfold exec, bind in *. simpl. rewrite IH. simpl. by rewrite <- app_assoc.
Qed.

Lemma forM__Send_Store {A} (g : A → Outbound) (l : list A) :
  keeps Store (forM_ l (λ a, Send (g a))).
Proof. walk_frame. Qed.

(** What it takes for [targetChatID] to answer false. *)
Lemma targetChatID_unresolved w :
  (eval targetChatID w).2 = false ↔
  (parseInt64 (TrimSpace (default "" (env w !! "CHAT_ID")))).2 = false ∧
  match faults w with
  | Some _ :: _ => True
  | _ => match kv (Store w) !! "chat_id" with
         | Some v => (parseInt64 (TrimSpace v)).2 = false
         | None => True
         end
  end.
Proof.
  unfold eval, targetChatID, bind, Getenv, get, ret. simpl.
  destruct (parseInt64 (TrimSpace (default "" (env w !! "CHAT_ID")))) as [c []]; simpl.
  { split; [discriminate | intros [? _]; discriminate]. }
  unfold GetKV, bind, statement, get, ret.
  destruct (faults w) as [|[e|] fs]; simpl;
    destruct (kv (Store w) !! "chat_id") as [v|]; simpl; tauto.
Qed.

(** C8. When no target chat is resolvable ([targetChatID] answers false:
    CHAT_ID does not parse and the persisted chat_id is missing, unreadable
    or does not parse), each trigger action (reminder broadcast, morning
    digest, nightly wipe) sends nothing and leaves the store as it was. *)
Theorem no_target_no_action (s : Scheduler) (now : Civil) (k : Kind) (w : World) :
  (eval targetChatID w).2 = false →
  sent (exec (action_of s k now) w) = sent w ∧
  Store (exec (action_of s k now) w) = Store w.
Proof.
  unfold eval, exec. intros Hno.
  pose proof (targetChatID_sent w) as Hs. pose proof (targetChatID_Store w) as Hd.
  destruct k; simpl; unfold sendMorningDigest, sendReminders, wipeReminders, bind;
    destruct (targetChatID w) as [[c ok] w1]; simpl in *; subst ok; simpl; by split.
Qed.

Lemma no_target_no_action_witness :
  (eval targetChatID blank).2 = false ∧
  sent (exec (action_of defaultScheduler Wipe mar9_0300) blank) = sent blank ∧
  Store (exec (action_of defaultScheduler Wipe mar9_0300) blank) = Store blank.
Proof.
  split; [reflexivity|].
  apply (no_target_no_action defaultScheduler mar9_0300 Wipe blank). reflexivity.
Defined.

(** C5. When the reminder broadcast runs for target chat [chat] and the
    query on the store succeeds, it sends exactly one message per active
    item of the chat's reminders topic, in the order of their ids, each with
    the text of the item and the button whose callback data is [done:<id>]
    of that item; with no such item it sends nothing. The store is not
    changed. *)
Theorem reminders_one_message_each (now : Civil) (w w1 : World) (chat : Z) :
  targetChatID w = ((chat, true), w1) →
  (statement w1).1 = None →
  let its := select_active chat TopicReminders (Store w) in
  let w' := exec (sendReminders now) w in
  sent w' = sent w ++ (reminderMessage chat <$> its) ∧
  length (sent w') = length (sent w) + length its ∧
  Store w' = Store w.
Proof.
  intros Ht Hq its w'.
  pose proof (targetChatID_sent w) as Hs. pose proof (targetChatID_Store w) as Hd.
  rewrite Ht in Hs, Hd. simpl in Hs, Hd.
  assert (sent w' = sent w ++ (reminderMessage chat <$> its) ∧ Store w' = Store w) as [E1 E2].
  { subst w' its. unfold exec, sendReminders, bind. rewrite Ht.
    unfold ListActive, bind.
    pose proof (keeps_statement sent (λ _ _, eq_refl) w1) as Hs1.
    pose proof (keeps_statement Store (λ _ _, eq_refl) w1) as Hd1.
    destruct (statement w1) as [f w2]. simpl in Hq, Hs1, Hd1. subst f. simpl.
    rewrite Hd1, Hd.
    destruct (select_active chat TopicReminders (Store w)) as [|it its] eqn:E.
    - simpl. rewrite app_nil_r. split; congruence.
    - split.
      + pose proof (forM__Send (reminderMessage chat) (it :: its) w2) as F.
        unfold exec in F. rewrite F. congruence.
      + rewrite (forM__Send_Store (reminderMessage chat) (it :: its) w2). congruence. }
  repeat split; [done | | done].
  rewrite E1, length_app, length_fmap. done.
Qed.

Lemma reminders_one_message_each_witness :
  sent (exec (sendReminders mar9_0800) busy) =
    [ReminderMessage 7 "НАПОМИНАНИЕ #1: water the plants" "done:1";
     ReminderMessage 7 "НАПОМИНАНИЕ #4: buy milk" "done:4";
     ReminderMessage 7 "НАПОМИНАНИЕ #5: stretch" "done:5"].
Proof.
  apply (reminders_one_message_each mar9_0800 busy busy 7); reflexivity.
Defined.

Lemma filter_none {A} (P : A → Prop) `{∀ x, Decision (P x)} (l : list A) :
  (∀ x, ¬ P x) → filter P l = [].
Proof.
  intros Hno. induction l as [|x l IH]; [done|].
  by rewrite filter_cons_False.
Qed.

(** C6. When the nightly wipe runs for target chat [chat] and the DELETE
    succeeds, the rows left in table [items] are exactly the former rows
    that are not reminders of that chat, unchanged and in their order: no
    reminder of the chat remains, items of its other topics and all items of
    other chats are kept as they were; the counter and table [kv] are
    untouched, and one confirmation message is sent. *)
Theorem wipe_reminders (now : Civil) (w w1 : World) (chat : Z) :
  targetChatID w = ((chat, true), w1) →
  (statement w1).1 = None →
  let w' := exec (wipeReminders now) w in
  (∀ r, r ∈ items (Store w') ↔
        r ∈ items (Store w) ∧ ¬ (row_chat_id r = chat ∧ row_topic r = TopicReminders)) ∧
  items (Store w') =
    filter (λ r, ¬ (row_chat_id r = chat ∧ row_topic r = TopicReminders)) (items (Store w)) ∧
  sqlite_sequence (Store w') = sqlite_sequence (Store w) ∧ kv (Store w') = kv (Store w) ∧
  select_active chat TopicReminders (Store w') = [] ∧
  sent w' = sent w ++ [PlainMessage chat "НАПОМИНАНИЯ ОЧИЩЕНЫ (ночной вайп)."].
Proof.
  intros Ht Hq w'.
  pose proof (targetChatID_sent w) as Hs. pose proof (targetChatID_Store w) as Hd.
  rewrite Ht in Hs, Hd. simpl in Hs, Hd.
  pose proof (keeps_statement sent (λ _ _, eq_refl) w1) as Hs1.
  pose proof (keeps_statement Store (λ _ _, eq_refl) w1) as Hd1.
  assert (Store w' = delete_where (λ r, bool_decide (row_chat_id r = chat)
                                   && bool_decide (row_topic r = TopicReminders)) (Store w)
          ∧ sent w' = sent w ++ [PlainMessage chat "НАПОМИНАНИЯ ОЧИЩЕНЫ (ночной вайп)."])
    as [E1 E2].
  { subst w'. unfold exec, wipeReminders, bind. rewrite Ht.
    unfold DeleteAllReminders, bind.
    destruct (statement w1) as [f w2]. simpl in Hq, Hs1, Hd1. subst f. simpl.
    rewrite Hd1, Hd, Hs1, Hs. done. }
  assert (items (Store w') =
    filter (λ r, ¬ (row_chat_id r = chat ∧ row_topic r = TopicReminders))
           (items (Store w))) as E3.
  { rewrite E1. simpl. apply list_filter_iff. intros r.
    rewrite negb_True, andb_True, !bool_decide_spec. done. }
  split; [|split; [done|]].
  - intros r. rewrite E3. split; intros Hr.
    + apply list_elem_of_filter in Hr. tauto.
    + apply list_elem_of_filter. tauto.
  - split; [by rewrite E1|]. split; [by rewrite E1|]. split; [|done].
    unfold select_active. rewrite E3, list_filter_filter.
    rewrite filter_none; [done|].
    intros r [Hsel Hno]. apply Hno. clear Hno.
    unfold selected in Hsel. rewrite !andb_True, orb_True, !bool_decide_spec in Hsel.
    destruct Hsel as [[? _] [?|?]]; [discriminate | done].
Qed.

Lemma wipe_reminders_witness :
  items (Store (exec (wipeReminders mar9_0300) busy)) =
    [{| row_id := 2; row_chat_id := 7; row_topic := TopicTasks;
        row_text := "file taxes"; row_status := StatusActive; row_created_at := 0 |};
     reminder_row 3 8 "call the bank"].
Proof.
  destruct (wipe_reminders mar9_0300 busy busy 7) as (_ & E & _); [reflexivity..|].
  rewrite E. reflexivity.
Defined.

(** ** The item store *)

Lemma StronglySorted_filter {A} (R : relation A) (P : A → Prop) `{∀ x, Decision (P x)} l :
  StronglySorted R l → StronglySorted R (filter P l).
Proof.
  induction 1 as [|x l Hl IH Hx]; [constructor|].
  destruct (decide (P x)).
  - rewrite filter_cons_True by done. constructor; [done|].
    apply Forall_forall. intros y Hy. apply list_elem_of_filter in Hy as [_ Hy].
    rewrite Forall_forall in Hx. by apply Hx.
  - by rewrite filter_cons_False.
Qed.

(** ORDER BY id is a sort: whatever the table, the rows come out in
    non-decreasing order of id, the same rows as went in. *)
Lemma insert_by_id_Permutation r l : insert_by_id r l ≡ₚ r :: l.
Proof.
  induction l as [|r' l IH]; [done|]. simpl.
  destruct (row_id r <=? row_id r')%Z; [done|].
  rewrite IH. apply Permutation_swap.
Qed.

Lemma order_by_id_Permutation l : order_by_id l ≡ₚ l.
Proof.
  induction l as [|r l IH]; [done|]. simpl. fold (order_by_id l).
  by rewrite insert_by_id_Permutation, IH.
Qed.

Lemma insert_by_id_Sorted r l :
  StronglySorted (λ r1 r2, row_id r1 ≤ row_id r2)%Z l →
  StronglySorted (λ r1 r2, row_id r1 ≤ row_id r2)%Z (insert_by_id r l).
Proof.
  induction 1 as [|r' l Hl IH Hr']; simpl; [repeat constructor|].
  destruct (Z.leb_spec (row_id r) (row_id r')).
  - constructor; [by constructor|]. constructor; [done|].
    eapply Forall_impl; [exact Hr'|]. simpl. intros. lia.
  - constructor; [done|].
    rewrite insert_by_id_Permutation. constructor; [lia | done].
Qed.

Lemma order_by_id_Sorted l :
  StronglySorted (λ r1 r2, row_id r1 ≤ row_id r2)%Z (order_by_id l).
Proof.
  induction l as [|r l IH]; [constructor|]. simpl. by apply insert_by_id_Sorted.
Qed.

Lemma insert_by_id_least r l :
  Forall (λ r', row_id r < row_id r')%Z l → insert_by_id r l = r :: l.
Proof.
  destruct 1 as [|r' l Hr _]; [done|]. simpl.
  destruct (Z.leb_spec (row_id r) (row_id r')); [done | lia].
Qed.

(** ORDER BY id finds a table in increasing ids as it is. *)
Lemma order_by_id_sorted l :
  StronglySorted (λ r1 r2, row_id r1 < row_id r2)%Z l → order_by_id l = l.
Proof.
  induction 1 as [|r l Hl IH Hr]; [done|].
  simpl. fold (order_by_id l). rewrite IH. by apply insert_by_id_least.
Qed.

Lemma select_active_wf chat topic d :
  db_wf d →
  select_active chat topic d = scan <$> filter (λ r, selected chat topic r) (items d).
Proof.
  intros [Hs _]. unfold select_active. rewrite order_by_id_sorted; [done|].
  by apply StronglySorted_filter.
Qed.

Lemma select_active_sorted chat topic d :
  db_wf d → StronglySorted (λ a b, ID a < ID b)%Z (select_active chat topic d).
Proof.
  intros Hd. rewrite select_active_wf by done. destruct Hd as [Hs _].
  apply (StronglySorted_fmap _ (λ r1 r2, row_id r1 < row_id r2)%Z); [done|].
  by apply StronglySorted_filter.
Qed.

Lemma insert_row_wf r d :
  db_wf d → (sqlite_sequence d < row_id r)%Z → db_wf (insert_row r d).
Proof.
  intros [Hs Hb] Hr. split; simpl.
  - apply StronglySorted_app_2; [|done|repeat constructor].
    intros r1 r2 H1 H2. apply list_elem_of_singleton in H2 as ->.
    rewrite Forall_forall in Hb. specialize (Hb _ H1). lia.
  - apply Forall_app. split; [|repeat constructor; lia].
    eapply Forall_impl; [exact Hb|]. simpl. intros. lia.
Qed.

Lemma delete_where_wf p d : db_wf d → db_wf (delete_where p d).
Proof.
  intros [Hs Hb]. split; simpl.
  - by apply StronglySorted_filter.
  - apply Forall_forall. intros r Hr. apply list_elem_of_filter in Hr as [_ Hr].
    rewrite Forall_forall in Hb. by apply Hb.
Qed.

Lemma select_active_insert chat topic r d :
  db_wf d → (sqlite_sequence d < row_id r)%Z → selected chat topic r = true →
  select_active chat topic (insert_row r d) = select_active chat topic d ++ [scan r].
Proof.
  intros Hd Hr Hsel.
  rewrite (select_active_wf _ _ _ (insert_row_wf r d Hd Hr)), (select_active_wf _ _ _ Hd).
  simpl. rewrite filter_app, fmap_app. f_equal.
  rewrite filter_cons_True by (by rewrite Hsel). done.
Qed.

(** *** The shape of the store is an invariant

    [db_wf] holds of the empty database and is kept by every handler and
    every trigger action, so it holds of every store the bot reaches. *)

Lemma emptyDB_wf : db_wf emptyDB.
Proof. split; constructor. Qed.

Lemma store_wf_keeps {A} (c : M A) : keeps Store c → preserves store_wf c.
Proof. intros Hc w Hw. unfold store_wf. by rewrite Hc. Qed.

Lemma store_wf_modifyDB g :
  (∀ d, db_wf d → db_wf (g d)) → preserves store_wf (modifyDB g).
Proof. intros Hg w Hw. by apply Hg. Qed.

Lemma store_wf_SetKV k v : preserves store_wf (SetKV k v).
Proof.
  unfold SetKV. apply preserves_bind; [apply store_wf_keeps; walk_frame | intros [e|]].
  - apply preserves_ret.
  - apply preserves_bind; [|intros; apply preserves_ret].
    apply store_wf_modifyDB. by intros d [? ?].
Qed.

Lemma store_wf_AddItem now c t x : preserves store_wf (AddItem now c t x).
Proof.
  unfold AddItem. apply preserves_bind; [apply store_wf_keeps; walk_frame | intros [e|]].
  - apply preserves_ret.
  - intros w Hw. unfold bind, get. simpl.
    destruct (Z.leb_spec maxInt64 (sqlite_sequence (Store w))); simpl; [done|].
    apply insert_row_wf; [done | simpl; lia].
Qed.

Lemma store_wf_DeleteItem c i : preserves store_wf (DeleteItem c i).
Proof.
  unfold DeleteItem. apply preserves_bind; [apply store_wf_keeps; walk_frame | intros [e|]].
  - apply preserves_ret.
  - apply preserves_bind; [|intros; apply preserves_ret].
    apply store_wf_modifyDB. intros d. apply delete_where_wf.
Qed.

Lemma store_wf_DeleteAllReminders c : preserves store_wf (DeleteAllReminders c).
Proof.
  unfold DeleteAllReminders.
  apply preserves_bind; [apply store_wf_keeps; walk_frame | intros [e|]].
  - apply preserves_ret.
  - apply preserves_bind; [|intros; apply preserves_ret].
    apply store_wf_modifyDB. intros d. apply delete_where_wf.
Qed.

Global Hint Resolve store_wf_SetKV store_wf_AddItem store_wf_DeleteItem
  store_wf_DeleteAllReminders : go.

Ltac walk_store :=
  repeat first
    [ apply preserves_ret
    | solve [eauto 2 with go]
    | solve [apply store_wf_keeps; walk_frame]
    | apply preserves_bind; [| intros ?]
    | progress cbv zeta
    | split_match ].

Section StoreInvariant.

Context {UC : UnicodeCase}.

Lemma store_wf_handleMessage now m : preserves store_wf (handleMessage now m).
Proof.
  unfold handleMessage, ensureChatID, handleCommand, handleButton, captureText,
    sendRemindersOneByOne.
  walk_store.
Qed.

Lemma store_wf_handleCallback cq : preserves store_wf (handleCallback cq).
Proof. unfold handleCallback, ensureChatID. walk_store. Qed.

Lemma store_wf_action s k now : preserves store_wf (action_of s k now).
Proof.
  destruct k; simpl; unfold sendMorningDigest, sendReminders, wipeReminders; walk_store.
Qed.

End StoreInvariant.

(** *** Free-text capture *)

Lemma statement_ok w : faults w = [] → statement w = (None, w).
Proof. intros E. unfold statement. by rewrite E. Qed.

Lemma ensureChatID_ok chat w :
  faults w = [] →
  ensureChatID chat w = (tt, with_Store (persist_chat chat (env w) (Store w)) w).
Proof.
  intros E. unfold ensureChatID, persist_chat, bind, Getenv, get, ret. simpl.
  case_bool_decide; [|by destruct w].
  unfold SetKV, bind. rewrite statement_ok by done. done.
Qed.

Lemma AddItem_ok now chat topic text w :
  faults w = [] → (sqlite_sequence (Store w) < maxInt64)%Z →
  AddItem now chat topic text w =
    (Ok (sqlite_sequence (Store w) + 1)%Z,
     with_Store (insert_row (new_row now chat topic text (Store w)) (Store w)) w).
Proof.
  intros E Hs. unfold AddItem, bind. rewrite statement_ok by done. simpl.
  destruct (Z.leb_spec maxInt64 (sqlite_sequence (Store w))); [lia | done].
Qed.

Section Capture.

Context {UC : UnicodeCase}.

(** C9, as the code has it. A plain text message (not a command, not a
    topic label, not blank) handled while the store works is filed under the
    topic that [touchState] resolves for the chat, as a new row with the next
    id whose text is the message text with leading and trailing white space
    trimmed, and whose created_at is the RFC3339 text (whole seconds) of the
    reading of the clock that [AddItem] takes; listing the active items of
    that chat and topic afterwards returns the items listed before followed
    by the new one, created at the instant that text parses to, in
    increasing order of id. *)
Theorem capture_round_trip (now : Z) (m : Message) (w : World) :
  msg_command m = None →
  msg_text m ≠ "" →
  (isTopicButtonText (msg_text m)).2 = false →
  TrimSpace (msg_text m) ≠ "" →
  faults w = [] → db_wf (Store w) → (sqlite_sequence (Store w) < maxInt64)%Z →
  let chat := msg_chat m in
  let topic := Topic (eval (touchState now chat) w) in
  let w' := exec (handleMessage now m) w in
  let created := clock w 0%nat in
  let it := {| ID := sqlite_sequence (Store w) + 1; ChatID := chat; ItemTopic := topic;
               Text := TrimSpace (msg_text m);
               CreatedAt := ParseRFC3339 (FormatRFC3339 created) |} in
  ChatStates w' !! chat = Some {| Topic := topic; LastActivity := now |} ∧
  items (Store w') =
    items (Store w) ++ [new_row created chat topic (TrimSpace (msg_text m)) (Store w)] ∧
  eval (ListActive chat topic) w' = Ok (select_active chat topic (Store w) ++ [it]) ∧
  StronglySorted (λ a b, ID a < ID b)%Z (select_active chat topic (Store w) ++ [it]) ∧
  db_wf (Store w').
Proof.
  intros Hcmd Htext Hbtn Htrim Hf Hwf Hseq chat topic w' created it.
  remember (with_Store (persist_chat chat (env w) (Store w)) w) as w1 eqn:Ew1.
  assert (faults w1 = [] ∧ ChatStates w1 = ChatStates w ∧ TTL w1 = TTL w ∧
          items (Store w1) = items (Store w) ∧
          sqlite_sequence (Store w1) = sqlite_sequence (Store w)) as (Hf1 & Hc1 & Ht1 & Hi1 & Hs1).
  { rewrite Ew1. unfold persist_chat. by case_bool_decide. }
  assert (clock w1 = clock w) as Hk1 by (by rewrite Ew1).
  assert (db_wf (Store w1)) as Hwf1.
  { destruct Hwf as [A B]. split; [by rewrite Hi1 | by rewrite Hi1, Hs1]. }
  assert (∀ c t, select_active c t (Store w1) = select_active c t (Store w)) as Hsel1.
  { intros c t. unfold select_active. by rewrite Hi1. }
  destruct (touchState now chat w1) as [st w2] eqn:Et.
  assert (Topic st = topic ∧ LastActivity st = now ∧ ChatStates w2 !! chat = Some st ∧
          Store w2 = Store w1 ∧ faults w2 = faults w1 ∧ clock w2 = clock w1)
    as (Htop & Hla & Hst & Hd2 & Hf2 & Hk2).
  { subst topic. unfold eval. revert Et. unfold touchState, bind, get. simpl.
    rewrite Hc1, Ht1. destruct (ChatStates w !! chat) as [st0|]; simpl.
    - intros [= <- <-]. simpl. by rewrite lookup_insert_eq.
    - intros [= <- <-]. simpl. by rewrite lookup_insert_eq. }
  set (text := TrimSpace (msg_text m)) in *.
  set (w3 := with_clock (λ n, clock w2 (S n)) w2).
  assert (w' = with_sent
                 (sent w3 ++ [MenuMessage chat ("ДОБАВИЛ СООБЩЕНИЕ В "
                                                +:+ topicLabel (Topic st) +:+ ".")])
                 (with_Store
                    (insert_row (new_row created chat (Topic st) text (Store w3)) (Store w3))
                    w3)) as Ew'.
  { subst w'. unfold exec, handleMessage. cbv zeta. fold chat.
    unfold bind. rewrite (ensureChatID_ok _ _ Hf), <- Ew1.
    rewrite Hcmd. rewrite bool_decide_eq_false_2 by done.
    destruct (isTopicButtonText (msg_text m)) as [tp ok]. simpl in Hbtn. subst ok.
    unfold captureText, bind. rewrite Et. fold text.
    rewrite bool_decide_eq_false_2 by done.
    unfold Now. cbv beta iota. fold w3.
    rewrite AddItem_ok; [|simpl; congruence | simpl; by rewrite Hd2, Hs1].
    subst created. by rewrite Hk2, Hk1. }
  assert (Store w' = insert_row (new_row created chat topic text (Store w1)) (Store w1))
    as Ed'.
  { rewrite Ew'. simpl. by rewrite Hd2, Htop. }
  assert (sqlite_sequence (Store w1) < row_id (new_row created chat topic text (Store w1)))%Z
    as Hlt by (simpl; lia).
  assert (select_active chat topic (Store w') = select_active chat topic (Store w) ++ [it]) as Esel.
  { rewrite Ed', select_active_insert; [|done|done|].
    - rewrite Hsel1. subst it. unfold scan, new_row. simpl. by rewrite Hs1.
    - unfold selected, new_row. simpl.
      rewrite !andb_true_iff, orb_true_iff, !bool_decide_eq_true. auto. }
  assert (db_wf (Store w')) as Hwf' by (rewrite Ed'; by apply insert_row_wf).
  split; [|split; [|split; [|split]]].
  - rewrite Ew'. simpl. rewrite Hst. f_equal. destruct st. simpl in *. congruence.
  - rewrite Ed'. simpl. rewrite Hi1. unfold new_row. by rewrite Hs1.
  - unfold eval, ListActive, bind. rewrite statement_ok; [simpl; by rewrite Esel|].
    rewrite Ew'. simpl. congruence.
  - rewrite <- Esel. by apply select_active_sorted.
  - done.
Qed.

End Capture.

(** C9, as the claim words it, fails on surrounding white space: the text
    [" milk"] is captured and stored as ["milk"]. *)
Lemma capture_trims_counterexample :
  let m := {| msg_chat := 7; msg_text := " milk"; msg_command := None |} in
  row_text <$> items (Store (exec (handleMessage (UC := basicCyrillic) 0 m) blank))
    = ["milk"] ∧
  "milk" ≠ msg_text m.
Proof. split; [reflexivity | discriminate]. Qed.

Lemma busy_wf : db_wf (Store busy).
Proof. split; simpl; repeat constructor; simpl; lia. Qed.

Lemma capture_round_trip_witness :
  let w := with_clock (λ _, Minute + 7)%Z (exec (setTopic 0 7 TopicTasks) busy) in
  let m := {| msg_chat := 7; msg_text := "  pay rent "; msg_command := None |} in
  eval (ListActive 7 TopicTasks) (exec (handleMessage (UC := basicCyrillic) Minute m) w)
  = Ok [{| ID := 2; ChatID := 7; ItemTopic := TopicTasks; Text := "file taxes";
           CreatedAt := 0 |};
        {| ID := 6; ChatID := 7; ItemTopic := TopicTasks; Text := "pay rent";
           CreatedAt := Minute |}].
Proof.
  intros w m.
  destruct (capture_round_trip (UC := basicCyrillic) Minute m w) as (_ & _ & Hlist & _).
  - reflexivity.
  - discriminate.
  - reflexivity.
  - discriminate.
  - reflexivity.
  - apply busy_wf.
  - reflexivity.
  - exact Hlist.
Defined.

(** *** Completion callbacks *)

Lemma filter_all {A} (P : A → Prop) `{∀ x, Decision (P x)} (l : list A) :
  (∀ x, x ∈ l → P x) → filter P l = l.
Proof.
  induction l as [|x l IH]; intros Hall; [done|].
  rewrite filter_cons_True by (apply Hall; left). f_equal. apply IH.
  intros y Hy. apply Hall. by right.
Qed.

Lemma filter_twice {A} (P : A → Prop) `{∀ x, Decision (P x)} (l : list A) :
  filter P (filter P l) = filter P l.
Proof. apply filter_all. intros x Hx. by apply list_elem_of_filter in Hx as [? _]. Qed.

Lemma ensureChatID_apart chat : keeps apart_from_chat_id (ensureChatID chat).
Proof.
  unfold ensureChatID. apply keeps_bind; [apply keeps_Getenv | intros v].
  case_bool_decide; [|apply keeps_ret].
  apply keeps_bind; [|intros; apply keeps_ret].
  unfold SetKV. apply keeps_bind; [by apply keeps_statement | intros [e|]]; [apply keeps_ret|].
  apply keeps_bind; [|intros; apply keeps_ret].
  intros w. unfold apart_from_chat_id. simpl. by rewrite delete_insert_eq.
Qed.

Lemma DeleteItem_missing chat id w :
  (∀ r, r ∈ items (Store w) → ¬ resolves chat id r) →
  apart_from_chat_id (exec (DeleteItem chat id) w) = apart_from_chat_id w ∧
  ((statement w).1 = None → eval (DeleteItem chat id) w = Ok tt).
Proof.
  intros Hno. unfold exec, eval, DeleteItem, bind.
  pose proof (keeps_statement apart_from_chat_id (λ _ _, eq_refl) w) as Hk.
  pose proof (keeps_statement (λ w, items (Store w)) (λ _ _, eq_refl) w) as Hi.
  destruct (statement w) as [[e|] w1]; simpl in *; [split; [done | discriminate]|].
  split; [|done]. rewrite <- Hk. unfold apart_from_chat_id. simpl.
  rewrite filter_all; [done|].
  intros r Hr. rewrite Hi in Hr. specialize (Hno r Hr).
  rewrite negb_True, andb_True, !bool_decide_spec. exact Hno.
Qed.

Lemma callback_store_twice cq e d :
  callback_store cq e (callback_store cq e d) = callback_store cq e d.
Proof.
  assert (∀ d, persist_chat (cq_chat cq) e (persist_chat (cq_chat cq) e d)
               = persist_chat (cq_chat cq) e d) as Hp.
  { intros d'. unfold persist_chat. case_bool_decide; [|done].
    unfold set_kv. simpl. by rewrite insert_insert_eq. }
  assert (∀ p d, persist_chat (cq_chat cq) e (delete_where p d)
                 = delete_where p (persist_chat (cq_chat cq) e d)) as Hc.
  { intros p d'. unfold persist_chat. by case_bool_decide. }
  unfold callback_store. destruct (HasPrefix _ _); [|apply Hp].
  destruct (ParseInt _); [|apply Hp].
  rewrite Hc, Hp. unfold delete_where. simpl. by rewrite filter_twice.
Qed.

Lemma handleCallback_ok cq w :
  faults w = [] →
  ∃ out, exec (handleCallback cq) w
         = with_sent out (with_Store (callback_store cq (env w) (Store w)) w).
Proof.
  intros Hf. unfold exec, handleCallback. cbv zeta. unfold bind at 1.
  rewrite (ensureChatID_ok _ _ Hf). unfold callback_store. cbv zeta.
  destruct (HasPrefix _ _); [|eexists; reflexivity].
  unfold bind. destruct (ParseInt _); [|eexists; reflexivity].
  unfold DeleteItem, bind. rewrite statement_ok by done. eexists. reflexivity.
Qed.

(** C7, as the code has it. A completion callback whose identifier does not
    resolve to a row of the chat (or does not parse) leaves the rows of table
    [items], the id counter and the log as they were and changes table [kv]
    at most at key chat_id, where [ensureChatID] records the chat; deleting
    an unknown item is not an error; and when no statement fails, handling
    the same callback a second time leaves the store as the first did. *)
Theorem callback_unknown_item (cq : CallbackQuery) (w : World) :
  let chat := cq_chat cq in
  let data := TrimSpace (cq_data cq) in
  let w' := exec (handleCallback cq) w in
  ((∀ id r, ParseInt (TrimPrefix data "done:") = Some id →
            r ∈ items (Store w) → ¬ resolves chat id r) →
   items (Store w') = items (Store w) ∧
   sqlite_sequence (Store w') = sqlite_sequence (Store w) ∧
   delete "chat_id" (kv (Store w')) = delete "chat_id" (kv (Store w)) ∧
   logged w' = logged w) ∧
  (∀ id, (∀ r, r ∈ items (Store w) → ¬ resolves chat id r) →
         apart_from_chat_id (exec (DeleteItem chat id) w) = apart_from_chat_id w ∧
         ((statement w).1 = None → eval (DeleteItem chat id) w = Ok tt)) ∧
  (faults w = [] → Store (exec (handleCallback cq) w') = Store w').
Proof.
  intros chat data w'. split; [|split].
  - intros Hno.
    assert (apart_from_chat_id w' = apart_from_chat_id w) as E.
    { subst w'. unfold exec, handleCallback. cbv zeta. fold chat data.
      unfold bind at 1.
      pose proof (ensureChatID_apart chat w) as H1.
      destruct (ensureChatID chat w) as [[] w1]. simpl in H1. rewrite <- H1.
      assert (∀ r, r ∈ items (Store w1) → r ∈ items (Store w)) as Hi.
      { intros r. by injection H1 as -> _ _ _. }
      clear H1. destruct (HasPrefix data "done:"); [|done].
      unfold bind at 1 2.
      destruct (ParseInt (TrimPrefix data "done:")) as [id|] eqn:Ep; [|done].
      destruct (DeleteItem_missing chat id w1) as [H2 _]; [by eauto|].
      unfold exec in H2. destruct (DeleteItem chat id w1) as [r w2]. simpl in *.
      rewrite <- H2. done. }
    by injection E as -> -> -> ->.
  - intros id Hno. by apply DeleteItem_missing.
  - intros Hf. destruct (handleCallback_ok cq w Hf) as (out & E1).
    fold w' in E1. destruct (handleCallback_ok cq w') as (out' & E2).
    { by rewrite E1. }
    rewrite E2, E1. simpl. apply callback_store_twice.
Qed.

(** C7, as the claim words it, fails on table [kv]: chat 8 activates a
    completion button whose item does not exist while chat 7 is the
    persisted target chat; no row changes, but the store now names chat 8
    as the target chat. *)
Lemma callback_records_chat_counterexample :
  let cq := {| cq_id := "q"; cq_chat := 8; cq_message := 1; cq_data := "done:99" |} in
  (∀ r, r ∈ items (Store busy) → ¬ resolves 8 99 r) ∧
  kv (Store busy) !! "chat_id" = Some "7" ∧
  kv (Store (exec (handleCallback cq) busy)) !! "chat_id" = Some "8" ∧
  Store (exec (handleCallback cq) busy) ≠ Store busy.
Proof.
  split; [|split; [reflexivity|split; [reflexivity|]]].
  - apply (Forall_forall (λ r, ¬ resolves 8 99 r)).
    repeat constructor; intros [? ?]; discriminate.
  - intros E. apply (f_equal (λ d, kv d !! "chat_id")) in E. discriminate E.
Qed.

Lemma callback_unknown_item_witness :
  let cq := {| cq_id := "q"; cq_chat := 7; cq_message := 1; cq_data := "done:3" |} in
  items (Store (exec (handleCallback cq) busy)) = items (Store busy) ∧
  Store (exec (handleCallback cq) (exec (handleCallback cq) busy))
  = Store (exec (handleCallback cq) busy).
Proof.
  intros cq. destruct (callback_unknown_item cq busy) as (Hitems & _ & Htwice).
  split.
  - apply Hitems. intros id r [= <-].
    revert r. apply (Forall_forall (λ r, ¬ resolves 7 3 r)).
    repeat constructor; intros [? ?]; discriminate.
  - apply Htwice. reflexivity.
Defined.

(** *** Reminder buttons *)

Lemma singleReminderKeyboard_inj id1 id2 :
  singleReminderKeyboard id1 = singleReminderKeyboard id2 → id1 = id2.
Proof.
  unfold singleReminderKeyboard, FormatInt. intros E.
  apply (inj (String.app "done:")) in E. by apply (inj pretty) in E.
Qed.

(** The reminders of one broadcast carry pairwise different callback data. *)
Lemma reminder_buttons_distinct chat d :
  db_wf d →
  NoDup ((λ it, singleReminderKeyboard (ID it)) <$> select_active chat TopicReminders d).
Proof.
  intros Hd. pose proof (select_active_sorted chat TopicReminders d Hd) as Hs.
  induction Hs as [|it its _ IH Hit]; [constructor|].
  rewrite fmap_cons. constructor; [|exact IH].
  intros Hin. apply list_elem_of_fmap in Hin as (it' & E & Hin).
  apply singleReminderKeyboard_inj in E.
  rewrite Forall_forall in Hit. specialize (Hit _ Hin). lia.
Qed.

(** Pressing the button of the second reminder sent to chat 7 deletes that
    reminder and no other row. *)
Example reminder_button_deletes_its_item :
  let w := exec (sendReminders mar9_0800) busy in
  sent w !! 1%nat = Some (ReminderMessage 7 "НАПОМИНАНИЕ #4: buy milk" "done:4") ∧
  row_id <$> items (Store (exec (handleCallback
                                   {| cq_id := "q"; cq_chat := 7; cq_message := 2;
                                      cq_data := "done:4" |}) w))
  = [1; 2; 3; 5]%Z.
Proof. split; reflexivity. Qed.


(** * The chat id between dispatch and scheduler

    [ensureChatID] writes the chat id with [strconv.FormatInt]; the
    scheduler reads it back through [strings.TrimSpace] and [parseInt64],
    the callback handler reads the id of a button through
    [strconv.ParseInt]. *)

(** ** Byte strings *)

Lemma bytes_of_String c s : bytes_of (String c s) = N_of_ascii c :: bytes_of s.
Proof. reflexivity. Qed.

Lemma of_bytes_of s : of_bytes (bytes_of s) = s.
Proof.
  induction s as [|c s IH]; [done|].
  rewrite bytes_of_String. unfold of_bytes in *. cbn [fmap list_fmap string_of_list_ascii].
  by rewrite ascii_N_embedding, IH.
Qed.

Lemma bytes_of_inj s1 s2 : bytes_of s1 = bytes_of s2 → s1 = s2.
Proof. intros E. by rewrite <- (of_bytes_of s1), <- (of_bytes_of s2), E. Qed.

Lemma bytes_of_app s1 s2 : bytes_of (s1 +:+ s2) = bytes_of s1 ++ bytes_of s2.
Proof.
  induction s1 as [|c s1 IH]; [done|].
  change (String c s1 +:+ s2) with (String c (s1 +:+ s2)).
  rewrite !bytes_of_String, IH. done.
Qed.

(** Case analysis on the bytes that the trimming functions match on, as
    far as it takes to decide the match. *)
Ltac crack :=
  repeat match goal with
         | |- _ = _ => reflexivity
         | H : (_ ≤ _ < _)%N |- _ => exfalso; clear -H; lia
         | |- context [match ?x with _ => _ end] => is_var x; destruct x
         end.

(** No trimming starts or ends at a plain byte. *)
Lemma asciiSpace_plain b : plain b → asciiSpace b = false.
Proof. unfold plain, asciiSpace. intros Hb. crack. Qed.

Lemma trimLeftSpace_plain b r : plain b → trimLeftSpace (b :: r) = b :: r.
Proof.
  intros Hb. cbn [trimLeftSpace]. rewrite asciiSpace_plain by done.
  unfold plain in Hb. crack.
Qed.

Lemma trimLeftSpaceRev_plain b r : plain b → trimLeftSpaceRev (b :: r) = b :: r.
Proof.
  intros Hb. cbn [trimLeftSpaceRev]. rewrite asciiSpace_plain by done.
  unfold plain in Hb.
  rewrite !(proj2 (N.eqb_neq b _)) by lia.
  rewrite (proj2 (N.leb_gt 0x80 b)) by lia. cbn [andb orb].
  clear Hb. crack.
Qed.

Lemma TrimSpace_plain s b r b' r' :
  bytes_of s = b :: r → rev (bytes_of s) = b' :: r' → plain b → plain b' →
  TrimSpace s = s.
Proof.
  intros E E' Hb Hb'. unfold TrimSpace.
  rewrite E, trimLeftSpace_plain, <- E, E', trimLeftSpaceRev_plain, <- E' by done.
  by rewrite rev_involutive, of_bytes_of.
Qed.

Lemma TrimSpace_all_plain s : Forall plain (bytes_of s) → TrimSpace s = s.
Proof.
  intros Hs. destruct (bytes_of s) as [|b r] eqn:E.
  { apply (bytes_of_inj s "") in E as ->. reflexivity. }
  assert (Forall plain (rev (bytes_of s))) as Hr.
  { rewrite E. by apply Forall_rev. }
  destruct (rev (bytes_of s)) as [|b' r'] eqn:E'.
  { apply (f_equal (@rev _)) in E'. rewrite rev_involutive, E in E'. discriminate E'. }
  apply (TrimSpace_plain s b r b' r'); try done.
  - by inversion Hs.
  - by inversion Hr.
Qed.

Lemma substring_all s : substring 0 (String.length s) s = s.
Proof. induction s as [|c s IH]; [done|]. simpl. by rewrite IH. Qed.

Lemma prefix_app p s : String.prefix p (p +:+ s) = true.
Proof.
  induction p as [|c p IH]; [by destruct s|].
  change (String c p +:+ s) with (String c (p +:+ s)). simpl.
  by destruct (ascii_dec c c).
Qed.

Lemma TrimPrefix_app p s : TrimPrefix (p +:+ s) p = s.
Proof.
  unfold TrimPrefix, HasPrefix. rewrite prefix_app.
  induction p as [|c p IH].
  { change ("" +:+ s) with s. simpl. rewrite Nat.sub_0_r. apply substring_all. }
  change (String c p +:+ s) with (String c (p +:+ s)). simpl. apply IH.
Qed.

(** ** Decimal numerals *)

Lemma pretty_N_char_digit x :
  (x < 10)%N →
  isDigit (N_of_ascii (pretty_N_char x)) ∧
  digitVal (N_of_ascii (pretty_N_char x)) = Some (Z.of_N x).
Proof.
  intros Hx.
  assert (x = 0 ∨ x = 1 ∨ x = 2 ∨ x = 3 ∨ x = 4 ∨ x = 5 ∨ x = 6 ∨ x = 7 ∨ x = 8 ∨ x = 9)%N
    as Hcases by lia.
  unfold isDigit.
  repeat (destruct Hcases as [-> | Hcases]); try subst x; (split; [simpl; lia | reflexivity]).
Qed.

Lemma pretty_N_go_digits x : ∀ s,
  Forall isDigit (bytes_of s) → Forall isDigit (bytes_of (pretty_N_go x s)).
Proof.
  induction (N.lt_wf_0 x) as [x _ IH]. intros s Hs.
  destruct (decide (x = 0)%N) as [-> | Hx]; [by rewrite pretty_N_go_0|].
  rewrite pretty_N_go_step by lia. apply IH.
  { apply N.div_lt; lia. }
  rewrite bytes_of_String. constructor; [|done].
  apply pretty_N_char_digit, N.mod_lt. done.
Qed.

Lemma pretty_N_go_nonempty x s : (0 < x)%N → pretty_N_go x s ≠ "".
Proof.
  induction (N.lt_wf_0 x) as [x _ IH] in s |- *. intros Hx.
  rewrite pretty_N_go_step by done.
  destruct (decide (x `div` 10 = 0)%N) as [-> | Hd]; [by rewrite pretty_N_go_0|].
  apply IH; [apply N.div_lt; lia | by apply N.neq_0_lt_0].
Qed.

Lemma parseDigits_pretty_N_go x :
  ∃ k, ∀ s acc, parseDigits acc (bytes_of (pretty_N_go x s)) =
                parseDigits (acc * k + Z.of_N x)%Z (bytes_of s).
Proof.
  induction (N.lt_wf_0 x) as [x _ IH].
  destruct (decide (x = 0)%N) as [-> | Hx].
  { exists 1%Z. intros s acc. rewrite pretty_N_go_0. f_equal. lia. }
  destruct (IH (x `div` 10)%N) as [k Hk]; [apply N.div_lt; lia|].
  exists (k * 10)%Z. intros s acc.
  rewrite pretty_N_go_step, Hk, bytes_of_String by lia.
  cbn [parseDigits].
  destruct (pretty_N_char_digit (x `mod` 10)) as [_ ->]; [by apply N.mod_lt|].
  f_equal.
  assert (Z.of_N x = Z.of_N (x `div` 10) * 10 + Z.of_N (x `mod` 10))%Z as Ex.
  { pose proof (N.div_mod x 10 ltac:(done)). lia. }
  rewrite Z.mul_add_distr_r, <- Z.add_assoc, <- Ex. f_equal. ring.
Qed.

Lemma parseDigits_pretty p :
  parseDigits 0 (bytes_of (pretty (N.pos p))) = Some (Z.pos p).
Proof.
  unfold pretty, pretty_N. rewrite decide_False by done.
  destruct (parseDigits_pretty_N_go (N.pos p)) as [k ->]. done.
Qed.

(** ** [int64] arithmetic *)

Lemma wrap64_id n : (minInt64 ≤ n ≤ maxInt64)%Z → wrap64 n = n.
Proof.
  unfold wrap64, minInt64, maxInt64. intros Hn.
  rewrite Z.mod_small; lia.
Qed.

Lemma wrap64_mod n : (wrap64 n mod 2 ^ 64 = n mod 2 ^ 64)%Z.
Proof.
  unfold wrap64.
  rewrite <- Zminus_mod_idemp_l, Z.mod_mod by lia.
  rewrite Zminus_mod_idemp_l. f_equal. lia.
Qed.

Lemma wrap64_congr n m : (n mod 2 ^ 64 = m mod 2 ^ 64)%Z → wrap64 n = wrap64 m.
Proof.
  unfold wrap64. intros E.
  rewrite <- (Zplus_mod_idemp_l n), <- (Zplus_mod_idemp_l m), E. done.
Qed.

Lemma wrap64_step n d : wrap64 (wrap64 n * 10 + d) = wrap64 (n * 10 + d).
Proof.
  apply wrap64_congr.
  rewrite <- Zplus_mod_idemp_l, <- Zmult_mod_idemp_l, wrap64_mod.
  by rewrite Zmult_mod_idemp_l, Zplus_mod_idemp_l.
Qed.

Lemma wrap64_opp n : wrap64 (- wrap64 n) = wrap64 (- n).
Proof.
  apply wrap64_congr.
  rewrite <- (Z.sub_0_l (wrap64 n)), <- (Z.sub_0_l n).
  rewrite <- Zminus_mod_idemp_r, wrap64_mod.
  by rewrite Zminus_mod_idemp_r.
Qed.

(** The loop of [parseInt64] computes, modulo 2^64, the number its digits
    spell. *)
Lemma parseInt64_loop_wrap bs : ∀ acc,
  parseInt64_loop (wrap64 acc) bs =
  match parseDigits acc bs with
  | Some v => (wrap64 v, true)
  | None => (0%Z, false)
  end.
Proof.
  induction bs as [|b r IH]; intros acc; [done|].
  cbn [parseInt64_loop parseDigits]. unfold digitVal.
  destruct (N.ltb_spec b 0x30), (N.ltb_spec 0x39 b),
    (N.leb_spec 0x30 b), (N.leb_spec b 0x39); try lia; cbn [andb orb]; try done.
  by rewrite wrap64_step, IH.
Qed.

Lemma isDigit_plain b : isDigit b → plain b.
Proof. unfold isDigit, plain. lia. Qed.

Lemma pretty_pos_digits p :
  ∃ c s, pretty (N.pos p) = String c s ∧ isDigit (N_of_ascii c) ∧
         Forall isDigit (bytes_of s).
Proof.
  pose proof (pretty_N_go_digits (N.pos p) "" (Forall_nil_2 _)) as Hd.
  pose proof (pretty_N_go_nonempty (N.pos p) "" eq_refl) as Hne.
  unfold pretty, pretty_N. rewrite decide_False by done.
  destruct (pretty_N_go (N.pos p) "") as [|c s]; [done|].
  rewrite bytes_of_String in Hd. inversion Hd; subst. by exists c, s.
Qed.

Lemma FormatInt_plain n : Forall plain (bytes_of (FormatInt n)).
Proof.
  assert (∀ p, Forall plain (bytes_of (pretty (N.pos p)))) as Hpos.
  { intros p. destruct (pretty_pos_digits p) as (c & s & -> & Hc & Hs).
    rewrite bytes_of_String. constructor; [by apply isDigit_plain|].
    eapply Forall_impl; [done|]. apply isDigit_plain. }
  destruct n as [|p|p]; unfold FormatInt, pretty, pretty_Z.
  - repeat constructor; unfold plain; simpl; lia.
  - apply Hpos.
  - rewrite bytes_of_app. apply Forall_app. split; [|apply Hpos].
    repeat constructor; unfold plain; simpl; lia.
Qed.

Lemma TrimSpace_FormatInt n : TrimSpace (FormatInt n) = FormatInt n.
Proof. apply TrimSpace_all_plain, FormatInt_plain. Qed.

Lemma HasPrefix_digit c s p : isDigit (N_of_ascii c) → HasPrefix (String c s) (String "-" p) = false.
Proof.
  intros Hc. unfold HasPrefix. cbn [String.prefix].
  destruct (ascii_dec "-" c) as [<- | _]; [|done].
  unfold isDigit in Hc. simpl in Hc. lia.
Qed.

Lemma parseInt64_FormatInt n :
  (minInt64 ≤ n ≤ maxInt64)%Z → parseInt64 (FormatInt n) = (n, true).
Proof.
  intros Hn. destruct n as [|p|p]; [done|..]; unfold FormatInt, pretty, pretty_Z.
  - destruct (pretty_pos_digits p) as (c & s & E & Hc & Hs).
    change (pretty p) with (pretty (N.pos p)).
    assert (HasPrefix (pretty (N.pos p)) "-" = false) as Hp.
    { rewrite E. by apply HasPrefix_digit. }
    unfold parseInt64. rewrite bool_decide_eq_false_2, Hp by (by rewrite E).
    change 0%Z with (wrap64 0) at 1.
    rewrite parseInt64_loop_wrap, parseDigits_pretty. by rewrite wrap64_id.
  - change (pretty p) with (pretty (N.pos p)).
    unfold parseInt64. rewrite bool_decide_eq_false_2 by done.
    rewrite TrimPrefix_app. unfold HasPrefix. rewrite !(prefix_app "-").
    change 0%Z with (wrap64 0) at 1.
    rewrite parseInt64_loop_wrap, parseDigits_pretty, wrap64_opp.
    rewrite wrap64_id; [done | lia].
Qed.

Lemma ParseInt_FormatInt n :
  (minInt64 ≤ n ≤ maxInt64)%Z → ParseInt (FormatInt n) = Some n.
Proof.
  intros Hn. destruct n as [|p|p]; [done|..]; unfold FormatInt, pretty, pretty_Z.
  - change (pretty p) with (pretty (N.pos p)).
    pose proof (parseDigits_pretty p) as Hp.
    destruct (pretty_pos_digits p) as (c & s & E & Hc & Hs).
    unfold ParseInt. rewrite E in *. rewrite bytes_of_String in *.
    unfold isDigit in Hc.
    rewrite !(proj2 (N.eqb_neq (N_of_ascii c) _)) by lia.
    cbv beta iota zeta. rewrite Hp.
    destruct (Z.leb_spec minInt64 (Z.pos p)), (Z.leb_spec (Z.pos p) maxInt64); done || lia.
  - change (pretty p) with (pretty (N.pos p)).
    pose proof (parseDigits_pretty p) as Hp.
    destruct (pretty_pos_digits p) as (c & s & E & Hc & Hs).
    unfold ParseInt. rewrite E in *.
    change ("-" +:+ String c s) with (String "-" (String c s)).
    rewrite !bytes_of_String in *.
    change (N_of_ascii "-") with 0x2D%N.
    change (0x2D =? 0x2B)%N with false. change (0x2D =? 0x2D)%N with true.
    cbv beta iota zeta. rewrite Hp.
    destruct (Z.leb_spec minInt64 (- Z.pos p)), (Z.leb_spec (- Z.pos p) maxInt64); done || lia.
Qed.


(** ** The chat learned by dispatch is the scheduler's target *)

Lemma persisted_keeps {A} v e (c : M A) :
  keeps (λ w, (kv (Store w), faults w, env w)) c → preserves (target_persisted v e) c.
Proof.
  intros Hc w (Hk & Hf & He). specialize (Hc w). simpl in Hc.
  injection Hc as E1 E2 E3. unfold target_persisted. by rewrite E1, E2, E3.
Qed.

Lemma persisted_statement v e : preserves (target_persisted v e) statement.
Proof. intros w Hw. rewrite statement_ok; [done | apply Hw]. Qed.

Lemma persisted_modifyDB v e g :
  (∀ d, kv (g d) = kv d) → preserves (target_persisted v e) (modifyDB g).
Proof. intros Hg w (Hk & Hf & He). split; [|done]. simpl. by rewrite Hg. Qed.

(** Walks through a computation that does not write key chat_id. *)
Ltac walk_persisted :=
  repeat first
    [ apply preserves_ret
    | apply persisted_statement
    | by apply persisted_modifyDB
    | solve [apply persisted_keeps; walk_frame]
    | apply preserves_bind; [| intros ?]
    | progress cbv zeta
    | split_match ].

Section Target.

Context {UC : UnicodeCase}.

Lemma persisted_handleMessage_rest v e now m :
  preserves (target_persisted v e)
    (match msg_command m with
     | Some c => handleCommand now (msg_chat m) c
     | None =>
         if bool_decide (msg_text m = "") then send (msg_chat m) "Понимаю только текстовые сообщения."
         else
           match isTopicButtonText (msg_text m) with
           | (topic, true) => handleButton now (msg_chat m) (msg_text m) topic
           | (_, false) => captureText now (msg_chat m) (msg_text m)
           end
     end).
Proof.
  unfold handleCommand, handleButton, captureText, ListActive, AddItem,
    sendRemindersOneByOne, getState, touchState, setTopic, resetToMenu, send.
  walk_persisted.
Qed.

Lemma persisted_handleCallback_rest v e cq :
  preserves (target_persisted v e)
    (if HasPrefix (TrimSpace (cq_data cq)) "done:" then
       (match ParseInt (TrimPrefix (TrimSpace (cq_data cq)) "done:") with
        | Some id => DeleteItem (cq_chat cq) id ;;; ret tt
        | None => ret tt
        end) ;;;
       Send (CallbackAnswer (cq_id cq) "Удалено") ;;;
       Send (EditText (cq_chat cq) (cq_message cq) "✅ Удалено") ;;;
       Send (EditMarkup (cq_chat cq) (cq_message cq))
     else Send (CallbackAnswer (cq_id cq) "")).
Proof. unfold DeleteItem. walk_persisted. Qed.

Lemma ensureChatID_persists chat w :
  TrimSpace (default "" (env w !! "CHAT_ID")) = "" → faults w = [] →
  target_persisted (FormatInt chat) (env w) (exec (ensureChatID chat) w).
Proof.
  intros He Hf. unfold exec. rewrite ensureChatID_ok by done.
  unfold persist_chat. rewrite bool_decide_eq_true_2 by done.
  split; [|done]. simpl. apply lookup_insert_eq.
Qed.

Lemma targetChatID_persisted chat w :
  (minInt64 ≤ chat ≤ maxInt64)%Z →
  TrimSpace (default "" (env w !! "CHAT_ID")) = "" →
  target_persisted (FormatInt chat) (env w) w →
  eval targetChatID w = (chat, true).
Proof.
  intros Hc He (Hk & Hf & _).
  unfold eval, targetChatID, Getenv, bind, get, ret. simpl. rewrite He.
  change (parseInt64 "") with (0%Z, false). cbv beta iota.
  unfold GetKV, bind, get, ret. rewrite statement_ok by done. simpl. rewrite Hk. simpl.
  rewrite TrimSpace_FormatInt. by rewrite parseInt64_FormatInt.
Qed.

Lemma persisted_handleMessage v e now m w :
  target_persisted v e (exec (ensureChatID (msg_chat m)) w) →
  target_persisted v e (exec (handleMessage now m) w).
Proof.
  unfold exec, handleMessage, bind. cbv zeta.
  destruct (ensureChatID (msg_chat m) w) as [[] w1]. simpl.
  apply persisted_handleMessage_rest.
Qed.

Lemma persisted_handleCallback v e cq w :
  target_persisted v e (exec (ensureChatID (cq_chat cq)) w) →
  target_persisted v e (exec (handleCallback cq) w).
Proof.
  unfold exec, handleCallback. unfold bind at 1. cbv zeta.
  destruct (ensureChatID (cq_chat cq) w) as [[] w1]. simpl.
  apply persisted_handleCallback_rest.
Qed.

(** X1. When CHAT_ID is unset or blank and no statement fails, handling a
    message or a callback from a chat (whose id is an [int64]) makes that
    chat the scheduler's target: [targetChatID] afterwards answers its id,
    read back from table kv as [ensureChatID] wrote it. *)
Theorem learned_chat_is_target (chat : Z) (w : World) :
  (minInt64 ≤ chat ≤ maxInt64)%Z →
  TrimSpace (default "" (env w !! "CHAT_ID")) = "" →
  faults w = [] →
  (∀ now m, msg_chat m = chat →
     eval targetChatID (exec (handleMessage now m) w) = (chat, true)) ∧
  (∀ cq, cq_chat cq = chat →
     eval targetChatID (exec (handleCallback cq) w) = (chat, true)).
Proof.
  intros Hc He Hf.
  pose proof (ensureChatID_persists chat w He Hf) as Hp.
  split.
  - intros now m <-. apply (persisted_handleMessage _ _ now) in Hp.
    destruct Hp as (Hk & Hf' & He').
    apply targetChatID_persisted; [done | by rewrite He' | by rewrite He'].
  - intros cq <-. apply persisted_handleCallback in Hp.
    destruct Hp as (Hk & Hf' & He').
    apply targetChatID_persisted; [done | by rewrite He' | by rewrite He'].
Qed.

End Target.

Lemma learned_chat_is_target_witness :
  eval targetChatID
    (exec (handleMessage (UC := basicCyrillic) 0
             {| msg_chat := -1001234; msg_text := "hello"; msg_command := None |}) blank)
  = (-1001234, true)%Z.
Proof.
  destruct (learned_chat_is_target (UC := basicCyrillic) (-1001234) blank) as [H _].
  - unfold minInt64, maxInt64. lia.
  - reflexivity.
  - reflexivity.
  - by apply H.
Defined.

(** ** A reminder's button deletes that reminder *)

Lemma singleReminderKeyboard_plain id : Forall plain (bytes_of (singleReminderKeyboard id)).
Proof.
  unfold singleReminderKeyboard. rewrite bytes_of_app. apply Forall_app. split.
  - repeat constructor; unfold plain; simpl; lia.
  - apply FormatInt_plain.
Qed.

Lemma filter_not_resolves chat id (l : list Row) :
  filter (λ r, negb (bool_decide (row_chat_id r = chat) && bool_decide (row_id r = id))) l
  = filter (λ r, ¬ resolves chat id r) l.
Proof.
  induction l as [|r l IH]; [done|].
  rewrite !filter_cons, IH. unfold resolves.
  destruct (decide (row_chat_id r = chat)), (decide (row_id r = id)).
  - rewrite !bool_decide_eq_true_2 by done. simpl.
    rewrite decide_False by (intros H; by apply H). done.
  - rewrite (bool_decide_eq_false_2 (row_id r = id)) by done.
    rewrite andb_false_r. simpl. rewrite decide_True by (intros [_ ?]; done). done.
  - rewrite (bool_decide_eq_false_2 (row_chat_id r = _)) by done.
    simpl. rewrite decide_True by (intros [? _]; done). done.
  - rewrite (bool_decide_eq_false_2 (row_chat_id r = _)) by done.
    simpl. rewrite decide_True by (intros [? _]; done). done.
Qed.

Lemma callback_store_button cq id e d :
  (minInt64 ≤ id ≤ maxInt64)%Z → cq_data cq = singleReminderKeyboard id →
  items (callback_store cq e d) =
  filter (λ r, ¬ resolves (cq_chat cq) id r) (items d).
Proof.
  intros Hid Hdata. unfold callback_store. rewrite Hdata.
  rewrite TrimSpace_all_plain by apply singleReminderKeyboard_plain.
  unfold singleReminderKeyboard, HasPrefix. rewrite prefix_app, TrimPrefix_app.
  rewrite ParseInt_FormatInt by done.
  assert (items (persist_chat (cq_chat cq) e d) = items d) as Hi.
  { unfold persist_chat. by case_bool_decide. }
  unfold delete_where. cbn [items]. rewrite Hi. apply filter_not_resolves.
Qed.

Lemma select_active_delete chat id topic (l : list Row) :
  scan <$> filter (λ r, selected chat topic r) (filter (λ r, ¬ resolves chat id r) l) =
  filter (λ it, ID it ≠ id) (scan <$> filter (λ r, selected chat topic r) l).
Proof.
  induction l as [|r l IH]; [done|].
  rewrite (filter_cons _ r l) at 1.
  rewrite (filter_cons (λ r, selected chat topic r) r l).
  destruct (decide (selected chat topic r)) as [Hsel | Hsel].
  - assert (row_chat_id r = chat) as Hc.
    { unfold selected in Hsel. apply Is_true_true in Hsel.
      apply andb_true_iff in Hsel as [Hsel _]. apply andb_true_iff in Hsel as [Hsel _].
      by apply bool_decide_eq_true in Hsel. }
    rewrite fmap_cons, filter_cons. change (ID (scan r)) with (row_id r).
    unfold resolves at 1.
    destruct (decide (row_id r = id)) as [Hid | Hid].
    + rewrite decide_False by (intros H; by apply H).
      rewrite decide_False by (intros H; by apply H). apply IH.
    + rewrite decide_True by (intros [_ ?]; done).
      rewrite decide_True by done.
      rewrite filter_cons, decide_True by done. rewrite fmap_cons. by rewrite IH.
  - destruct (decide (¬ resolves chat id r)); [|apply IH].
    rewrite filter_cons, decide_False by done. apply IH.
Qed.

(** X2. The callback data that [singleReminderKeyboard] puts on the button
    of an item deletes that item: handled for a chat while the store works,
    it removes exactly the rows of that chat with that id; and on a
    well-formed store every listing of the chat afterwards is the listing
    before without that id, in the same order. *)
Theorem reminder_button_round_trip (cq : CallbackQuery) (id : Z) (w : World) :
  (minInt64 ≤ id ≤ maxInt64)%Z →
  cq_data cq = singleReminderKeyboard id →
  faults w = [] →
  let chat := cq_chat cq in
  let w' := exec (handleCallback cq) w in
  items (Store w') = filter (λ r, ¬ resolves chat id r) (items (Store w)) ∧
  (db_wf (Store w) →
   ∀ topic, select_active chat topic (Store w') =
            filter (λ it, ID it ≠ id) (select_active chat topic (Store w))).
Proof.
  intros Hid Hdata Hf chat w'.
  destruct (handleCallback_ok cq w Hf) as [out Hw].
  assert (items (Store w') = filter (λ r, ¬ resolves chat id r) (items (Store w))) as Hitems.
  { subst w'. rewrite Hw. simpl. by apply callback_store_button. }
  split; [done|]. intros Hwf topic.
  assert (db_wf (Store w')) as Hwf'.
  { by apply store_wf_handleCallback. }
  rewrite !select_active_wf by done. rewrite Hitems. apply select_active_delete.
Qed.

Lemma reminder_button_round_trip_witness :
  let cq := {| cq_id := "q"; cq_chat := 7; cq_message := 2;
               cq_data := singleReminderKeyboard 4 |} in
  row_id <$> items (Store (exec (handleCallback cq) busy)) = [1; 2; 3; 5]%Z.
Proof.
  intros cq.
  destruct (reminder_button_round_trip cq 4 busy) as [H _].
  - unfold minInt64, maxInt64. lia.
  - reflexivity.
  - reflexivity.
  - rewrite H. reflexivity.
Defined.

(** ** [parseInt64] against [strconv.ParseInt] *)

Lemma N_of_ascii_eqb c (a : ascii) :
  (N_of_ascii c =? N_of_ascii a)%N = bool_decide (c = a).
Proof.
  destruct (decide (c = a)) as [-> | Hne].
  - by rewrite N.eqb_refl, bool_decide_eq_true_2.
  - rewrite bool_decide_eq_false_2 by done. apply N.eqb_neq. intros E.
    apply Hne. by rewrite <- (ascii_N_embedding c), <- (ascii_N_embedding a), E.
Qed.

Lemma HasPrefix_head c s a :
  HasPrefix (String c s) (String a "") = bool_decide (c = a).
Proof.
  unfold HasPrefix. cbn [String.prefix].
  destruct (ascii_dec a c) as [-> | Hne].
  - rewrite bool_decide_eq_true_2 by done. by destruct s.
  - by rewrite bool_decide_eq_false_2.
Qed.

Lemma parseInt64_loop_0 bs :
  parseInt64_loop 0 bs =
  match parseDigits 0 bs with
  | Some v => (wrap64 v, true)
  | None => (0%Z, false)
  end.
Proof. apply (parseInt64_loop_wrap bs 0). Qed.

(** X3. On every string without a leading plus sign that
    [strconv.ParseInt] accepts, the scheduler's own [parseInt64] answers the
    same number. *)
Theorem parseInt64_agrees (s : string) (n : Z) :
  ParseInt s = Some n → HasPrefix s "+" = false → parseInt64 s = (n, true).
Proof.
  destruct s as [|c s]; [done|]. intros Hp Hplus.
  rewrite HasPrefix_head in Hplus.
  unfold ParseInt in Hp. rewrite bytes_of_String in Hp.
  change 0x2B%N with (N_of_ascii "+") in Hp. change 0x2D%N with (N_of_ascii "-") in Hp.
  rewrite !N_of_ascii_eqb, Hplus in Hp.
  unfold parseInt64. rewrite bool_decide_eq_false_2 by done.
  rewrite HasPrefix_head.
  destruct (decide (c = "-"%char)) as [-> | Hc].
  - rewrite bool_decide_eq_true_2 in * by done. cbv beta iota zeta in Hp.
    change (String "-" s) with ("-" +:+ s). rewrite TrimPrefix_app, parseInt64_loop_0.
    destruct (bytes_of s) as [|b r] eqn:E; [done|].
    destruct (parseDigits 0 (b :: r)) as [un|]; [|done].
    destruct (Z.leb_spec minInt64 (- un)), (Z.leb_spec (- un) maxInt64);
      simpl in Hp; try done.
    injection Hp as <-. rewrite wrap64_opp, wrap64_id; [done | lia].
  - rewrite bool_decide_eq_false_2 in * by done. cbv beta iota zeta in Hp.
    rewrite parseInt64_loop_0, bytes_of_String.
    destruct (parseDigits 0 (N_of_ascii c :: bytes_of s)) as [un|]; [|done].
    destruct (Z.leb_spec minInt64 un), (Z.leb_spec un maxInt64);
      simpl in Hp; try done.
    injection Hp as <-. rewrite wrap64_id; [done | lia].
Qed.

Lemma parseInt64_agrees_witness : parseInt64 "-9223372036854775808" = (minInt64, true).
Proof. apply parseInt64_agrees; reflexivity. Defined.

(** X4. What [parseInt64] accepts and what it answers. It accepts exactly
    the non-empty strings that, after one optional leading minus sign,
    consist of decimal digits only (possibly none: a lone minus sign is
    accepted); there is no range check: the answer is the number the digits
    spell, negated after a minus sign, wrapped around into [int64]. *)
Theorem parseInt64_accepts (s : string) :
  let neg := HasPrefix s "-" in
  let body := bytes_of (if neg then TrimPrefix s "-" else s) in
  ((parseInt64 s).2 = true ↔ s ≠ "" ∧ Forall isDigit body) ∧
  (∀ v, s ≠ "" → parseDigits 0 body = Some v →
        parseInt64 s = (wrap64 (if neg then - v else v), true)).
Proof.
  intros neg body.
  assert (∀ bs n, (parseInt64_loop n bs).2 = true ↔ Forall isDigit bs) as Hloop.
  { induction bs as [|b r IH]; intros n; cbn [parseInt64_loop].
    { split; [constructor | done]. }
    destruct (N.ltb_spec b 0x30), (N.ltb_spec 0x39 b); cbn [orb];
      try (split; [done | intros Hd; inversion Hd; subst; unfold isDigit in *; lia]).
    rewrite IH. split; [intros Hr; constructor; [unfold isDigit; lia | done]|].
    intros Hd. by inversion Hd. }
  split.
  - unfold parseInt64. case_bool_decide as Hs.
    { simpl. split; [done | intros [? _]; done]. }
    fold neg. fold body. specialize (Hloop body 0%Z).
    destruct (parseInt64_loop 0 body) as [n []]; simpl in *.
    + split; [intros _; split; [done | by apply Hloop] | done].
    + split; [done | intros [_ Hd]; by apply Hloop].
  - intros v Hs Hv. unfold parseInt64. rewrite bool_decide_eq_false_2 by done.
    fold neg. fold body. rewrite parseInt64_loop_0, Hv.
    destruct neg; [by rewrite wrap64_opp | done].
Qed.

Lemma parseInt64_accepts_witness :
  parseInt64 "-" = (0%Z, true) ∧
  parseInt64 "9223372036854775808" = (minInt64, true) ∧
  ParseInt "9223372036854775808" = None.
Proof.
  destruct (parseInt64_accepts "-") as [_ H1].
  destruct (parseInt64_accepts "9223372036854775808") as [_ H2].
  split; [|split].
  - apply (H1 0%Z); [discriminate | reflexivity].
  - apply (H2 9223372036854775808%Z); [discriminate | reflexivity].
  - reflexivity.
Defined.

(** ** [ListActive] *)

(** X5. When its query succeeds, [ListActive] answers exactly the rows of
    table items that belong to the chat, are active and, unless the topic
    asked for is the empty string, have that topic; it answers them in
    non-decreasing order of id, and leaves the store as it was. *)
Theorem ListActive_sorted_selection (chat : Z) (topic : string) (w : World) :
  (statement w).1 = None →
  ∃ its, eval (ListActive chat topic) w = Ok its ∧
    StronglySorted (λ a b, ID a ≤ ID b)%Z its ∧
    its ≡ₚ scan <$> filter (λ r, selected chat topic r) (items (Store w)) ∧
    (∀ it, it ∈ its → ChatID it = chat ∧ (topic = "" ∨ ItemTopic it = topic)) ∧
    Store (exec (ListActive chat topic) w) = Store w.
Proof.
  intros Hs. exists (select_active chat topic (Store w)).
  assert (select_active chat topic (Store w)
          ≡ₚ scan <$> filter (λ r, selected chat topic r) (items (Store w))) as Hperm.
  { unfold select_active. by rewrite order_by_id_Permutation. }
  split; [|split; [|split; [done|split]]].
  - unfold eval, ListActive, bind. destruct (statement w) as [f w1] eqn:E.
    simpl in Hs. subst f. simpl. do 2 f_equal.
    unfold statement in E. destruct (faults w) as [|f fs]; by inversion E.
  - unfold select_active.
    generalize (order_by_id_Sorted (filter (λ r, selected chat topic r) (items (Store w)))).
    generalize (order_by_id (filter (λ r, selected chat topic r) (items (Store w)))).
    intros l Hl. induction Hl as [|r l Hl IH Hr]; [constructor|].
    rewrite fmap_cons. constructor; [done|].
    apply Forall_fmap. eapply Forall_impl; [exact Hr|]. done.
  - intros it Hit. rewrite Hperm in Hit.
    apply list_elem_of_fmap in Hit as (r & -> & Hr).
    apply list_elem_of_filter in Hr as [Hsel _]. unfold selected in Hsel.
    apply Is_true_true in Hsel.
    apply andb_true_iff in Hsel as [Hsel Ht]. apply andb_true_iff in Hsel as [Hc _].
    apply bool_decide_eq_true in Hc. split; [done|].
    apply orb_true_iff in Ht as [Ht | Ht]; apply bool_decide_eq_true in Ht; auto.
  - unfold ListActive. pose proof (keeps_statement Store (λ _ _, eq_refl) w) as Hk.
    unfold exec, bind. destruct (statement w) as [[e|] w1]; simpl in *; done.
Qed.

Lemma ListActive_sorted_selection_witness :
  ∃ its, eval (ListActive 7 "") busy = Ok its ∧ ID <$> its = [1; 2; 4; 5]%Z.
Proof.
  destruct (ListActive_sorted_selection 7 "" busy eq_refl) as (its & E & _).
  exists its. split; [done|]. vm_compute in E. injection E as <-. reflexivity.
Defined.

(** ** Invariants of the running program *)

Section Program.

Context {UC : UnicodeCase}.

Lemma preserves_handleUpdate (P : World → Prop) now upd :
  (∀ m, preserves P (handleMessage now m)) →
  (∀ cq, preserves P (handleCallback cq)) →
  preserves P (handleUpdate now upd).
Proof.
  intros Hm Hc. unfold handleUpdate.
  apply preserves_bind; [|intros _]; split_match; auto using preserves_ret.
Qed.

Lemma preserves_check (P : World → Prop) s k t now l :
  preserves P (action_of s k now) → P (world l) → P (world (check s k t now l)).
Proof.
  intros Ha Hl. unfold check. cbv zeta. split_match; [|done].
  simpl. by apply Ha.
Qed.

Lemma preserves_tick (P : World → Prop) s now l :
  (∀ k, preserves P (action_of s k now)) → P (world l) → P (world (tick s now l)).
Proof.
  intros Ha Hl. unfold tick. apply preserves_check; [done|].
  assert (∀ ts l, P (world l) →
            P (world (foldl (λ l t, check s Reminders t now l) l ts))) as Hfold.
  { induction ts as [|t ts IH]; intros l' Hl'; [done|].
    simpl. apply IH. by apply preserves_check. }
  apply Hfold. by apply preserves_check.
Qed.

(** What every handler and every trigger action preserves holds
    throughout a run of the two goroutines. *)
Lemma preserves_loop (P : World → Prop) s steps l :
  (∀ now m, preserves P (handleMessage now m)) →
  (∀ cq, preserves P (handleCallback cq)) →
  (∀ k now, preserves P (action_of s k now)) →
  Forall interleaved steps → P (world l) → P (world (loop s steps l)).
Proof.
  intros Hm Hc Ha Hsteps. revert l.
  induction Hsteps as [|e steps He _ IH]; intros l Hl; [done|].
  unfold loop. simpl. apply IH. destruct He as [now | now upd]; simpl.
  - by apply preserves_tick.
  - by apply (preserves_handleUpdate P now upd).
Qed.

Lemma ChatStates_action s k now : keeps ChatStates (action_of s k now).
Proof.
  destruct k; simpl;
    unfold sendMorningDigest, sendReminders, wipeReminders, targetChatID, GetKV,
      ListActive, DeleteAllReminders;
    walk_frame.
Qed.

Lemma StronglySorted_lt_NoDup (l : list Row) :
  StronglySorted (λ r1 r2, row_id r1 < row_id r2)%Z l → NoDup (row_id <$> l).
Proof.
  induction 1 as [|r l _ IH Hr]; [constructor|].
  rewrite fmap_cons. constructor; [|done].
  intros Hin. apply list_elem_of_fmap in Hin as (r' & E & Hr').
  rewrite Forall_forall in Hr. specialize (Hr _ Hr'). lia.
Qed.

(** X6. Throughout every run of the two goroutines (updates served by
    [run] and ticks of the scheduler, in any order) that starts from a
    well-formed store and a valid session table, the store stays
    well-formed, every session's topic stays one of the four topics, and no
    two rows of table items share an id. *)
Theorem reachable_worlds_wf (s : Scheduler) (steps : list Step) (w : World) :
  Forall interleaved steps → store_wf w → sessions_ok w →
  let w' := world (loop s steps (start w)) in
  store_wf w' ∧ sessions_ok w' ∧ NoDup (row_id <$> items (Store w')).
Proof.
  intros Hsteps Hwf Hok w'.
  assert (store_wf w' ∧ sessions_ok w') as [Hwf' Hok'].
  { apply (preserves_loop (λ w, store_wf w ∧ sessions_ok w)); try done.
    - intros now m w0 [? ?].
      split; [by apply store_wf_handleMessage | by apply sessions_handleMessage].
    - intros cq w0 [? ?].
      split; [by apply store_wf_handleCallback | by apply sessions_handleCallback].
    - intros k now w0 [? ?].
      split; [by apply store_wf_action | by apply (sessions_keeps _ (ChatStates_action s k now))]. }
  split; [done|]. split; [done|]. apply StronglySorted_lt_NoDup, Hwf'.
Qed.

End Program.

Lemma reachable_worlds_wf_witness :
  let text s := {| upd_message := Some {| msg_chat := 7; msg_text := s; msg_command := None |};
                   upd_callback_query := None |} in
  let steps := [served (UC := basicCyrillic) 0 (text "Напоминания");
                served (UC := basicCyrillic) 1 (text "buy milk");
                Poll mar9_0800;
                served (UC := basicCyrillic) 2 (text "stretch")] in
  let w' := world (loop defaultScheduler steps (start blank)) in
  NoDup (row_id <$> items (Store w')) ∧ row_id <$> items (Store w') = [1; 2]%Z.
Proof.
  intros text steps w'. split; [|reflexivity].
  destruct (reachable_worlds_wf (UC := basicCyrillic) defaultScheduler steps blank)
    as (_ & _ & H).
  - repeat constructor.
  - apply emptyDB_wf.
  - apply sessions_blank.
  - exact H.
Defined.


(** ** Ids are never handed out twice *)

Lemma counter_keeps {A} n (c : M A) : keeps Store c → preserves (counter_at_least n) c.
Proof. intros Hc w Hw. unfold counter_at_least. by rewrite Hc. Qed.

Lemma counter_modifyDB n g :
  (∀ d, sqlite_sequence d ≤ sqlite_sequence (g d))%Z →
  preserves (counter_at_least n) (modifyDB g).
Proof. intros Hg w Hw. unfold counter_at_least in *. simpl. specialize (Hg (Store w)). lia. Qed.

Lemma counter_AddItem n now c t x : preserves (counter_at_least n) (AddItem now c t x).
Proof.
  unfold AddItem. apply preserves_bind; [apply counter_keeps; walk_frame | intros [e|]].
  - apply preserves_ret.
  - intros w Hw. unfold bind, get. simpl.
    destruct (Z.leb_spec maxInt64 (sqlite_sequence (Store w))); simpl; [done|].
    unfold counter_at_least in *. simpl. lia.
Qed.

(** Walks through a computation to show that the counter does not go
    back. *)
Ltac walk_counter :=
  repeat first
    [ apply preserves_ret
    | apply counter_AddItem
    | by apply counter_modifyDB
    | solve [apply counter_keeps; walk_frame]
    | apply preserves_bind; [| intros ?]
    | progress cbv zeta
    | split_match ].

Lemma AddItem_Ok now chat topic text w id :
  eval (AddItem now chat topic text) w = Ok id →
  id = (sqlite_sequence (Store w) + 1)%Z ∧
  sqlite_sequence (Store (exec (AddItem now chat topic text) w)) = id.
Proof.
  pose proof (keeps_statement Store (λ _ _, eq_refl) w) as Hk.
  unfold eval, exec, AddItem, bind, get.
  destruct (statement w) as [[e|] w1]; simpl in *; [done|]. rewrite Hk.
  destruct (Z.leb_spec maxInt64 (sqlite_sequence (Store w))); simpl; [done|].
  intros [= <-]. done.
Qed.

Section Counter.

Context {UC : UnicodeCase}.

Lemma counter_handleMessage n now m : preserves (counter_at_least n) (handleMessage now m).
Proof.
  unfold handleMessage, ensureChatID, SetKV, handleCommand, handleButton, captureText,
    sendRemindersOneByOne, ListActive.
  walk_counter.
Qed.

Lemma counter_handleCallback n cq : preserves (counter_at_least n) (handleCallback cq).
Proof. unfold handleCallback, ensureChatID, SetKV, DeleteItem. walk_counter. Qed.

Lemma counter_action n s k now : preserves (counter_at_least n) (action_of s k now).
Proof.
  destruct k; simpl;
    unfold sendMorningDigest, sendReminders, wipeReminders, targetChatID, GetKV,
      ListActive, DeleteAllReminders;
    walk_counter.
Qed.

(** X7. An id is never handed out twice: whatever the two goroutines do
    after [AddItem] has answered an id (deletions through buttons and the
    nightly wipe included), every later successful [AddItem] answers a
    larger id. *)
Theorem ids_never_reused (s : Scheduler) (steps : list Step) (w : World)
    (now now' chat chat' : Z) (topic topic' text text' : string) (id id' : Z) :
  Forall interleaved steps →
  eval (AddItem now chat topic text) w = Ok id →
  let w1 := world (loop s steps (start (exec (AddItem now chat topic text) w))) in
  eval (AddItem now' chat' topic' text') w1 = Ok id' →
  (id < id')%Z.
Proof.
  intros Hsteps Hid w1 Hid'.
  apply AddItem_Ok in Hid as [_ Hid]. apply AddItem_Ok in Hid' as [-> _].
  assert (counter_at_least id w1) as Hle.
  { apply (preserves_loop (counter_at_least id)); try done.
    - intros ? ?. apply counter_handleMessage.
    - intros ?. apply counter_handleCallback.
    - intros ? ?. apply counter_action.
    - unfold counter_at_least. simpl. lia. }
  unfold counter_at_least in Hle. lia.
Qed.

End Counter.

Lemma ids_never_reused_witness :
  let press := {| upd_message := None;
                  upd_callback_query := Some {| cq_id := "q"; cq_chat := 7; cq_message := 1;
                                                cq_data := "done:6" |} |} in
  let steps := [served (UC := basicCyrillic) 0 press; Poll mar9_0300] in
  let w1 := world (loop defaultScheduler steps
                     (start (exec (AddItem 0 7 TopicReminders "stretch again") busy))) in
  items (Store w1) =
    [{| row_id := 2; row_chat_id := 7; row_topic := TopicTasks;
        row_text := "file taxes"; row_status := StatusActive; row_created_at := 0 |};
     reminder_row 3 8 "call the bank"] ∧
  eval (AddItem 1 8 TopicTasks "new") w1 = Ok 7%Z ∧ (6 < 7)%Z.
Proof.
  intros press steps w1. split; [reflexivity|]. split; [reflexivity|].
  apply (ids_never_reused (UC := basicCyrillic) defaultScheduler steps busy
           0 1 7 8 TopicReminders TopicTasks "stretch again" "new" 6 7).
  - repeat constructor.
  - reflexivity.
  - reflexivity.
Defined.

(** ** What an inbound event may do to table [items] *)

Lemma rows_SetKV k v : keeps rows (SetKV k v).
Proof. unfold SetKV. walk_frame. Qed.

Lemma rows_ensureChatID chat : keeps rows (ensureChatID chat).
Proof.
  unfold ensureChatID. apply keeps_bind; [apply keeps_Getenv | intros v].
  case_bool_decide; [|apply keeps_ret].
  apply keeps_bind; [apply rows_SetKV | intros; apply keeps_ret].
Qed.

Lemma rows_ListActive chat topic : keeps rows (ListActive chat topic).
Proof. unfold ListActive. walk_frame. Qed.


Section Ownership.

Context {UC : UnicodeCase}.

Lemma rows_handleCommand now chat c : keeps rows (handleCommand now chat c).
Proof.
  unfold handleCommand, getState, resetToMenu, sendRemindersOneByOne, send, ListActive.
  walk_frame.
Qed.

Lemma rows_handleButton now chat text topic : keeps rows (handleButton now chat text topic).
Proof.
  unfold handleButton, setTopic, resetToMenu, sendRemindersOneByOne, send, ListActive.
  walk_frame.
Qed.

Lemma rows_touchState now chat : keeps rows (touchState now chat).
Proof. unfold touchState. walk_frame. Qed.

(** X8. What one inbound event may do to table items, whether or not
    statements fail. A message removes and changes no row and adds at most
    one: a row of the sender's chat, under the topic that [touchState]
    resolves, holding the trimmed text and, as created_at, the RFC3339 text
    of the next reading of the store's clock. A callback adds no row, leaves
    the id counter alone and removes at most the rows of its own chat that
    carry one id. *)
Theorem dispatch_row_ownership (w : World) :
  (∀ now m,
     let w' := exec (handleMessage now m) w in
     rows w' = rows w ∨
     items (Store w') = items (Store w) ++
       [new_row (clock w 0%nat) (msg_chat m)
          (Topic (eval (touchState now (msg_chat m)) w))
          (TrimSpace (msg_text m)) (Store w)]) ∧
  (∀ cq,
     let w' := exec (handleCallback cq) w in
     sqlite_sequence (Store w') = sqlite_sequence (Store w) ∧
     (items (Store w') = items (Store w) ∨
      ∃ id, items (Store w') = filter (λ r, ¬ resolves (cq_chat cq) id r) (items (Store w)))).
Proof.
  split.
  - intros now m. cbv zeta. unfold exec, handleMessage, bind.
    pose proof (rows_ensureChatID (msg_chat m) w) as Hr0.
    assert (ChatStates (ensureChatID (msg_chat m) w).2 = ChatStates w ∧
            TTL (ensureChatID (msg_chat m) w).2 = TTL w ∧
            clock (ensureChatID (msg_chat m) w).2 = clock w) as (HC & HT & HK).
    { split; [|split].
      - assert (keeps ChatStates (ensureChatID (msg_chat m))) as Hk; [|apply Hk].
        unfold ensureChatID, SetKV. walk_frame.
      - assert (keeps TTL (ensureChatID (msg_chat m))) as Hk; [|apply Hk].
        unfold ensureChatID, SetKV. walk_frame.
      - assert (keeps clock (ensureChatID (msg_chat m))) as Hk; [|apply Hk].
        unfold ensureChatID, SetKV. walk_frame. }
    destruct (ensureChatID (msg_chat m) w) as [[] w0]. simpl in Hr0, HC, HT, HK. cbv zeta.
    destruct (msg_command m) as [c|].
    { left. by rewrite rows_handleCommand. }
    case_bool_decide.
    { left. by rewrite <- Hr0. }
    destruct (isTopicButtonText (msg_text m)) as [topic []].
    { left. by rewrite rows_handleButton. }
    unfold captureText, bind.
    assert (eval (touchState now (msg_chat m)) w = eval (touchState now (msg_chat m)) w0) as ->.
    { unfold eval, touchState, bind, get. simpl. rewrite HC, HT.
      by destruct (ChatStates w !! msg_chat m). }
    pose proof (rows_touchState now (msg_chat m) w0) as Hr1.
    assert (clock (touchState now (msg_chat m) w0).2 = clock w0) as HK1.
    { assert (keeps clock (touchState now (msg_chat m))) as Hk; [|apply Hk].
      unfold touchState. walk_frame. }
    unfold eval.
    destruct (touchState now (msg_chat m) w0) as [st w1']. simpl in Hr1, HK1. cbv zeta. simpl.
    case_bool_decide.
    { left. simpl. by rewrite Hr1. }
    rewrite HK1, HK.
    set (w1 := with_clock _ w1'). change (rows w1' = rows w0) with (rows w1 = rows w0) in Hr1.
    clearbody w1. clear HK1.
    unfold AddItem, bind.
    pose proof (keeps_statement rows (λ _ _, eq_refl) w1) as Hr2.
    destruct (statement w1) as [[e|] w2]; simpl in Hr2.
    { left. change (rows w2 = rows w). congruence. }
    unfold get. simpl.
    unfold rows in Hr0, Hr1, Hr2.
    injection Hr0 as I0 S0. injection Hr1 as I1 S1. injection Hr2 as I2 S2.
    destruct (Z.leb_spec maxInt64 (sqlite_sequence (Store w2))); simpl.
    { left. unfold rows. simpl. congruence. }
    right. unfold new_row. rewrite I2, I1, I0, S2, S1, S0. done.
  - intros cq w'. subst w'.
    remember (exec (handleCallback cq) w) as w' eqn:Ew.
    unfold exec, handleCallback in Ew. unfold bind at 1 in Ew.
    pose proof (rows_ensureChatID (cq_chat cq) w) as Hr0.
    destruct (ensureChatID (cq_chat cq) w) as [[] w0]. simpl in Hr0. cbv zeta in Ew.
    unfold rows in Hr0. injection Hr0 as I0 S0.
    destruct (HasPrefix _ _); [|subst w'; split; [done | by left]].
    destruct (ParseInt _) as [id|]; [|subst w'; split; [done | by left]].
    unfold bind, DeleteItem, bind in Ew.
    pose proof (keeps_statement rows (λ _ _, eq_refl) w0) as Hr1.
    destruct (statement w0) as [[e|] w1]; simpl in Hr1; unfold rows in Hr1;
      injection Hr1 as I1 S1; simpl in Ew; subst w'; simpl.
    { split; [congruence | left; congruence]. }
    split; [congruence|]. right. exists id.
    rewrite filter_not_resolves. congruence.
Qed.

End Ownership.


(** ** The branches of [handleMessage] *)

Section Branches.

Context {UC : UnicodeCase}.

Lemma exec_bind {A B} (c : M A) (k : A → M B) w :
  exec (bind c k) w = exec (k (eval c w)) (exec c w).
Proof. unfold exec, eval, bind. by destruct (c w). Qed.

Lemma eval_bind {A B} (c : M A) (k : A → M B) w :
  eval (bind c k) w = eval (k (eval c w)) (exec c w).
Proof. unfold exec, eval, bind. by destruct (c w). Qed.

Lemma keeps_exec {A X} (f : World → X) (c : M A) w : keeps f c → f (exec c w) = f w.
Proof. intros Hk. apply Hk. Qed.

Lemma handleMessage_text now m w :
  msg_command m = None → msg_text m ≠ "" → (isTopicButtonText (msg_text m)).2 = false →
  exec (handleMessage now m) w =
  exec (captureText now (msg_chat m) (msg_text m)) (exec (ensureChatID (msg_chat m)) w).
Proof.
  intros Hc Ht Hb. unfold handleMessage. cbv zeta. rewrite exec_bind, Hc.
  rewrite bool_decide_eq_false_2 by done.
  destruct (isTopicButtonText (msg_text m)) as [tp ok]. simpl in Hb. by subst ok.
Qed.

Lemma handleMessage_button now m topic w :
  msg_command m = None → msg_text m ≠ "" → isTopicButtonText (msg_text m) = (topic, true) →
  exec (handleMessage now m) w =
  exec (handleButton now (msg_chat m) (msg_text m) topic) (exec (ensureChatID (msg_chat m)) w).
Proof.
  intros Hc Ht Hb. unfold handleMessage. cbv zeta. rewrite exec_bind, Hc.
  rewrite bool_decide_eq_false_2 by done. by rewrite Hb.
Qed.

Lemma session_ensureChatID chat : keeps (λ w, (ChatStates w, TTL w, sent w)) (ensureChatID chat).
Proof. unfold ensureChatID, SetKV. walk_frame. Qed.

Lemma touchState_session now chat w w0 :
  ChatStates w0 = ChatStates w → TTL w0 = TTL w →
  eval (touchState now chat) w0 = eval (touchState now chat) w ∧
  ChatStates (exec (touchState now chat) w0) !! chat
  = Some {| Topic := Topic (eval (touchState now chat) w); LastActivity := now |} ∧
  sent (exec (touchState now chat) w0) = sent w0 ∧
  Store (exec (touchState now chat) w0) = Store w0 ∧
  faults (exec (touchState now chat) w0) = faults w0.
Proof.
  intros HC HT. unfold eval, exec, touchState, bind, get. simpl. rewrite HC, HT.
  destruct (ChatStates w !! chat) as [st|]; simpl; by rewrite lookup_insert_eq.
Qed.

(** X9. A text that is not empty but trims to nothing is dropped in
    silence: nothing is sent and table items is untouched; the session is
    touched all the same (the topic expires if the TTL has passed, and
    [LastActivity] becomes the current time). *)
Theorem blank_text_is_dropped (now : Z) (m : Message) (w : World) :
  msg_command m = None → msg_text m ≠ "" →
  (isTopicButtonText (msg_text m)).2 = false →
  TrimSpace (msg_text m) = "" →
  let w' := exec (handleMessage now m) w in
  sent w' = sent w ∧ rows w' = rows w ∧
  ChatStates w' !! msg_chat m
  = Some {| Topic := Topic (eval (touchState now (msg_chat m)) w); LastActivity := now |}.
Proof.
  intros Hc Ht Hb Hblank w'. subst w'. rewrite handleMessage_text by done.
  pose proof (session_ensureChatID (msg_chat m) w) as Hs.
  pose proof (rows_ensureChatID (msg_chat m) w) as Hr.
  fold (exec (ensureChatID (msg_chat m)) w) in Hs, Hr.
  set (w0 := exec (ensureChatID (msg_chat m)) w) in *. injection Hs as HC HT HS.
  destruct (touchState_session now (msg_chat m) w w0 HC HT) as (_ & Hst & Hsent & Hstore & _).
  unfold captureText. rewrite exec_bind. rewrite bool_decide_eq_true_2 by done.
  change (exec (ret tt) ?x) with x.
  split; [congruence|]. split; [|done].
  unfold rows in *. rewrite Hstore. done.
Qed.

Lemma handleButton_session now chat text topic w :
  let chosen := if bool_decide (ToLower (TrimSpace text) = "menu") then TopicBasket else topic in
  ChatStates (exec (handleButton now chat text topic) w)
  = <[chat := {| Topic := chosen; LastActivity := now |}]> (ChatStates w) ∧
  TTL (exec (handleButton now chat text topic) w) = TTL w.
Proof.
  cbv zeta. unfold handleButton. cbv zeta. case_bool_decide.
  - rewrite exec_bind.
    match goal with
    | |- context [exec ?c (exec (resetToMenu now chat) w)] =>
        assert (keeps (λ w, (ChatStates w, TTL w)) c) as Hk
    end.
    { unfold ListActive, send. walk_frame. }
    apply (keeps_exec _ _ (exec (resetToMenu now chat) w)) in Hk.
    injection Hk as -> ->. done.
  - rewrite exec_bind.
    match goal with
    | |- context [exec ?c (exec (setTopic now chat topic) w)] =>
        assert (keeps (λ w, (ChatStates w, TTL w)) c) as Hk
    end.
    { unfold ListActive, sendRemindersOneByOne, send. walk_frame. }
    apply (keeps_exec _ _ (exec (setTopic now chat topic) w)) in Hk.
    injection Hk as -> ->. done.
Qed.

Lemma captureText_ok now chat text w st :
  ChatStates w !! chat = Some st → TrimSpace text ≠ "" →
  faults w = [] → (sqlite_sequence (Store w) < maxInt64)%Z →
  items (Store (exec (captureText now chat text) w)) =
  items (Store w) ++
    [new_row (clock w 0%nat) chat
       (if (TTL w <? Sub now (LastActivity st))%Z then TopicBasket else Topic st)
       (TrimSpace text) (Store w)].
Proof.
  intros Hst Htext Hf Hseq. unfold captureText, exec, bind.
  rewrite (touchState_known now chat w st Hst). cbv zeta. cbn [Topic].
  rewrite bool_decide_eq_false_2 by done.
  unfold Now. cbv beta iota.
  rewrite AddItem_ok by done. done.
Qed.

(** X10. Choosing a topic routes what follows. After a topic label is
    handled at [t0] the session holds the topic of the label (the basket
    for "menu") with [LastActivity = t0], even if the store failed
    meanwhile; a plain text handled next at [t1], while the store works, is
    filed under that topic if [t1 - t0] is at most the TTL and under the
    basket otherwise, with the RFC3339 text of the store's next clock
    reading as created_at. *)
Theorem topic_selection_routes (chat t0 t1 : Z) (label text topic : string) (w : World) :
  let w0 := exec (handleMessage t0 (text_message chat label)) w in
  let chosen := if bool_decide (ToLower (TrimSpace label) = "menu") then TopicBasket else topic in
  label ≠ "" → isTopicButtonText label = (topic, true) →
  text ≠ "" → (isTopicButtonText text).2 = false → TrimSpace text ≠ "" →
  faults w0 = [] → (sqlite_sequence (Store w0) < maxInt64)%Z →
  ChatStates w0 !! chat = Some {| Topic := chosen; LastActivity := t0 |} ∧
  items (Store (exec (handleMessage t1 (text_message chat text)) w0)) =
  items (Store w0) ++
    [new_row (clock w0 0%nat) chat
       (if (TTL w <? Sub t1 t0)%Z then TopicBasket else chosen)
       (TrimSpace text) (Store w0)].
Proof.
  intros w0 chosen Hl Hb Ht Hnb Htrim Hf Hseq.
  assert (ChatStates w0 !! chat = Some {| Topic := chosen; LastActivity := t0 |} ∧
          TTL w0 = TTL w) as [Hst HT].
  { subst w0. rewrite (handleMessage_button t0 (text_message chat label) topic) by done.
    cbn [text_message msg_chat msg_text].
    destruct (handleButton_session t0 chat label topic (exec (ensureChatID chat) w))
      as [-> ->].
    split; [by rewrite lookup_insert_eq|].
    pose proof (keeps_exec _ _ w (session_ensureChatID chat)) as Hs.
    by injection Hs as _ -> _. }
  split; [done|].
  rewrite (handleMessage_text t1 (text_message chat text)) by done.
  cbn [text_message msg_chat msg_text].
  unfold exec at 2. rewrite ensureChatID_ok by done. cbn [snd].
  set (w1 := with_Store _ w0).
  assert (items (Store w1) = items (Store w0) ∧
          sqlite_sequence (Store w1) = sqlite_sequence (Store w0) ∧
          ChatStates w1 = ChatStates w0 ∧ TTL w1 = TTL w0 ∧ faults w1 = faults w0)
    as (Hi & Hs & HC1 & HT1 & Hf1).
  { subst w1. unfold persist_chat. by case_bool_decide. }
  rewrite (captureText_ok t1 chat text w1 {| Topic := chosen; LastActivity := t0 |}).
  - unfold new_row. cbn [Topic LastActivity]. by rewrite Hi, Hs, HT1, HT.
  - by rewrite HC1.
  - done.
  - by rewrite Hf1.
  - by rewrite Hs.
Qed.

End Branches.

Lemma blank_text_is_dropped_witness :
  let m := {| msg_chat := 7; msg_text := "   "; msg_command := None |} in
  let w := exec (setTopic 0 7 TopicTasks) busy in
  let w' := exec (handleMessage (UC := basicCyrillic) (11 * Minute) m) w in
  sent w' = sent w ∧ rows w' = rows w ∧
  ChatStates w' !! 7%Z = Some {| Topic := TopicBasket; LastActivity := 11 * Minute |}.
Proof.
  intros m w w'.
  apply (blank_text_is_dropped (UC := basicCyrillic) (11 * Minute) m w);
    [reflexivity | discriminate | reflexivity | reflexivity].
Defined.

Lemma topic_selection_routes_witness :
  let w0 := exec (handleMessage (UC := basicCyrillic) 0 (text_message 7 "Покупки")) busy in
  row_topic <$> items (Store (exec (handleMessage (UC := basicCyrillic) (10 * Minute)
                                      (text_message 7 "bread")) w0))
  = [TopicReminders; TopicTasks; TopicReminders; TopicReminders; TopicReminders; TopicShopping] ∧
  row_topic <$> items (Store (exec (handleMessage (UC := basicCyrillic) (10 * Minute + 1)
                                      (text_message 7 "bread")) w0))
  = [TopicReminders; TopicTasks; TopicReminders; TopicReminders; TopicReminders; TopicBasket].
Proof.
  intros w0.
  assert (∀ t1, items (Store (exec (handleMessage (UC := basicCyrillic) t1
                                      (text_message 7 "bread")) w0)) =
                items (Store w0) ++
                  [new_row (clock w0 0%nat) 7
                     (if (TTL busy <? Sub t1 0)%Z then TopicBasket else TopicShopping)
                     "bread" (Store w0)]) as H.
  { intros t1.
    pose proof (topic_selection_routes (UC := basicCyrillic) 7 0 t1 "Покупки" "bread"
                  TopicShopping busy) as Hthm.
    cbv zeta in Hthm.
    destruct Hthm as [_ Hthm]; [discriminate | by vm_compute | discriminate | by vm_compute
      | by vm_compute | by vm_compute | by vm_compute |].
    exact Hthm. }
  split; rewrite H; reflexivity.
Defined.


(** ** What is sent, and to whom *)

Section Emits.

Context (P : Outbound → Prop).

Lemma emits_keeps {A} (c : M A) : keeps sent c → emits P c.
Proof. intros Hk w. exists []. by rewrite Hk, app_nil_r. Qed.

Lemma emits_ret {A} (a : A) : emits P (ret a).
Proof. apply emits_keeps, keeps_ret. Qed.

Lemma emits_bind {A B} (c : M A) (k : A → M B) :
  emits P c → (∀ a, emits P (k a)) → emits P (bind c k).
Proof.
  intros Hc Hk w. unfold bind. destruct (Hc w) as (o1 & E1 & F1).
  destruct (c w) as [a w1]. destruct (Hk a w1) as (o2 & E2 & F2).
  exists (o1 ++ o2). simpl in *. rewrite E2, E1, app_assoc. split; [done|].
  by apply Forall_app.
Qed.

Lemma emits_Send o : P o → emits P (Send o).
Proof. intros Ho w. exists [o]. split; [done|]. by constructor. Qed.

Lemma emits_forM_ {A} (l : list A) (g : A → M unit) :
  (∀ a, emits P (g a)) → emits P (forM_ l g).
Proof.
  intros Hg. induction l as [|a l IH]; simpl.
  - apply emits_ret.
  - apply emits_bind; [apply Hg | intros _; exact IH].
Qed.

Lemma emits_exec {A} (c : M A) w :
  emits P c → ∃ out, sent (exec c w) = sent w ++ out ∧ Forall P out.
Proof. intros Hc. apply Hc. Qed.

End Emits.

Lemma answers_Send o : answers (Send o).
Proof. intros w. by exists o, []. Qed.

Lemma answers_first {A B} (c : M A) (k : A → M B) :
  answers c → (∀ a, emits (λ _, True) (k a)) → answers (bind c k).
Proof.
  intros Hc Hk w. unfold bind. destruct (Hc w) as (o & o1 & E1).
  destruct (c w) as [a w1]. destruct (Hk a w1) as (o2 & E2 & _).
  exists o, (o1 ++ o2). simpl in *. by rewrite E2, E1, <- app_assoc.
Qed.

Lemma answers_last {A B} (c : M A) (k : A → M B) :
  emits (λ _, True) c → (∀ a, answers (k a)) → answers (bind c k).
Proof.
  intros Hc Hk w. unfold bind. destruct (Hc w) as (o1 & E1 & _).
  destruct (c w) as [a w1]. destruct (Hk a w1) as (o & o2 & E2).
  simpl in *. rewrite E2, E1, <- app_assoc.
  destruct o1 as [|o' o1]; [by exists o, o2 | by exists o', (o1 ++ o :: o2)].
Qed.

(** Walks through a computation whose sends all satisfy the predicate at
    hand. *)
Ltac walk_emits :=
  repeat first
    [ apply emits_ret
    | by apply emits_Send
    | solve [apply emits_keeps; walk_frame]
    | apply emits_forM_; intros ?
    | apply emits_bind; [| intros ?]
    | progress cbv zeta
    | split_match ].

(** ** The footprint of the trigger actions *)

Lemma filter_not_reminders chat (l : list Row) :
  filter (λ r, negb (bool_decide (row_chat_id r = chat)
                     && bool_decide (row_topic r = TopicReminders))) l
  = filter (λ r, ¬ (row_chat_id r = chat ∧ row_topic r = TopicReminders)) l.
Proof.
  induction l as [|r l IH]; [done|].
  rewrite !filter_cons, IH.
  destruct (decide (row_chat_id r = chat)), (decide (row_topic r = TopicReminders)).
  - rewrite !bool_decide_eq_true_2 by done. simpl.
    rewrite decide_False by (intros H; by apply H). done.
  - rewrite (bool_decide_eq_false_2 (row_topic r = _)) by done.
    rewrite andb_false_r. simpl. rewrite decide_True by (intros [_ ?]; done). done.
  - rewrite (bool_decide_eq_false_2 (row_chat_id r = _)) by done.
    simpl. rewrite decide_True by (intros [? _]; done). done.
  - rewrite (bool_decide_eq_false_2 (row_chat_id r = _)) by done.
    simpl. rewrite decide_True by (intros [? _]; done). done.
Qed.

Lemma DeleteAllReminders_items chat w :
  items (Store (exec (DeleteAllReminders chat) w)) = items (Store w) ∨
  items (Store (exec (DeleteAllReminders chat) w)) =
    filter (λ r, ¬ (row_chat_id r = chat ∧ row_topic r = TopicReminders)) (items (Store w)).
Proof.
  pose proof (keeps_statement Store (λ _ _, eq_refl) w) as HS.
  unfold exec, DeleteAllReminders, bind.
  destruct (statement w) as [[e|] w1]; cbn [fst snd] in *.
  - left. unfold ret. cbn [snd]. by rewrite HS.
  - right. unfold modifyDB, modify, ret. cbn [snd Store with_Store items delete_where].
    rewrite HS. apply filter_not_reminders.
Qed.

Lemma action_frame s k now :
  keeps (λ w, (ChatStates w, kv (Store w), sqlite_sequence (Store w), env w, TTL w))
    (action_of s k now).
Proof.
  destruct k; cbn [action_of];
    unfold sendMorningDigest, sendReminders, wipeReminders, targetChatID, GetKV,
      ListActive, DeleteAllReminders;
    walk_frame.
Qed.

Lemma action_items s k now w :
  let chat := (eval targetChatID w).1 in
  items (Store (exec (action_of s k now) w)) = items (Store w) ∨
  k = Wipe ∧
  items (Store (exec (action_of s k now) w)) =
    filter (λ r, ¬ (row_chat_id r = chat ∧ row_topic r = TopicReminders)) (items (Store w)).
Proof.
  intros chat. destruct k; cbn [action_of].
  - left. f_equal.
    assert (keeps Store (sendMorningDigest s now)) as Hk; [|apply Hk].
    unfold sendMorningDigest, targetChatID, GetKV. walk_frame.
  - left. f_equal.
    assert (keeps Store (sendReminders now)) as Hk; [|apply Hk].
    unfold sendReminders, targetChatID, GetKV, ListActive. walk_frame.
  - unfold wipeReminders. rewrite exec_bind. subst chat.
    pose proof (keeps_exec Store targetChatID w targetChatID_Store) as HS.
    destruct (eval targetChatID w) as [c []]; cbn [fst]; [|left; by rewrite <- HS].
    rewrite exec_bind.
    match goal with
    | |- context [exec ?c0 (exec (DeleteAllReminders c) _)] =>
        assert (keeps Store c0) as Hk by walk_frame
    end.
    rewrite (keeps_exec Store _ _ Hk).
    destruct (DeleteAllReminders_items c (exec targetChatID w)) as [E | E];
      rewrite E, HS; [by left | by right].
Qed.

Lemma action_emits s k now r :
  emits (λ o, recipient o = Some r.1)
    (match k with
     | Morning =>
         match r with
         | (_, false) => Printf "scheduler: CHAT_ID not set; skipping morning digest"
         | (chatID, true) =>
             let text := match calendar s now with
                         | Ok text => text
                         | Err e => "Ошибка чтения календаря: " +:+ e
                         end in
             Send (PlainMessage chatID ("РАСПИСАНИЕ НА СЕГОДНЯ:" +:+ nl +:+ text))
         end
     | Reminders =>
         match r with
         | (_, false) =>
             Printf "scheduler: CHAT_ID not set and kv.chat_id missing; skipping reminders"
         | (chatID, true) =>
             l <- ListActive chatID TopicReminders ;;
             match l with
             | Err e => Printf ("scheduler: list reminders error: " +:+ e)
             | Ok [] => ret tt
             | Ok its => forM_ its (λ it, Send (reminderMessage chatID it))
             end
         end
     | Wipe =>
         match r with
         | (_, false) => Printf "scheduler: CHAT_ID not set; skipping wipe"
         | (chatID, true) =>
             d <- DeleteAllReminders chatID ;;
             match d with
             | Err e => Printf ("scheduler: wipe reminders error: " +:+ e)
             | Ok _ => Send (PlainMessage chatID "НАПОМИНАНИЯ ОЧИЩЕНЫ (ночной вайп).")
             end
         end
     end).
Proof.
  destruct r as [c ok], k; unfold ListActive, DeleteAllReminders; walk_emits.
Qed.

(** X11. The footprint of a trigger action, whether or not statements
    fail: it leaves the session table, table kv and the id counter alone; it
    adds no row, and only the nightly wipe removes rows, namely the
    reminders of the target chat; and everything it sends is addressed to
    the target chat. *)
Theorem scheduler_footprint (s : Scheduler) (k : Kind) (now : Civil) (w : World) :
  let w' := exec (action_of s k now) w in
  let chat := (eval targetChatID w).1 in
  ChatStates w' = ChatStates w ∧
  kv (Store w') = kv (Store w) ∧
  sqlite_sequence (Store w') = sqlite_sequence (Store w) ∧
  (items (Store w') = items (Store w) ∨
   k = Wipe ∧
   items (Store w') =
     filter (λ r, ¬ (row_chat_id r = chat ∧ row_topic r = TopicReminders)) (items (Store w))) ∧
  ∃ out, sent w' = sent w ++ out ∧ Forall (λ o, recipient o = Some chat) out.
Proof.
  intros w' chat.
  pose proof (keeps_exec _ _ w (action_frame s k now)) as Hf. fold w' in Hf.
  injection Hf as HC Hk Hs _ _.
  split; [done|]. split; [done|]. split; [done|]. split; [apply action_items|].
  subst w' chat.
  pose proof (keeps_exec sent targetChatID w targetChatID_sent) as Hsent.
  destruct (emits_exec _ _ (exec targetChatID w)
              (action_emits s k now (eval targetChatID w))) as (out & E & F).
  exists out. split; [|done]. rewrite <- Hsent, <- E.
  destruct k; cbn [action_of]; unfold sendMorningDigest, sendReminders, wipeReminders;
    by rewrite exec_bind.
Qed.


(** ** Replies *)

(** Walks through a computation that ends in a send on every path. *)
Ltac walk_answers :=
  repeat first
    [ apply answers_Send
    | apply answers_first; [apply answers_Send | intros ?; solve [walk_emits]]
    | apply answers_last; [solve [walk_emits] | intros ?]
    | progress cbn [forM_]
    | progress cbv zeta
    | split_match ].

Section Replies.

Context {UC : UnicodeCase}.

Lemma emits_handleMessage now m :
  emits (λ o, recipient o = Some (msg_chat m)) (handleMessage now m).
Proof.
  unfold handleMessage, ensureChatID, SetKV, handleCommand, handleButton, captureText,
    sendRemindersOneByOne, send, ListActive, AddItem, getState, touchState, setTopic,
    resetToMenu.
  walk_emits.
Qed.

Lemma answers_handleCommand now chat c : answers (handleCommand now chat c).
Proof.
  unfold handleCommand, sendRemindersOneByOne, send, ListActive, getState, resetToMenu.
  walk_answers.
Qed.

Lemma answers_handleButton now chat text topic : answers (handleButton now chat text topic).
Proof.
  unfold handleButton, sendRemindersOneByOne, send, ListActive, setTopic, resetToMenu.
  walk_answers.
Qed.

Lemma answers_captureText now chat text :
  TrimSpace text ≠ "" → answers (captureText now chat text).
Proof.
  intros Ht. unfold captureText. cbv zeta.
  rewrite bool_decide_eq_false_2 by done.
  unfold send, AddItem, touchState. walk_answers.
Qed.

Lemma answers_handleMessage now m : ¬ blank_text m → answers (handleMessage now m).
Proof.
  intros Hnb. unfold handleMessage. cbv zeta.
  apply answers_last; [unfold ensureChatID, SetKV; walk_emits | intros _].
  destruct (msg_command m) as [c|] eqn:Hc; [apply answers_handleCommand|].
  case_bool_decide as Ht; [apply answers_Send|].
  destruct (isTopicButtonText (msg_text m)) as [topic ok] eqn:Hb.
  destruct ok; [apply answers_handleButton|].
  apply answers_captureText. intros Hblank. apply Hnb.
  unfold blank_text. by rewrite Hb.
Qed.

(** X12. Everything [handleMessage] sends is addressed to the chat of the
    message, and every message gets at least one reply, save a text that is
    not empty but trims to nothing. *)
Theorem message_replies (now : Z) (m : Message) (w : World) :
  ∃ out, sent (exec (handleMessage now m) w) = sent w ++ out ∧
         Forall (λ o, recipient o = Some (msg_chat m)) out ∧
         (¬ blank_text m → out ≠ []).
Proof.
  destruct (emits_handleMessage now m w) as (out & E & F).
  exists out. split; [done|]. split; [done|].
  intros Hnb. destruct (answers_handleMessage now m Hnb w) as (o & out' & E').
  unfold exec in *. rewrite E in E'. apply app_inv_head in E'. by rewrite E'.
Qed.

End Replies.

(** X13. What a callback is answered with depends on the prefix of its
    data alone. With the prefix done: the query is answered "Удалено", the
    message text is replaced and its buttons are removed, whether the id
    after the prefix parses or not, whether a row was deleted or not and
    whether the DELETE failed or not; any other data gets one empty answer. *)
Theorem callback_responses (cq : CallbackQuery) (w : World) :
  sent (exec (handleCallback cq) w) =
  sent w ++
    (if HasPrefix (TrimSpace (cq_data cq)) "done:"
     then [CallbackAnswer (cq_id cq) "Удалено";
           EditText (cq_chat cq) (cq_message cq) "✅ Удалено";
           EditMarkup (cq_chat cq) (cq_message cq)]
     else [CallbackAnswer (cq_id cq) ""]).
Proof.
  unfold handleCallback. cbv zeta. rewrite exec_bind.
  pose proof (keeps_exec _ _ w (session_ensureChatID (cq_chat cq))) as Hs.
  injection Hs as _ _ Hs. rewrite <- Hs.
  generalize (exec (ensureChatID (cq_chat cq)) w). intros w1.
  destruct (HasPrefix _ _); [|done].
  rewrite exec_bind.
  match goal with
  | |- context [exec _ (exec ?c w1)] => assert (keeps sent c) as Hk
  end.
  { unfold DeleteItem. walk_frame. }
  rewrite <- (keeps_exec sent _ w1 Hk).
  generalize (exec (match ParseInt (TrimPrefix (TrimSpace (cq_data cq)) "done:") with
                    | Some id => DeleteItem (cq_chat cq) id;;; ret ()
                    | None => ret ()
                    end) w1).
  intros w2. unfold exec, bind, Send, modify. cbn [snd sent with_sent].
  by rewrite <- !app_assoc.
Qed.


(** ** A configured CHAT_ID *)

Lemma configured_keeps {A} e k (c : M A) :
  keeps (λ w, (env w, kv (Store w))) c → preserves (chat_configured e k) c.
Proof.
  intros Hc w [He Hk]. pose proof (Hc w) as H. cbn beta in H.
  injection H as E1 E2. unfold chat_configured. by rewrite E1, E2.
Qed.

Lemma configured_ensureChatID e k chat :
  TrimSpace (default "" (e !! "CHAT_ID")) ≠ "" →
  preserves (chat_configured e k) (ensureChatID chat).
Proof.
  intros Hne w [He Hk]. unfold ensureChatID, bind, Getenv, get, ret. simpl.
  rewrite He. by rewrite bool_decide_eq_false_2.
Qed.

Lemma targetChatID_env w c :
  parseInt64 (TrimSpace (default "" (env w !! "CHAT_ID"))) = (c, true) →
  targetChatID w = ((c, true), w).
Proof.
  intros Hp. unfold targetChatID, bind, Getenv, get, ret. simpl. by rewrite Hp.
Qed.

Section Configured.

Context {UC : UnicodeCase}.

Lemma configured_handleMessage e k now m :
  TrimSpace (default "" (e !! "CHAT_ID")) ≠ "" →
  preserves (chat_configured e k) (handleMessage now m).
Proof.
  intros Hne. unfold handleMessage. cbv zeta.
  apply preserves_bind; [by apply configured_ensureChatID | intros _].
  apply configured_keeps.
  unfold handleCommand, handleButton, captureText, sendRemindersOneByOne, send,
    ListActive, AddItem, getState, touchState, setTopic, resetToMenu.
  walk_frame.
Qed.

Lemma configured_handleCallback e k cq :
  TrimSpace (default "" (e !! "CHAT_ID")) ≠ "" →
  preserves (chat_configured e k) (handleCallback cq).
Proof.
  intros Hne. unfold handleCallback. cbv zeta.
  apply preserves_bind; [by apply configured_ensureChatID | intros _].
  apply configured_keeps. unfold DeleteItem. walk_frame.
Qed.

(** X14. When CHAT_ID is set to something that is not blank, no run of the
    two goroutines writes table kv: the chats that talk to the bot are not
    recorded, and if CHAT_ID parses, the scheduler's target stays the
    configured chat. *)
Theorem configured_chat_is_kept (w : World) :
  TrimSpace (default "" (env w !! "CHAT_ID")) ≠ "" →
  ∀ steps s,
    Forall interleaved steps →
    let w' := world (loop s steps (start w)) in
    kv (Store w') = kv (Store w) ∧
    ∀ c, parseInt64 (TrimSpace (default "" (env w !! "CHAT_ID"))) = (c, true) →
         eval targetChatID w' = (c, true).
Proof.
  intros Hne steps s Hsteps w'.
  assert (chat_configured (env w) (kv (Store w)) w') as [He Hk].
  { apply (preserves_loop (chat_configured (env w) (kv (Store w)))); try done.
    - intros now m. by apply configured_handleMessage.
    - intros cq. by apply configured_handleCallback.
    - intros k now. apply configured_keeps.
      destruct k; cbn [action_of];
        unfold sendMorningDigest, sendReminders, wipeReminders, targetChatID, GetKV,
          ListActive, DeleteAllReminders;
        walk_frame. }
  split; [done|]. intros c Hc. unfold eval. rewrite (targetChatID_env w' c); [done|].
  by rewrite He.
Qed.

End Configured.

Lemma configured_chat_is_kept_witness :
  let upd := {| upd_message := Some (text_message 9 "hello"); upd_callback_query := None |} in
  let w' := world (loop defaultScheduler [served (UC := basicCyrillic) 0 upd]
                     (start configured)) in
  kv (Store w') !! "chat_id" = Some "7" ∧ eval targetChatID w' = (42%Z, true).
Proof.
  intros upd w'.
  destruct (configured_chat_is_kept (UC := basicCyrillic) configured) with
    (steps := [served (UC := basicCyrillic) 0 upd]) (s := defaultScheduler) as [Hk Ht].
  - discriminate.
  - repeat constructor.
  - subst w'. split; [by rewrite Hk | by apply Ht].
Defined.

(** ** Ticks off the schedule *)

Lemma reminders_idle s now ts l :
  Format_hhmm now ∉ ts → foldl (λ l t, check s Reminders t now l) l ts = l.
Proof.
  induction ts as [|t ts IH]; intros Hts; [done|].
  cbn [foldl]. rewrite check_idle.
  - apply IH. intros Hin. apply Hts. by right.
  - left. intros E. apply Hts. rewrite E. by left.
Qed.

(** X15. A tick at a minute that is none of the configured trigger times
    changes nothing: not the shared world, not the firing record, not the
    trace. *)
Theorem tick_off_schedule (s : Scheduler) (now : Civil) (l : Loop) :
  Format_hhmm now ≠ morningTime s →
  Format_hhmm now ∉ reminderTimes s →
  Format_hhmm now ≠ wipeTime s →
  tick s now l = l.
Proof.
  intros Hm Hr Hw. unfold tick.
  rewrite (check_idle s Morning) by by left.
  rewrite reminders_idle by done.
  by rewrite check_idle by by left.
Qed.

Lemma tick_off_schedule_witness :
  tick defaultScheduler mar9_0930 (start busy) = start busy.
Proof.
  apply tick_off_schedule.
  - discriminate.
  - apply (bool_decide_unpack _). by vm_compute.
  - discriminate.
Defined.

(** ** The morning digest *)

Lemma Getenv_eq key w : Getenv key w = (default "" (env w !! key), w).
Proof. reflexivity. Qed.

(** X16. With the calendar client that [NewGoogleCalendarClientFromEnv]
    builds, the morning digest for a resolvable target chat is exactly one
    message and never carries the calendar error text: it is the
    not-configured notice when GCAL_DISABLED is true (in any letter case) or
    GCAL_CALENDAR_ID is blank, and the stub schedule with today's date and
    the calendar id otherwise; the store is left alone. *)
Theorem morning_digest_from_env (s : Scheduler) (w0 w w1 : World) (now : Civil) (chat : Z) :
  calendar s = eval NewGoogleCalendarClientFromEnv w0 →
  targetChatID w = ((chat, true), w1) →
  let calID := TrimSpace (default "" (env w0 !! "GCAL_CALENDAR_ID")) in
  let disabled := equalFoldTrue (TrimSpace (default "" (env w0 !! "GCAL_DISABLED")))
                  || bool_decide (calID = "") in
  let text := if disabled
              then "Расписание из Google Calendar не настроено (GCAL_CALENDAR_ID не задан)."
              else "Расписание на сегодня (" +:+ Format_date now +:+ "):" +:+ nl
                   +:+ "(заглушка) календарь=" +:+ calID in
  sent (exec (sendMorningDigest s now) w) =
    sent w ++ [PlainMessage chat ("РАСПИСАНИЕ НА СЕГОДНЯ:" +:+ nl +:+ text)] ∧
  Store (exec (sendMorningDigest s now) w) = Store w.
Proof.
  intros Hcal Ht calID disabled text.
  pose proof (targetChatID_sent w) as Hs. pose proof (targetChatID_Store w) as Hd.
  unfold exec, sendMorningDigest, bind. rewrite Ht in *. cbn [snd] in Hs, Hd.
  cbv zeta. rewrite Hcal.
  assert (eval NewGoogleCalendarClientFromEnv w0 now = Ok text) as ->.
  { unfold eval, NewGoogleCalendarClientFromEnv, bind. rewrite Getenv_eq.
    subst text disabled.
    destruct (equalFoldTrue _); [done|]. rewrite Getenv_eq. fold calID.
    cbn [orb]. by destruct (bool_decide (calID = "")). }
  unfold Send, modify. cbn [snd sent with_sent Store]. by rewrite Hs, Hd.
Qed.

Lemma morning_digest_from_env_witness :
  let w0 := {| TTL := 0; ChatStates := ∅; Store := emptyDB; faults := [];
               clock := λ _, 0%Z;
               env := {["GCAL_DISABLED" := " TRUE"; "GCAL_CALENDAR_ID" := "home"]};
               sent := []; logged := [] |} in
  let s := eval (NewScheduler (eval NewGoogleCalendarClientFromEnv w0)) w0 in
  sent (exec (sendMorningDigest s mar9_0800) busy) =
    [PlainMessage 7 ("РАСПИСАНИЕ НА СЕГОДНЯ:" +:+ nl +:+
       "Расписание из Google Calendar не настроено (GCAL_CALENDAR_ID не задан).")].
Proof.
  intros w0 s.
  destruct (morning_digest_from_env s w0 busy busy mar9_0800 7) as [H _];
    [reflexivity | reflexivity |].
  rewrite H. reflexivity.
Defined.

(** * The single-file bot (bot.go) *)


(** ** Marking items as deleted *)

Lemma legacy_insert_Permutation r l : Legacy.insert_by_id r l ≡ₚ r :: l.
Proof.
  induction l as [|r' l IH]; [done|]. simpl.
  destruct (Legacy.id r <=? Legacy.id r')%Z; [done|].
  rewrite IH. apply Permutation_swap.
Qed.

Lemma legacy_order_Permutation l : Legacy.order_by_id l ≡ₚ l.
Proof.
  induction l as [|r l IH]; [done|]. simpl.
  by rewrite legacy_insert_Permutation, IH.
Qed.

Lemma legacy_statement_ok w : Legacy.faults w = [] → Legacy.statement w = (None, w).
Proof. intros E. unfold Legacy.statement. by rewrite E. Qed.

Lemma legacy_loadActiveItems_ok chat tp w :
  Legacy.faults w = [] →
  Legacy.loadActiveItems chat tp w = (Ok (legacy_active chat tp (Legacy.table w)), w).
Proof. intros E. unfold Legacy.loadActiveItems. by rewrite legacy_statement_ok. Qed.

Lemma legacy_active_elem chat tp t it :
  it ∈ legacy_active chat tp t ↔
  ∃ r, r ∈ t ∧ Legacy.active chat tp r = true ∧ it = legacy_item chat tp r.
Proof.
  unfold legacy_active. rewrite list_elem_of_fmap. split.
  - intros (r & -> & Hr). rewrite legacy_order_Permutation in Hr.
    apply list_elem_of_filter in Hr as [Ha Hr]. exists r. split; [done|].
    split; [by apply Is_true_true | done].
  - intros (r & Hr & Ha & ->). exists r. split; [done|].
    rewrite legacy_order_Permutation. apply list_elem_of_filter.
    split; [by apply Is_true_true | done].
Qed.

Lemma cut_colon_done s : Legacy.cut_colon ("done:" +:+ s) = Some ("done", s).
Proof. reflexivity. Qed.

Lemma legacy_mark_active chat tp i r :
  Legacy.active chat tp (Legacy.mark_deleted chat i r) = true ↔
  Legacy.active chat tp r = true ∧ Legacy.id r ≠ i.
Proof.
  unfold Legacy.active, Legacy.mark_deleted.
  destruct (decide (Legacy.chat_id r = chat)) as [Hc|Hc];
    destruct (decide (Legacy.id r = i)) as [Hi|Hi].
  - rewrite !(bool_decide_eq_true_2 (Legacy.chat_id r = chat)) by done.
    rewrite (bool_decide_eq_true_2 (Legacy.id r = i)) by done. cbn.
    rewrite (bool_decide_eq_true_2 (Legacy.chat_id r = chat)) by done.
    rewrite andb_false_r. split; [done | intros [_ ?]; done].
  - rewrite (bool_decide_eq_false_2 (Legacy.id r = i)) by done.
    rewrite andb_false_r. split; [done | by intros [? _]].
  - rewrite (bool_decide_eq_false_2 (Legacy.chat_id r = chat)) by done. cbn.
    rewrite (bool_decide_eq_false_2 (Legacy.chat_id r = chat)) by done. cbn.
    split; [done | by intros [? _]].
  - rewrite (bool_decide_eq_false_2 (Legacy.chat_id r = chat)) by done. cbn.
    rewrite (bool_decide_eq_false_2 (Legacy.chat_id r = chat)) by done. cbn.
    split; [done | by intros [? _]].
Qed.

Lemma legacy_mark_item chat tp i r :
  legacy_item chat tp (Legacy.mark_deleted chat i r) = legacy_item chat tp r.
Proof. unfold Legacy.mark_deleted. by destruct (_ && _). Qed.

(** X17. In the single-file bot a button marks, it does not remove: the
    callback data done:<id> handled for a chat while the store works sets
    the status of the rows of that chat with that id to deleted and touches
    nothing else, so the table keeps its length; and the active items of
    the chat under any topic are afterwards those of before without that
    id. *)
Theorem legacy_button_marks_deleted (cq : CallbackQuery) (i : Z) (w : Legacy.World) :
  (minInt64 ≤ i ≤ maxInt64)%Z →
  cq_data cq = "done:" +:+ FormatInt i →
  Legacy.faults w = [] →
  let chat := cq_chat cq in
  let w' := Legacy.handleCallback cq w in
  Legacy.table w' = Legacy.mark_deleted chat i <$> Legacy.table w ∧
  length (Legacy.table w') = length (Legacy.table w) ∧
  ∀ tp it, it ∈ legacy_active chat tp (Legacy.table w') ↔
           it ∈ legacy_active chat tp (Legacy.table w) ∧ Legacy.ID it ≠ i.
Proof.
  intros Hi Hdata Hf chat w'.
  assert (Legacy.table w' = Legacy.mark_deleted chat i <$> Legacy.table w) as Ht.
  { subst w'. unfold Legacy.handleCallback. rewrite Hdata, cut_colon_done.
    rewrite bool_decide_eq_true_2 by done. cbn [negb].
    rewrite ParseInt_FormatInt by done.
    unfold Legacy.deleteItem. by rewrite legacy_statement_ok. }
  split; [done|]. split; [by rewrite Ht, length_fmap|].
  intros tp it. rewrite Ht, !legacy_active_elem. split.
  - intros (r' & Hr' & Ha & ->). apply list_elem_of_fmap in Hr' as (r & -> & Hr).
    apply legacy_mark_active in Ha as [Ha Hne]. rewrite legacy_mark_item.
    split; [by exists r | done].
  - intros [(r & Hr & Ha & ->) Hne]. exists (Legacy.mark_deleted chat i r).
    split; [apply list_elem_of_fmap; by exists r|].
    split; [by apply legacy_mark_active | by rewrite legacy_mark_item].
Qed.

Lemma legacy_button_marks_deleted_witness :
  let cq := {| cq_id := "q"; cq_chat := 7; cq_message := 1; cq_data := "done:4" |} in
  let w' := Legacy.handleCallback cq legacy_busy in
  Legacy.status <$> Legacy.table w' = [0; 1; 0; 1; 0]%Z ∧
  Legacy.ID <$> legacy_active 7 TopicReminders (Legacy.table w') = [1%Z].
Proof.
  intros cq w'.
  destruct (legacy_button_marks_deleted cq 4 legacy_busy) as (Ht & _ & _);
    [unfold minInt64, maxInt64; lia | reflexivity | reflexivity |].
  fold w' in Ht. rewrite Ht. split; reflexivity.
Defined.

(** ** The reminders message and the nightly cleanup *)

Lemma reminder_buttons_data i its :
  snd <$> Legacy.reminder_buttons i its
  = (λ it, "done:" +:+ FormatInt (Legacy.ID it)) <$> its.
Proof.
  revert i. induction its as [|it its IH]; intros i; [done|].
  cbn [Legacy.reminder_buttons]. rewrite !fmap_cons. by rewrite IH.
Qed.

(** X18. The single-file bot sends the reminders of a chat as one
    message: when the query succeeds and there is at least one active
    reminder, exactly one message goes out, whose buttons carry, in the
    order of the ids, the callback data done:<id> of the listed items; with
    no active reminder nothing is sent; table items is left alone. *)
Theorem legacy_reminders_message (chat : Z) (w : Legacy.World) :
  Legacy.faults w = [] →
  let its := legacy_active chat TopicReminders (Legacy.table w) in
  let w' := Legacy.sendReminders chat w in
  Legacy.table w' = Legacy.table w ∧
  match its with
  | [] => Legacy.sent w' = Legacy.sent w
  | _ => ∃ body buttons,
           Legacy.sent w' = Legacy.sent w ++ [Legacy.RemindersMessage chat body buttons] ∧
           snd <$> buttons = (λ it, "done:" +:+ FormatInt (Legacy.ID it)) <$> its
  end.
Proof.
  intros Hf its w'. subst w'. unfold Legacy.sendReminders.
  rewrite legacy_loadActiveItems_ok by done. fold its.
  destruct its as [|it its']; [done|]. split; [done|].
  eexists _, _. split; [done|]. apply reminder_buttons_data.
Qed.

Lemma legacy_reminders_message_witness :
  Legacy.sent (Legacy.sendReminders 7 legacy_busy) =
    [Legacy.RemindersMessage 7
       ("Напоминания:" +:+ nl +:+ "1) water the plants" +:+ nl +:+ "2) buy milk" +:+ nl)
       [("✅ 1", "done:1"); ("✅ 2", "done:4")]].
Proof.
  destruct (legacy_reminders_message 7 legacy_busy eq_refl) as [_ H].
  vm_compute in H. destruct H as (body & buttons & E & _).
  reflexivity.
Defined.

Lemma legacy_active_cleaned chat (t : list Legacy.Row) :
  legacy_active chat TopicReminders (filter (λ r, Legacy.topic r ≠ TopicReminders) t) = [].
Proof.
  unfold legacy_active.
  assert (filter (λ r, Legacy.active chat TopicReminders r)
            (filter (λ r, Legacy.topic r ≠ TopicReminders) t) = []) as ->; [|done].
  induction t as [|r t IH]; [done|].
  rewrite filter_cons. destruct (decide (Legacy.topic r ≠ TopicReminders)) as [Hr|Hr]; [|done].
  rewrite filter_cons, decide_False; [done|].
  unfold Legacy.active. rewrite (bool_decide_eq_false_2 (Legacy.topic r = _)) by done.
  rewrite andb_false_r. simpl. by intros [].
Qed.

(** X19. The nightly cleanup of the single-file bot, when its statement
    succeeds, removes the reminders of every chat, the ones marked deleted
    included, and keeps every other row; a broadcast to any chat right
    after sends nothing. *)
Theorem legacy_cleanup_all_chats (w : Legacy.World) :
  Legacy.faults w = [] →
  let w' := Legacy.cleanupReminders w in
  (∀ r, r ∈ Legacy.table w' ↔ r ∈ Legacy.table w ∧ Legacy.topic r ≠ TopicReminders) ∧
  ∀ chat, Legacy.sent (Legacy.sendReminders chat w') = Legacy.sent w.
Proof.
  intros Hf w'.
  assert (w' = Legacy.with_table (filter (λ r, Legacy.topic r ≠ TopicReminders) (Legacy.table w))
                 (Legacy.sqlite_sequence w) w) as ->.
  { subst w'. unfold Legacy.cleanupReminders. by rewrite legacy_statement_ok. }
  split.
  - intros r. cbn [Legacy.table Legacy.with_table]. rewrite list_elem_of_filter. tauto.
  - intros chat. unfold Legacy.sendReminders.
    rewrite legacy_loadActiveItems_ok by done.
    cbn [Legacy.table Legacy.with_table]. by rewrite legacy_active_cleaned.
Qed.

Lemma legacy_cleanup_all_chats_witness :
  Legacy.id <$> Legacy.table (Legacy.cleanupReminders legacy_busy) = [5%Z] ∧
  Legacy.sent (Legacy.sendReminders 8 (Legacy.cleanupReminders legacy_busy)) = [].
Proof.
  destruct (legacy_cleanup_all_chats legacy_busy eq_refl) as [_ H].
  split; [reflexivity | apply H].
Defined.

(** ** Sessions and capture *)


Lemma valid_topic_nonempty t : valid_topic t → t ≠ "".
Proof. by intros [-> | [-> | [-> | ->]]]. Qed.

Lemma legacy_getState_state chat w :
  Legacy.states (Legacy.getState chat w).2 !! chat = Some (Legacy.getState chat w).1 ∧
  Legacy.table (Legacy.getState chat w).2 = Legacy.table w ∧
  Legacy.sqlite_sequence (Legacy.getState chat w).2 = Legacy.sqlite_sequence w ∧
  Legacy.faults (Legacy.getState chat w).2 = Legacy.faults w ∧
  Legacy.sent (Legacy.getState chat w).2 = Legacy.sent w ∧
  (legacy_ok w → legacy_ok (Legacy.getState chat w).2 ∧
                 valid_topic (Topic (Legacy.getState chat w).1)).
Proof.
  unfold Legacy.getState. destruct (Legacy.states w !! chat) as [s|] eqn:E; cbn.
  - do 5 (split; [done|]). intros [Hs Ht]. split; [by split|]. by apply (Hs chat s).
  - rewrite lookup_insert_eq. do 5 (split; [done|]). intros [Hs Ht].
    split; [|by left]. split; [|done]. apply map_Forall_insert_2; [by left | done].
Qed.

Lemma valid_resetTopicIfExpired s now :
  valid_topic (Topic s) → valid_topic (Topic (Legacy.resetTopicIfExpired s now)).
Proof.
  intros Hs. unfold Legacy.resetTopicIfExpired. cbn [Topic].
  destruct (_ <? _)%Z; [by left | done].
Qed.

Lemma legacy_ok_store_state chat s w :
  legacy_ok w → valid_topic (Topic s) → legacy_ok (Legacy.store_state chat s w).
Proof. intros [Hs Ht] Hv. split; [by apply map_Forall_insert_2 | done]. Qed.

Section LegacyHandlers.

Context {UC : UnicodeCase}.

Lemma legacy_label_valid l tp reply : Legacy.label l = Some (tp, reply) → valid_topic tp.
Proof.
  unfold Legacy.label, valid_topic.
  repeat (destruct (_ : bool); [intros [= <- <-]; auto|]). done.
Qed.

Lemma legacy_ok_frame w w' :
  Legacy.states w' = Legacy.states w → Legacy.table w' = Legacy.table w →
  legacy_ok w → legacy_ok w'.
Proof. intros Es Et [Hs Ht]. split; by rewrite ?Es, ?Et. Qed.

Lemma legacy_ok_handleMessage now now' m w :
  legacy_ok w → legacy_ok (Legacy.handleMessage now now' m w).
Proof.
  intros Hw. unfold Legacy.handleMessage. cbv zeta.
  destruct (legacy_getState_state (msg_chat m) w) as (_ & _ & _ & _ & _ & Hg).
  destruct (Hg Hw) as [Hw1 Hv]. clear Hg.
  destruct (Legacy.getState (msg_chat m) w) as [s w1]. cbn [fst snd] in *.
  pose proof (valid_resetTopicIfExpired s now Hv) as Hv'.
  pose proof (legacy_ok_store_state (msg_chat m) _ w1 Hw1 Hv') as Hw2.
  set (s' := Legacy.resetTopicIfExpired s now) in *.
  set (w2 := Legacy.store_state (msg_chat m) s' w1) in *.
  destruct (msg_command m) as [c|].
  - assert (∀ t, legacy_ok (Legacy.store_state (msg_chat m)
                              {| Topic := TopicBasket; LastActivity := t |}
                              (Legacy.getState (msg_chat m) w2).2)) as Hb.
    { intros t. apply legacy_ok_store_state; [|by left].
      by apply (legacy_getState_state (msg_chat m) w2). }
    case_bool_decide.
    { unfold Legacy.handleStart. specialize (Hb now').
      destruct (Legacy.getState (msg_chat m) w2) as [s0 w3]. apply Hb. }
    case_bool_decide; [|done].
    unfold Legacy.handleMenu. specialize (Hb now').
    destruct (Legacy.getState (msg_chat m) w2) as [s0 w3]. apply Hb.
  - destruct (Legacy.label (ToLower (msg_text m))) as [[tp reply]|] eqn:El.
    { apply legacy_label_valid in El.
      by apply (legacy_ok_store_state (msg_chat m) {| Topic := tp; LastActivity := now |}). }
    case_bool_decide; [done|].
    unfold Legacy.insertItem. case_bool_decide; [done|].
    destruct (Legacy.statement w2) as [[e|] w3] eqn:Es.
    + unfold Legacy.statement in Es. destruct (Legacy.faults w2); by inversion Es.
    + assert (legacy_ok w3) as [Hs3 Ht3].
      { unfold Legacy.statement in Es. destruct (Legacy.faults w2); by inversion Es. }
      destruct (_ <=? _)%Z; [by split|].
      split; [done|]. cbn. apply Forall_app. split; [done|]. by constructor.
Qed.

Lemma legacy_handleMessage_touches now now' m w :
  ∃ s, Legacy.states (Legacy.handleMessage now now' m w) !! msg_chat m = Some s ∧
       (LastActivity s = now ∨ LastActivity s = now').
Proof.
  unfold Legacy.handleMessage. cbv zeta.
  destruct (Legacy.getState (msg_chat m) w) as [s w1].
  set (s' := Legacy.resetTopicIfExpired s now).
  set (w2 := Legacy.store_state (msg_chat m) s' w1).
  assert (Legacy.states w2 !! msg_chat m = Some s') as H2.
  { subst w2. cbn. by rewrite lookup_insert_eq. }
  destruct (msg_command m) as [c|].
  - case_bool_decide.
    { unfold Legacy.handleStart. destruct (Legacy.getState (msg_chat m) w2) as [s0 w3].
      eexists. cbn. rewrite lookup_insert_eq. split; [done|]. by right. }
    case_bool_decide.
    { unfold Legacy.handleMenu. destruct (Legacy.getState (msg_chat m) w2) as [s0 w3].
      eexists. cbn. rewrite lookup_insert_eq. split; [done|]. by right. }
    exists s'. split; [done | by left].
  - destruct (Legacy.label (ToLower (msg_text m))) as [[tp reply]|].
    { eexists. cbn. rewrite lookup_insert_eq. split; [done|]. by left. }
    case_bool_decide; [exists s'; split; [done | by left]|].
    unfold Legacy.insertItem. case_bool_decide; [exists s'; split; [done | by left]|].
    assert (Legacy.states (Legacy.statement w2).2 = Legacy.states w2) as Hs.
    { unfold Legacy.statement. by destruct (Legacy.faults w2). }
    destruct (Legacy.statement w2) as [[e|] w3]; cbn [snd] in Hs.
    + exists s'. cbn. rewrite Hs. split; [done | by left].
    + destruct (_ <=? _)%Z; exists s'; cbn; rewrite Hs; (split; [done | by left]).
Qed.

Lemma legacy_ok_handleCallback cq w : legacy_ok w → legacy_ok (Legacy.handleCallback cq w).
Proof.
  intros [Hs Ht]. unfold Legacy.handleCallback. cbv zeta.
  destruct (Legacy.cut_colon (cq_data cq)) as [[p0 p1]|]; [|by split].
  destruct (negb _); [by split|].
  destruct (ParseInt p1) as [i|]; [|by split].
  unfold Legacy.deleteItem, Legacy.statement. cbn.
  assert (Forall (λ r, valid_topic (Legacy.topic r))
            (Legacy.mark_deleted (cq_chat cq) i <$> Legacy.table w)) as Hm.
  { apply Forall_fmap. eapply Forall_impl; [exact Ht|]. intros r Hr. cbn.
    unfold Legacy.mark_deleted. by destruct (_ && _). }
  destruct (Legacy.faults w) as [|[e|] fs]; by split.
Qed.

Lemma legacy_ok_sendReminders chat w : legacy_ok w → legacy_ok (Legacy.sendReminders chat w).
Proof.
  intros [Hs Ht]. unfold Legacy.sendReminders, Legacy.loadActiveItems, Legacy.statement.
  destruct (Legacy.faults w) as [|[e|] fs]; cbn; repeat case_match; by split.
Qed.

Lemma legacy_ok_cleanupReminders w : legacy_ok w → legacy_ok (Legacy.cleanupReminders w).
Proof.
  intros [Hs Ht]. unfold Legacy.cleanupReminders, Legacy.statement.
  assert (Forall (λ r, valid_topic (Legacy.topic r))
            (filter (λ r, Legacy.topic r ≠ TopicReminders) (Legacy.table w))) as Hf.
  { apply Forall_forall. intros r Hr. apply list_elem_of_filter in Hr as [_ Hr].
    rewrite Forall_forall in Ht. by apply Ht. }
  destruct (Legacy.faults w) as [|[e|] fs]; by split.
Qed.

(** X20. In the single-file bot every session and every stored row keeps
    one of the four topics, through messages, callbacks, broadcasts and the
    cleanup; and every message, commands and unknown commands included,
    leaves the session of its chat stamped with a clock reading of that
    message. *)
Theorem legacy_topic_invariant (w : Legacy.World) :
  legacy_ok w →
  (∀ now now' m,
     let w' := Legacy.handleMessage now now' m w in
     legacy_ok w' ∧
     ∃ s, Legacy.states w' !! msg_chat m = Some s ∧
          (LastActivity s = now ∨ LastActivity s = now')) ∧
  (∀ cq, legacy_ok (Legacy.handleCallback cq w)) ∧
  (∀ chat, legacy_ok (Legacy.sendReminders chat w)) ∧
  legacy_ok (Legacy.cleanupReminders w).
Proof.
  intros Hw. split; [|split; [|split]].
  - intros now now' m. split; [by apply legacy_ok_handleMessage|].
    apply legacy_handleMessage_touches.
  - intros cq. by apply legacy_ok_handleCallback.
  - intros chat. by apply legacy_ok_sendReminders.
  - by apply legacy_ok_cleanupReminders.
Qed.

End LegacyHandlers.

Lemma legacy_busy_ok : legacy_ok legacy_busy.
Proof.
  split; [apply map_Forall_empty|].
  repeat (constructor; [unfold valid_topic; cbn; auto|]). constructor.
Qed.

Lemma legacy_topic_invariant_witness :
  legacy_ok (Legacy.handleMessage (UC := basicCyrillic) 5 6 (text_message 7 "Reminders")
               legacy_busy) ∧
  Legacy.states (Legacy.handleMessage (UC := basicCyrillic) 5 6 (text_message 7 "Reminders")
                   legacy_busy) !! 7%Z
  = Some {| Topic := TopicReminders; LastActivity := 5 |}.
Proof.
  destruct (legacy_topic_invariant (UC := basicCyrillic) legacy_busy legacy_busy_ok)
    as [H _].
  split; [apply H | reflexivity].
Defined.

Section LegacyCapture.

Context {UC : UnicodeCase}.

(** X21. The single-file bot stores a plain text as it came: a message
    that is no command and no label and does not trim to nothing, handled
    while the store works, adds one active row under the topic that the
    expiry check resolves, with the message text untrimmed and the time in
    Unix seconds, and acknowledges with the name of that topic. *)
Theorem legacy_capture_verbatim (now now' : Z) (m : Message) (w : Legacy.World) :
  msg_command m = None →
  Legacy.label (ToLower (msg_text m)) = None →
  TrimSpace (msg_text m) ≠ "" →
  legacy_ok w → Legacy.faults w = [] → (Legacy.sqlite_sequence w < maxInt64)%Z →
  let chat := msg_chat m in
  let s := Legacy.resetTopicIfExpired (Legacy.getState chat w).1 now in
  let w' := Legacy.handleMessage now now' m w in
  Legacy.table w' =
    Legacy.table w ++
      [{| Legacy.id := Legacy.sqlite_sequence w + 1; Legacy.chat_id := chat;
          Legacy.topic := Topic s; Legacy.text := msg_text m;
          Legacy.created_at := now `div` 1000000000; Legacy.status := 0 |}] ∧
  Legacy.states w' !! chat = Some s ∧
  Legacy.sent w' =
    Legacy.sent w ++ [Legacy.Reply chat ("Добавил сообщение в " +:+ Legacy.humanTopic (Topic s))].
Proof.
  intros Hc Hl Ht Hw Hf Hseq chat s w'. subst w' s.
  unfold Legacy.handleMessage. cbv zeta. fold chat.
  destruct (legacy_getState_state chat w) as (_ & Et & Eq & Ef & Es & Hg).
  destruct (Hg Hw) as [_ Hv]. clear Hg.
  destruct (Legacy.getState chat w) as [s w1]. cbn [fst snd] in *.
  rewrite Hc, Hl. rewrite bool_decide_eq_false_2 by done.
  pose proof (valid_topic_nonempty _ (valid_resetTopicIfExpired s now Hv)) as Hne.
  unfold Legacy.insertItem. rewrite bool_decide_eq_false_2 by done.
  rewrite legacy_statement_ok by (cbn; congruence).
  cbn [Legacy.sqlite_sequence Legacy.store_state Legacy.with_states].
  destruct (Z.leb_spec maxInt64 (Legacy.sqlite_sequence w1)); [lia|].
  cbn. rewrite lookup_insert_eq, Et, Eq, Es. done.
Qed.

End LegacyCapture.

Lemma legacy_capture_verbatim_witness :
  let w' := Legacy.handleMessage (UC := basicCyrillic) (90 * 1000000000) 0
              (text_message 7 "  задачи ") legacy_busy in
  Legacy.text <$> Legacy.table w' =
    ["water the plants"; "old"; "call the bank"; "buy milk"; "file taxes"; "  задачи "] ∧
  Legacy.created_at <$> last (Legacy.table w') = Some 90%Z.
Proof.
  intros w'.
  destruct (legacy_capture_verbatim (UC := basicCyrillic) (90 * 1000000000) 0
              (text_message 7 "  задачи ") legacy_busy) as (Ht & _ & _);
    [reflexivity | reflexivity | discriminate | apply legacy_busy_ok | reflexivity
    | reflexivity |].
  fold w' in Ht. rewrite Ht. split; reflexivity.
Defined.

(** ** A trigger fires only at its own minute *)

Lemma Format_hhmm_length now : String.length (Format_hhmm now) = 5%nat.
Proof. reflexivity. Qed.

(** X22. A trigger fires only at polls whose wall clock reads its time: over
    steps none of which is such a poll the action is never called. In
    particular a trigger time that is not five characters long, such as a
    MORNING_TIME of 8:00, never fires. *)
Theorem trigger_fires_only_at_its_time (s : Scheduler) (k : Kind) (t : string)
    (steps : list Step) (l : Loop) :
  String.length t ≠ 5%nat ∨ (∀ now, Poll now ∈ steps → Format_hhmm now ≠ t) →
  calls k t (trace (loop s steps l)) = calls k t (trace l).
Proof.
  intros Hno.
  assert (∀ now, Poll now ∈ steps → Format_hhmm now ≠ t) as Hsteps.
  { destruct Hno as [Hlen | H]; [|done]. intros now _ E. apply Hlen.
    by rewrite <- E, Format_hhmm_length. }
  clear Hno. revert l. induction steps as [|e steps IH]; intros l; [done|].
  rewrite loop_cons, IH by (intros now Hin; apply Hsteps; by right).
  destruct e as [now|f]; [|done]. cbn [step].
  destruct (acts_tick s k t now l) as [-> _].
  unfold fires_when.
  rewrite (bool_decide_eq_false_2 (Format_hhmm now = t)) by (apply Hsteps; by left).
  rewrite andb_false_r. cbn. lia.
Qed.

Lemma trigger_fires_only_at_its_time_witness :
  morningTime earlyScheduler = "8:00" ∧
  calls Morning "8:00" (trace (loop earlyScheduler [Poll mar9_0800; Poll mar10_0800]
                                 (start busy))) = 0%nat.
Proof.
  split; [reflexivity|].
  rewrite (trigger_fires_only_at_its_time earlyScheduler Morning "8:00"
             [Poll mar9_0800; Poll mar10_0800] (start busy)); [reflexivity|].
  left. cbn. lia.
Defined.

(** ** The keyboards and the recognizers *)

(** X23. Every button of a keyboard is understood by the recognizer of the
    same bot: the labels of bot.go's [defaultKeyboard] are labels of its
    [handleMessage], and, given that lowering maps the four Cyrillic labels
    of [mainMenuKeyboard] to their lower case, [isTopicButtonText] answers
    each label of [mainMenuKeyboard] with its topic. *)
Theorem keyboard_labels_understood `{UC : UnicodeCase} :
  (λ l, fst <$> Legacy.label (ToLower l)) <$> concat Legacy.defaultKeyboard
  = [Some TopicTasks; Some TopicReminders; Some TopicShopping; Some TopicBasket;
     Some TopicBasket] ∧
  (MapToLower <$> ["Задачи"; "Напоминания"; "Покупки"; "Корзина"]
   = ["задачи"; "напоминания"; "покупки"; "корзина"] →
   isTopicButtonText <$> concat mainMenuKeyboard
   = [(TopicTasks, true); (TopicReminders, true); (TopicShopping, true);
      (TopicBasket, true); (TopicBasket, true)]).
Proof.
  split; [reflexivity|].
  intros [= H1 H2 H3 H4]. cbn [concat mainMenuKeyboard app fmap list_fmap].
  unfold isTopicButtonText.
  change (ToLower "Задачи") with (MapToLower "Задачи").
  change (ToLower "Напоминания") with (MapToLower "Напоминания").
  change (ToLower "Покупки") with (MapToLower "Покупки").
  change (ToLower "Корзина") with (MapToLower "Корзина").
  rewrite H1, H2, H3, H4. reflexivity.
Qed.

Lemma keyboard_labels_understood_witness :
  isTopicButtonText (UC := basicCyrillic) <$> concat mainMenuKeyboard
  = [(TopicTasks, true); (TopicReminders, true); (TopicShopping, true);
     (TopicBasket, true); (TopicBasket, true)].
Proof.
  destruct (keyboard_labels_understood (UC := basicCyrillic)) as [_ H].
  apply H. reflexivity.
Defined.

(** ** The broadcast after the wipe *)

Lemma GetKV_ok key w :
  faults w = [] →
  GetKV key w = (match kv (Store w) !! key with
                 | Some v => (v, true)
                 | None => ("", false)
                 end, w).
Proof.
  intros Hf. unfold GetKV, bind. rewrite statement_ok by done. cbn.
  by destruct (kv (Store w) !! key).
Qed.

Lemma targetChatID_ok w :
  faults w = [] →
  targetChatID w =
    (match parseInt64 (TrimSpace (default "" (env w !! "CHAT_ID"))) with
     | (chat, true) => (chat, true)
     | (_, false) =>
         match kv (Store w) !! "chat_id" with
         | Some v => parseInt64 (TrimSpace v)
         | None => (0%Z, false)
         end
     end, w).
Proof.
  intros Hf. unfold targetChatID, bind. rewrite Getenv_eq.
  destruct (parseInt64 _) as [c []]; [done|].
  rewrite GetKV_ok by done. by destruct (kv (Store w) !! "chat_id").
Qed.

Lemma select_active_wiped chat (l : list Row) :
  filter (λ r, selected chat TopicReminders r)
    (filter (λ r, ¬ (row_chat_id r = chat ∧ row_topic r = TopicReminders)) l) = [].
Proof.
  induction l as [|r l IH]; [done|].
  rewrite filter_cons. destruct (decide _) as [Hr|Hr]; [|done].
  rewrite filter_cons, decide_False; [done|].
  intros Hsel. apply Hr. unfold selected in Hsel. apply Is_true_true in Hsel.
  apply andb_true_iff in Hsel as [Hsel Ht]. apply andb_true_iff in Hsel as [Hc _].
  apply bool_decide_eq_true in Hc.
  apply orb_true_iff in Ht as [Ht | Ht]; apply bool_decide_eq_true in Ht; done.
Qed.

(** X24. A broadcast that follows a wipe is silent: after [wipeReminders]
    has run for a resolvable target chat while the store works, the chat has
    no active reminder left, and [sendReminders] sends nothing and leaves
    the store alone. *)
Theorem broadcast_after_wipe_is_silent (now now' : Civil) (w : World) :
  faults w = [] → (eval targetChatID w).2 = true →
  let w1 := exec (wipeReminders now) w in
  select_active (eval targetChatID w).1 TopicReminders (Store w1) = [] ∧
  sent (exec (sendReminders now') w1) = sent w1 ∧
  Store (exec (sendReminders now') w1) = Store w1.
Proof.
  intros Hf Hok w1.
  assert (∃ out, w1 = with_sent out
                   (with_Store (delete_where
                                 (λ r, bool_decide (row_chat_id r = (eval targetChatID w).1)
                                       && bool_decide (row_topic r = TopicReminders))
                                 (Store w)) w)) as [out Ew1].
  { subst w1. unfold exec, eval, wipeReminders, bind in *.
    rewrite targetChatID_ok in * by done. cbn [fst snd] in *.
    destruct (match parseInt64 _ with (chat, true) => _ | (_, false) => _ end) as [c ok].
    cbn [snd fst] in *. subst ok.
    unfold DeleteAllReminders, bind. rewrite statement_ok by done.
    eexists. reflexivity. }
  assert (faults w1 = [] ∧ env w1 = env w ∧ kv (Store w1) = kv (Store w)) as (Hf1 & He1 & Hk1).
  { by rewrite Ew1. }
  assert (eval targetChatID w1 = eval targetChatID w) as Et.
  { unfold eval. rewrite !targetChatID_ok by done. cbn [fst]. by rewrite He1, Hk1. }
  assert (select_active (eval targetChatID w).1 TopicReminders (Store w1) = []) as Hsel.
  { unfold select_active. rewrite Ew1. cbn [Store with_sent with_Store items delete_where].
    rewrite filter_not_reminders, select_active_wiped. done. }
  split; [done|].
  unfold exec, sendReminders, bind.
  pose proof Et as Et'. unfold eval in Et'. rewrite (targetChatID_ok w1) in * by done.
  cbn [fst snd] in *. rewrite Et'.
  destruct (targetChatID w).1 as [c ok] eqn:E. unfold eval in Hok. rewrite E in Hok.
  cbn [snd] in Hok. subst ok.
  unfold ListActive, bind. rewrite statement_ok by done.
  unfold eval in Hsel. rewrite E in Hsel. cbn [fst] in Hsel.
  cbn. by rewrite Hsel.
Qed.

Lemma broadcast_after_wipe_is_silent_witness :
  sent (exec (sendReminders mar9_0800) (exec (wipeReminders mar9_0300) busy))
  = [PlainMessage 7 "НАПОМИНАНИЯ ОЧИЩЕНЫ (ночной вайп)."].
Proof.
  destruct (broadcast_after_wipe_is_silent mar9_0300 mar9_0800 busy) as (_ & H & _);
    [reflexivity | reflexivity |].
  rewrite H. reflexivity.
Defined.

Lemma message_replies_witness :
  ∃ out, sent (exec (handleMessage (UC := basicCyrillic) 0 (text_message 7 "hello")) busy)
         = sent busy ++ out ∧ out ≠ [].
Proof.
  destruct (message_replies (UC := basicCyrillic) 0 (text_message 7 "hello") busy)
    as (out & E & _ & H).
  exists out. split; [exact E|]. apply H. intros (_ & _ & _ & Hb). discriminate Hb.
Defined.

(** ** The order of the actions within a tick *)

Lemma check_world s k t now l :
  world (check s k t now l) = exec (run_if (due l k t now) (action_of s k now)) (world l).
Proof. unfold check, due. cbv zeta. by destruct (_ && _). Qed.

Lemma check_due_other s k t now l k' t' :
  k' ≠ k → due (check s k t now l) k' t' now = due l k' t' now.
Proof.
  intros Hk. unfold check. cbv zeta.
  destruct (bool_decide (Format_hhmm now = t)
            && not_fired l (trigger_key k t) (Format_date now)); [|done].
  unfold due, not_fired. cbn [invoke commit lastFired].
  rewrite lookup_insert_ne; [done|]. intros E. by apply trigger_key_inj in E as [-> _].
Qed.

Lemma check_due_same s k t now l : due (check s k t now l) k t now = false.
Proof.
  unfold check. cbv zeta. fold (due l k t now).
  destruct (due l k t now) eqn:E; [|done].
  unfold due, not_fired. cbn [invoke commit lastFired]. rewrite lookup_insert_eq. cbn.
  rewrite (bool_decide_eq_true_2 (Format_date now = Format_date now)) by done.
  by rewrite andb_false_r.
Qed.

Lemma reminders_world s now ts : ∀ l,
  world (foldl (λ l t, check s Reminders t now l) l ts)
  = exec (run_if (existsb (λ t, due l Reminders t now) ts) (sendReminders now)) (world l) ∧
  ∀ k' t', k' ≠ Reminders →
    due (foldl (λ l t, check s Reminders t now l) l ts) k' t' now = due l k' t' now.
Proof.
  induction ts as [|t ts IH]; intros l; [done|].
  cbn [foldl existsb]. destruct (IH (check s Reminders t now l)) as [Hw Hd]. split.
  - rewrite Hw, check_world. cbn [action_of].
    destruct (due l Reminders t now) eqn:E; cbn [orb run_if].
    + assert (existsb (λ t', due (check s Reminders t now l) Reminders t' now) ts = false) as ->.
      { apply not_true_is_false. intros Hex. apply existsb_exists in Hex as (t' & _ & Ht').
        assert (t' = t) as ->.
        { unfold due in E, Ht'. apply andb_true_iff in E as [E _].
          apply andb_true_iff in Ht' as [Ht' _].
          apply bool_decide_eq_true in E, Ht'. congruence. }
        by rewrite check_due_same in Ht'. }
      done.
    + assert (check s Reminders t now l = l) as ->; [|done].
      unfold check. cbv zeta. fold (due l Reminders t now). by rewrite E.
  - intros k' t' Hk. by rewrite Hd, check_due_other.
Qed.

Lemma existsb_ext_all {A} (f g : A → bool) (l : list A) :
  (∀ x, f x = g x) → existsb f l = existsb g l.
Proof. intros H. induction l as [|x l IH]; [done|]. cbn. by rewrite H, IH. Qed.

(** X25. Within one tick the due actions run in the order of the source:
    the morning digest, then the reminders broadcast (once, if the clock
    reads one of the reminder times and that trigger has not fired today),
    then the wipe; an action that is not due does not run. *)
Theorem tick_runs_in_order (s : Scheduler) (now : Civil) (l : Loop) :
  world (tick s now l) =
  exec (run_if (due l Morning (morningTime s) now) (sendMorningDigest s now) ;;;
        run_if (existsb (λ t, due l Reminders t now) (reminderTimes s)) (sendReminders now) ;;;
        run_if (due l Wipe (wipeTime s) now) (wipeReminders now))
       (world l).
Proof.
  unfold tick. rewrite !exec_bind.
  set (l1 := check s Morning (morningTime s) now l).
  destruct (reminders_world s now (reminderTimes s) l1) as [Hw Hd].
  rewrite check_world, Hw, Hd by done. subst l1.
  rewrite check_world, check_due_other by done. cbn [action_of].
  rewrite (existsb_ext_all _ (λ t, due l Reminders t now)); [done|].
  intros t. by apply check_due_other.
Qed.

Lemma tick_runs_in_order_witness :
  sent (world (tick defaultScheduler mar9_0800 (start busy))) =
    [PlainMessage 7 ("РАСПИСАНИЕ НА СЕГОДНЯ:" +:+ nl +:+
       "Расписание из Google Calendar не настроено (GCAL_CALENDAR_ID не задан).");
     ReminderMessage 7 "НАПОМИНАНИЕ #1: water the plants" "done:1";
     ReminderMessage 7 "НАПОМИНАНИЕ #4: buy milk" "done:4";
     ReminderMessage 7 "НАПОМИНАНИЕ #5: stretch" "done:5"].
Proof. rewrite tick_runs_in_order. reflexivity. Defined.
